(** * glyphcanvas: region rasters, shape descriptors, anchors and decomposition

    A shallow embedding of the Go packages [region], [regionHelper],
    [canvas], [character], [characterHelper], [characterCalculate] and
    [helper].

    Conventions of the embedding.
    - A Go [uint16] is a [Z] in [0, 65536); every place where the source
      converts through [int16]/[uint16] or lets a [uint16] expression wrap is
      written out with [uint16]/[int16] below.  Go's [int] is an unbounded [Z].
    - A Go [float64] is a real number ([R]): the arithmetic is the exact one,
      without rounding, infinities or NaN.
    - A Go [map] is a stdpp [gmap]; reading a missing key yields the zero value,
      which is written as [default] at each read.
    - Pointers to points, regions and anchors are never shared between two
      live owners in the code embedded here, so they are embedded as values. *)

From Stdlib Require Import ZArith List Reals Lra Lia Permutation Sorted.
From stdpp Require Import gmap strings list.

Local Open Scope Z_scope.

(** ** Machine integers and float comparisons *)

(** Conversion to [uint16]: reduction modulo 2^16. *)
Definition uint16 (z : Z) : Z := z mod 65536.

(** Conversion to [int16]: the representative in [-32768, 32768). *)
Definition int16 (z : Z) : Z := (z + 32768) mod 65536 - 32768.

(** [uint16(int16(x) + d)] for an [int16] offset [d], as written throughout
    the neighbourhood scans of the source. *)
Definition offset16 (x d : Z) : Z := uint16 (int16 (int16 x + d)).

(** [float64(int16(a) - int16(b))]: the difference wraps as an [int16]. *)
Definition diff16 (a b : Z) : Z := int16 (int16 a - int16 b).

Definition Rltb (x y : R) : bool := if Rlt_dec x y then true else false.
Definition Rleb (x y : R) : bool := if Rle_dec x y then true else false.
Definition Rgtb (x y : R) : bool := Rltb y x.
Definition Rgeb (x y : R) : bool := Rleb y x.
Definition Reqb (x y : R) : bool := if Req_dec_T x y then true else false.

(** [math.Atan2(y, x)] on real arguments. *)
Definition atan2 (y x : R) : R :=
  if Rltb 0 x then atan (y / x)
  else if Rltb x 0 then
    (if Rleb 0 y then atan (y / x) + PI else atan (y / x) - PI)%R
  else if Rltb 0 y then (PI / 2)%R
  else if Rltb y 0 then (- PI / 2)%R
  else 0%R.

(** [math.Pow(x, y)] for a positive base. *)
Definition Pow (x y : R) : R := Rpower x y.

(** ** Points (the struct [Point] of both [region] and [character]) *)

Record Point := mkPoint { X : Z; Y : Z }.

#[global] Instance Point_eq_dec : EqDecision Point.
Proof. solve_decision. Defined.

(** The three neighbourhood offsets of the [for d := -1; d <= 1; d++] loops. *)
Definition offsets3 : list Z := [-1; 0; 1].

(** ** Package region *)

Module Region.

Record Region := mkRegion {
  SizeX : Z;
  SizeY : Z;
  Bitmap : gmap Z (gmap Z bool);
  Draws : list Point
}.

Definition NewRegion (sizeX sizeY : Z) : Region :=
  {| SizeX := sizeX; SizeY := sizeY; Bitmap := ∅; Draws := [] |}.

Definition IsDrew (r : Region) (x y : Z) : bool :=
  match Bitmap r !! x with
  | None => false
  | Some row =>
      match row !! y with
      | None => false
      | Some b => b
      end
  end.

Definition Draw (r : Region) (x y : Z) : Region :=
  let row := match Bitmap r !! x with Some row => row | None => ∅ end in
  {| SizeX := SizeX r; SizeY := SizeY r;
     Bitmap := <[x := <[y := true]> row]> (Bitmap r);
     Draws := Draws r ++ [mkPoint x y] |}.

Definition Erase (r : Region) (x y : Z) : Region :=
  match Bitmap r !! x with
  | None => r
  | Some row =>
      {| SizeX := SizeX r; SizeY := SizeY r;
         Bitmap := <[x := <[y := false]> row]> (Bitmap r);
         Draws := Draws r |}
  end.

Definition GetSizeX (r : Region) : Z := SizeX r.
Definition GetSizeY (r : Region) : Z := SizeY r.

(** A call of one of the two mutators, and the effect of a sequence of calls. *)
Inductive Op := OpDraw (x y : Z) | OpErase (x y : Z).

Definition step (r : Region) (o : Op) : Region :=
  match o with
  | OpDraw x y => Draw r x y
  | OpErase x y => Erase r x y
  end.

Definition run (r : Region) (ops : list Op) : Region := fold_left step ops r.

(** The arguments of a call are [uint16] values. *)
Definition op_uint16 (o : Op) : Prop :=
  match o with
  | OpDraw x y | OpErase x y => 0 <= x < 65536 /\ 0 <= y < 65536
  end.

(** A [Draw] whose pixel lies inside a raster of the given size
    (an [Erase] is not constrained). *)
Definition op_in_bounds (w h : Z) (o : Op) : Prop :=
  match o with
  | OpDraw x y => 0 <= x < w /\ 0 <= y < h
  | OpErase _ _ => True
  end.

(** The foreground set: the coordinates whose bitmap entry is [true]. *)
Definition foreground (r : Region) : list (Z * Z) :=
  '(x, row) ← map_to_list (Bitmap r);
  '(y, b) ← map_to_list row;
  if b : bool then [(x, y)] else [].

Inductive ArcType :=
| ArcTypeCircle | ArcTypeStrengthLine | ArcTypeCurveLine
| ArcTypeTriangle | ArcTypeRectangle.

Inductive ArcFillType := ArcFillTypeFill | ArcFillTypeStroke.

Record Arc := mkArc {
  Type_ : ArcType;
  Fill : ArcFillType;
  CircleEllipseRatio : R;
  LineDegree : R;
  ArcLineTheta : R
}.

Record EdgePoint := mkEdgePoint { EX : Z; EY : Z; Angle : R }.

Record HoughAccumulator := mkHough { Rho : R; Theta : R; Votes : Z }.

End Region.

(** ** Package regionHelper *)

Module RegionHelper.
Import Region.

(** [moments[k]]: a missing key reads as 0. *)
Definition get (m : gmap string R) (k : string) : R := default 0%R (m !! k).

(** The pixels met by the scan
    [for x := 0; x < SizeX; x++ { for y := 0; y < SizeY; y++ { if IsDrew(x, y) ] ,
    in scan order. *)
Definition scanPixels (reg : Region) : list (Z * Z) :=
  x ← seqZ 0 (GetSizeX reg);
  y ← seqZ 0 (GetSizeY reg);
  if IsDrew reg x y then [(x, y)] else [].

(** One accumulator of the scan: [acc += f(fx, fy)] for every pixel met. *)
Definition accumulate (f : R -> R -> R) (pixels : list (Z * Z)) : R :=
  fold_left (fun acc p => (acc + f (IZR p.1) (IZR p.2))%R) pixels 0%R.

Definition RegionComputeMoments (reg : Region) : gmap string R :=
  (let px := scanPixels reg in
  let m00 := accumulate (fun fx fy => 1) px in
  let m10 := accumulate (fun fx fy => fx) px in
  let m01 := accumulate (fun fx fy => fy) px in
  let m11 := accumulate (fun fx fy => fx * fy) px in
  let m20 := accumulate (fun fx fy => fx * fx) px in
  let m02 := accumulate (fun fx fy => fy * fy) px in
  let m21 := accumulate (fun fx fy => fx * fx * fy) px in
  let m12 := accumulate (fun fx fy => fx * fy * fy) px in
  let m30 := accumulate (fun fx fy => fx * fx * fx) px in
  let m03 := accumulate (fun fx fy => fy * fy * fy) px in
  let moments : gmap string R :=
    <["m03" := m03]> (<["m30" := m30]> (<["m12" := m12]> (<["m21" := m21]>
    (<["m02" := m02]> (<["m20" := m20]> (<["m11" := m11]> (<["m01" := m01]>
    (<["m10" := m10]> (<["m00" := m00]> ∅))))))))) in
  if Rltb 0 m00 then
    let cx := m10 / m00 in
    let cy := m01 / m00 in
    let mu20 := m20 - cx * m10 in
    let mu02 := m02 - cy * m01 in
    let mu11 := m11 - cx * m01 in
    let mu30 := m30 - 3 * cx * m20 + 2 * cx * cx * m10 in
    let mu21 := m21 - 2 * cx * m11 - cy * m20 + 2 * cx * cx * m01 in
    let mu12 := m12 - 2 * cy * m11 - cx * m02 + 2 * cy * cy * m10 in
    let mu03 := m03 - 3 * cy * m02 + 2 * cy * cy * m01 in
    <["mu03" := mu03]> (<["mu12" := mu12]> (<["mu21" := mu21]> (<["mu30" := mu30]>
    (<["mu11" := mu11]> (<["mu02" := mu02]> (<["mu20" := mu20]>
    (<["cy" := cy]> (<["cx" := cx]> moments))))))))
  else moments)%R.

(** The seven combinations, from the normalized moments. *)
Definition huCombinations (eta20 eta02 eta11 eta30 eta21 eta12 eta03 : R) : list R :=
  [ eta20 + eta02;
    (eta20 - eta02) ^ 2 + 4 * eta11 ^ 2;
    (eta30 - 3 * eta12) ^ 2 + (3 * eta21 - eta03) ^ 2;
    (eta30 + eta12) ^ 2 + (eta21 + eta03) ^ 2;
    (eta30 - 3 * eta12) * (eta30 + eta12)
      * ((eta30 + eta12) ^ 2 - 3 * (eta21 + eta03) ^ 2)
    + (3 * eta21 - eta03) * (eta21 + eta03)
      * (3 * (eta30 + eta12) ^ 2 - (eta21 + eta03) ^ 2);
    (eta20 - eta02) * ((eta30 + eta12) ^ 2 - (eta21 + eta03) ^ 2)
    + 4 * eta11 * (eta30 + eta12) * (eta21 + eta03);
    (3 * eta21 - eta03) * (eta30 + eta12)
      * ((eta30 + eta12) ^ 2 - 3 * (eta21 + eta03) ^ 2)
    - (eta30 - 3 * eta12) * (eta21 + eta03)
      * (3 * (eta30 + eta12) ^ 2 - (eta21 + eta03) ^ 2) ]%R.

(** [math.Pow(e, 2)] is the square [e ^ 2]; [math.Pow(m00, 2.5)] and
    [math.Pow(m00, 3.5)] are real powers of [m00]. *)
Definition RegionComputeHuInvariants (moments : gmap string R) : list R :=
  let m00 := get moments "m00" in
  if Reqb m00 0 then replicate 7 0%R
  else
    let norm := Pow m00 2.5 in
    let eta20 := (get moments "mu20" / norm)%R in
    let eta02 := (get moments "mu02" / norm)%R in
    let eta11 := (get moments "mu11" / norm)%R in
    let eta30 := (get moments "mu30" / Pow m00 3.5)%R in
    let eta21 := (get moments "mu21" / Pow m00 3.5)%R in
    let eta12 := (get moments "mu12" / Pow m00 3.5)%R in
    let eta03 := (get moments "mu03" / Pow m00 3.5)%R in
    huCombinations eta20 eta02 eta11 eta30 eta21 eta12 eta03.

(** [hu[i]] on a slice known to be long enough. *)
Definition at_ (l : list R) (i : nat) : R := nth i l 0%R.

Definition RegionComputeCircularity (hu : list R) : R :=
  if (length hu <? 2)%nat then 0%R
  else
    let I1 := at_ hu 0 in
    let I2 := at_ hu 1 in
    if Rgtb I1 0 then (1 / (1 + sqrt I2 / I1))%R else 0%R.

Definition sumAbs (l : list R) : R :=
  fold_left (fun acc c => (acc + Rabs c)%R) l 0%R.

Definition RegionComputeLinearity (hu : list R) : R :=
  if (length hu <? 3)%nat then 0%R
  else
    let sum := sumAbs (drop 2 hu) in
    if Rltb sum 0.01 then 1%R else (1 / (1 + sum * 100))%R.

Definition rectangleHu : list R := [0.16; 0.0013; 0; 0; 0; 0; 0]%R.

Definition RegionComputeRectangularity (hu : list R) : R :=
  if (length hu <? 7)%nat then 0%R
  else
    let diff :=
      fold_left (fun acc i => (acc + Rabs (at_ hu i - at_ rectangleHu i))%R)
                (seq 0 7) 0%R in
    exp (- diff * 10).

(** The inner loop of the corner scan: no [j] in [i-2, i+2] other than [i],
    inside the slice, has a larger absolute curvature. *)
Definition isLocalMax (curvatures : list R) (i : Z) : bool :=
  forallb (fun j =>
    if bool_decide (j < 0 \/ j >= Z.of_nat (length curvatures) \/ j = i) then true
    else negb (Rgtb (Rabs (at_ curvatures (Z.to_nat j)))
                    (Rabs (at_ curvatures (Z.to_nat i)))))
    (seqZ (i - 2) 5).

(** The slice of edge points is not read by the source. *)
Definition RegionDetectCorners (curvatures : list R) (edges : list EdgePoint) : list Z :=
  filter (fun i =>
    Rgtb (Rabs (at_ curvatures (Z.to_nat i))) (PI / 6) && isLocalMax curvatures i = true)
    (seqZ 0 (Z.of_nat (length curvatures))).

(** [circles[0].Votes] guarded by [len(circles) > 0]. *)
Definition topVotes (acc : list HoughAccumulator) : option Z :=
  match acc with
  | [] => None
  | a :: _ => Some (Votes a)
  end.

(** The mean of the absolute curvatures; 0 on an empty slice. *)
Definition avgAbsCurvature (curvatures : list R) : R :=
  let total := sumAbs curvatures in
  if (0 <? length curvatures)%nat
  then (total / INR (length curvatures))%R else total.

(** Go's [/] on [int] truncates towards zero: [Z.quot]. *)
Definition RegionClassifyShape (fillType : ArcFillType) (drawsCount : Z)
    (hu curvatures : list R) (lines circles : list HoughAccumulator)
    : ArcType * ArcFillType :=
  if match topVotes circles with
     | Some v => bool_decide (v > drawsCount ÷ 3)
                 && Rgtb (RegionComputeCircularity hu) 0.7
     | None => false
     end
  then (ArcTypeCircle, fillType)
  else if match topVotes lines with
          | Some v => bool_decide (v > drawsCount ÷ 2)
                      && Rgtb (RegionComputeLinearity hu) 0.8
          | None => false
          end
  then (ArcTypeStrengthLine, fillType)
  else
    let corners := RegionDetectCorners curvatures [] in
    if (length corners =? 3)%nat then (ArcTypeTriangle, fillType)
    else if (length corners =? 4)%nat
            && Rgtb (RegionComputeRectangularity hu) 0.7
    then (ArcTypeRectangle, fillType)
    else
      let avgCurvature := avgAbsCurvature curvatures in
      if Rgtb avgCurvature 0.1 && Rltb avgCurvature 0.8
      then (ArcTypeCurveLine, fillType)
      else (ArcTypeStrengthLine, fillType).

End RegionHelper.

(** ** Package canvas: the methods of [Region] behind [Region.Arc]

    The struct [canvas.Region] has the fields and the methods [NewRegion],
    [IsDrew] and [Draw] of [region.Region] (the tests of the package build
    their inputs with them); the latter is used here. *)

Module Canvas.
Import Region RegionHelper.

(** [for x := uint16(1); x < r.SizeX-1; x++]: the bound is a [uint16]
    expression, so it wraps when the size is 0. *)
Definition interior (size : Z) : list Z := seqZ 1 (uint16 (size - 1) - 1).

(** The offset tables [dx], [dy] of [extractEdges], zipped. *)
Definition neighbourOffsets : list (Z * Z) :=
  [(-1, -1); (0, -1); (1, -1); (-1, 0); (1, 0); (-1, 1); (0, 1); (1, 1)].

(** [nx >= 0 && nx < int(r.SizeX) && ny >= 0 && ny < int(r.SizeY)] *)
Definition inBounds (r : Region) (nx ny : Z) : bool :=
  bool_decide (0 <= nx /\ nx < SizeX r /\ 0 <= ny /\ ny < SizeY r).

Definition isEdge (r : Region) (x y : Z) : bool :=
  existsb (fun d : Z * Z =>
    let nx := x + d.1 in
    let ny := y + d.2 in
    inBounds r nx ny && negb (IsDrew r (uint16 nx) (uint16 ny)))
    neighbourOffsets.

Definition sobelX : list (list R) := [[-1; 0; 1]; [-2; 0; 2]; [-1; 0; 1]]%R.
Definition sobelY : list (list R) := [[-1; -2; -1]; [0; 0; 0]; [1; 2; 1]]%R.

(** [t[a][b]] *)
Definition cell (t : list (list R)) (a b : Z) : R :=
  nth (Z.to_nat b) (nth (Z.to_nat a) t []) 0%R.

(** One of the sums [gx], [gy] of the Sobel scan; [sel i j] is the kernel
    entry read at offset [(i, j)]. *)
Definition sobelSum (inb drawn : Z -> Z -> bool) (x y : Z) (sel : Z -> Z -> R) : R :=
  fold_left (fun g (ij : Z * Z) =>
    let px := x + ij.1 in
    let py := y + ij.2 in
    if inb px py
    then (g + (if drawn px py then 1 else 0) * sel ij.1 ij.2)%R
    else g)
    (i ← offsets3; j ← offsets3; [(i, j)]) 0%R.

Definition computeGradientAngle (r : Region) (x y : Z) : R :=
  let drawn px py := IsDrew r (uint16 px) (uint16 py) in
  let gx := sobelSum (inBounds r) drawn x y (fun i j => cell sobelX (j + 1) (i + 1)) in
  let gy := sobelSum (inBounds r) drawn x y (fun i j => cell sobelY (j + 1) (i + 1)) in
  atan2 gy gx.

Definition extractEdges (r : Region) : list EdgePoint :=
  x ← interior (SizeX r);
  y ← interior (SizeY r);
  if IsDrew r x y && isEdge r x y
  then [mkEdgePoint x y (computeGradientAngle r x y)]
  else [].

Definition edgeDist (a b : EdgePoint) : R :=
  sqrt (IZR ((EX a - EX b) * (EX a - EX b) + (EY a - EY b) * (EY a - EY b))).

(** The inner scan of [sortEdgesForContour]: the first unvisited index at
    minimal distance from [current].  [None] stands for the initial
    [minDist = math.MaxFloat64], [minIdx = -1]. *)
Definition nearest (edges : list EdgePoint) (visited : gset nat)
    (current : EdgePoint) : option (R * nat) :=
  fold_left (fun best (ie : nat * EdgePoint) =>
    if bool_decide (ie.1 ∈ visited) then best
    else
      let d := edgeDist ie.2 current in
      match best with
      | None => Some (d, ie.1)
      | Some (md, _) => if Rltb d md then Some (d, ie.1) else best
      end)
    (imap pair edges) None.

(** The loop [for len(sorted) < len(edges)]; it appends one point per turn, so
    [length edges] turns are enough. *)
Fixpoint sortLoop (turns : nat) (edges : list EdgePoint) (visited : gset nat)
    (current : EdgePoint) (sorted : list EdgePoint) : list EdgePoint :=
  match turns with
  | O => sorted
  | S t =>
      if (length sorted <? length edges)%nat then
        match nearest edges visited current with
        | None => sorted
        | Some (_, idx) =>
            let c := nth idx edges current in
            sortLoop t edges ({[idx]} ∪ visited) c (sorted ++ [c])
        end
      else sorted
  end.

Definition sortEdgesForContour (edges : list EdgePoint) : list EdgePoint :=
  match edges with
  | [] => edges
  | e0 :: _ => sortLoop (length edges) edges {[0%nat]} e0 [e0]
  end.

Definition stepCode (dx dy : Z) : Z :=
  if bool_decide (dx = 1 /\ dy = 0) then 0
  else if bool_decide (dx = 1 /\ dy = -1) then 1
  else if bool_decide (dx = 0 /\ dy = -1) then 2
  else if bool_decide (dx = -1 /\ dy = -1) then 3
  else if bool_decide (dx = -1 /\ dy = 0) then 4
  else if bool_decide (dx = -1 /\ dy = 1) then 5
  else if bool_decide (dx = 0 /\ dy = 1) then 6
  else if bool_decide (dx = 1 /\ dy = 1) then 7
  else 0.

Fixpoint chainSteps (prev : EdgePoint) (rest : list EdgePoint) : list Z :=
  match rest with
  | [] => []
  | e :: rest' => stepCode (EX e - EX prev) (EY e - EY prev) :: chainSteps e rest'
  end.

Definition computeChainCode (edges : list EdgePoint) : list Z :=
  if (length edges <? 2)%nat then []
  else
    match sortEdgesForContour edges with
    | [] => []
    | e0 :: rest => chainSteps e0 rest
    end.

Definition wrapAngle (a : R) : R :=
  if Rgtb a PI then (a - 2 * PI)%R
  else if Rltb a (- PI) then (a + 2 * PI)%R
  else a.

Definition computeCurvatures (chainCode : list Z) : list R :=
  let n := Z.of_nat (length chainCode) in
  let code (i : Z) := nth (Z.to_nat i) chainCode 0 in
  map (fun i =>
    let prev := code (Z.rem (i - 1 + n) n) in
    let curr := code i in
    let next := code (Z.rem (i + 1) n) in
    let angle1 := wrapAngle (IZR (curr - prev) * PI / 4) in
    let angle2 := wrapAngle (IZR (next - curr) * PI / 4) in
    ((angle1 + angle2) / 2)%R)
    (seqZ 0 n).

(** The eight offsets of the nested [dx], [dy] loops that skip [(0, 0)]. *)
Definition ring8 : list (Z * Z) :=
  dx ← offsets3; dy ← offsets3;
  if bool_decide (dx = 0 /\ dy = 0) then [] else [(dx, dy)].

Definition hasEmpty (r : Region) (x y : Z) : bool :=
  existsb (fun d : Z * Z =>
    let nx := x + d.1 in
    let ny := y + d.2 in
    inBounds r nx ny && negb (IsDrew r (uint16 nx) (uint16 ny)))
    ring8.

Definition determineFillType (r : Region) : ArcFillType :=
  let cells :=
    x ← interior (SizeX r); y ← interior (SizeY r);
    if IsDrew r x y then [(x, y)] else [] in
  let totalCount := length cells in
  let edgeCount := length (filter (fun c : Z * Z => hasEmpty r c.1 c.2 = true) cells) in
  if (0 <? totalCount)%nat && Rgtb (INR edgeCount / INR totalCount) 0.3
  then ArcFillTypeStroke
  else ArcFillTypeFill.

(** The bodies of [computeMoments], [computeHuInvariants], [computeCircularity],
    [computeLinearity], [computeRectangularity] and [detectCorners] are,
    statement for statement, those of the functions of [regionHelper]. *)
Definition computeMoments (r : Region) : gmap string R := RegionComputeMoments r.
Definition computeHuInvariants (moments : gmap string R) : list R :=
  RegionComputeHuInvariants moments.
Definition computeCircularity (hu : list R) : R := RegionComputeCircularity hu.
Definition computeLinearity (hu : list R) : R := RegionComputeLinearity hu.
Definition computeRectangularity (hu : list R) : R := RegionComputeRectangularity hu.
Definition detectCorners (curvatures : list R) (edges : list EdgePoint) : list Z :=
  RegionDetectCorners curvatures edges.

(** [classifyShape] computes the fill type first and then runs the decision
    list of [RegionClassifyShape] with [len(r.Draws)] as the pixel count. *)
Definition classifyShape (r : Region) (hu curvatures : list R)
    (lines circles : list HoughAccumulator) : ArcType * ArcFillType :=
  let fillType := determineFillType r in
  RegionClassifyShape fillType (Z.of_nat (length (Draws r))) hu curvatures lines circles.

Definition computeEllipseRatio (moments : gmap string R) : R :=
  (let mu20 := get moments "mu20" in
   let mu02 := get moments "mu02" in
   let mu11 := get moments "mu11" in
   if Reqb (mu20 + mu02) 0 then 1
   else
     let root := sqrt ((mu20 - mu02) ^ 2 + 4 * mu11 * mu11) in
     let lambda1 := (mu20 + mu02 + root) / 2 in
     let lambda2 := (mu20 + mu02 - root) / 2 in
     if Rgtb lambda1 0 && Rgtb lambda2 0
     then Rmin lambda1 lambda2 / Rmax lambda1 lambda2
     else 1)%R.

(** One comparison of the snapping loop: [if diff < minDiff { minDiff = diff;
    bestAngle = target }], with [None] for the initial [math.MaxFloat64]. *)
Definition closer (diff target : R) (st : option R * R) : option R * R :=
  match st.1 with
  | None => (Some diff, target)
  | Some minDiff => if Rltb diff minDiff then (Some diff, target) else st
  end.

Definition computeLineDegree (lines : list HoughAccumulator) : R :=
  match lines with
  | [] => 0%R
  | top :: _ =>
      (let degree := Theta top * 180 / PI in
       let d1 := degree - 90 in
       let d2 := if Rltb d1 0 then d1 + 180 else d1 in
       let lineDegree := if Rleb 180 d2 then d2 - 180 else d2 in
       let st :=
         fold_left (fun st target =>
           closer (Rabs (lineDegree - (target - 180))) target
             (closer (Rabs (lineDegree - (target + 180))) target
               (closer (Rabs (lineDegree - target)) target st)))
           [0; 45; 90; 135] (None, 0) in
       let bestAngle := st.2 in
       if Reqb bestAngle 0 && Rltb (Rabs (lineDegree - 180)) (Rabs lineDegree)
       then 180 else bestAngle)%R
  end.

Definition computeCurveStrength (curvatures : list R) (edges : list EdgePoint) : R :=
  if (length curvatures =? 0)%nat then 0%R
  else
    (let totalCurvature := sumAbs curvatures in
     let positiveCurvature :=
       fold_left (fun acc c => if Rgtb c 0 then acc + c else acc) curvatures 0 in
     let avgCurvature := totalCurvature / INR (length curvatures) in
     let direction :=
       match edges with
       | start :: _ :: _ =>
           let end_ := List.last edges start in
           let dx := IZR (EX end_ - EX start) in
           let dy := IZR (EY end_ - EY start) in
           if Rgtb dx 0 || Rltb dy 0 then 1 else -1
       | _ => 0
       end in
     let s0 := tanh (avgCurvature * 2) in
     let s1 :=
       if Rgtb totalCurvature 0
       then s0 + (positiveCurvature / totalCurvature - 0.5) * 0.3
       else s0 in
     let s2 := s1 * direction in
     Rmax (-1) (Rmin 1 s2))%R.

(** The two Hough transforms vote in a Go map keyed by formatted strings and
    rank the cells by votes in the map's iteration order; they are taken as
    given functions of the region and its edge points.  What [Arc] prints
    ([fmt.Printf], [printDetectedAngles]) is not represented. *)
Section WithHough.
Variable detectLinesHough : Region -> list EdgePoint -> list HoughAccumulator.
Variable detectCirclesHough : Region -> list EdgePoint -> list HoughAccumulator.

Definition Arc (r : Region) : option Region.Arc :=
  if (length (Draws r) <? 3)%nat then None
  else
    let edges := extractEdges r in
    if (length edges <? 3)%nat then None
    else
      let chainCode := computeChainCode edges in
      let curvatures := computeCurvatures chainCode in
      let moments := computeMoments r in
      let huInvariants := computeHuInvariants moments in
      let lines := detectLinesHough r edges in
      let circles := detectCirclesHough r edges in
      let '(arcType, fillType) := classifyShape r huInvariants curvatures lines circles in
      Some
        match arcType with
        | ArcTypeCircle =>
            mkArc arcType fillType (computeEllipseRatio moments) 0 0
        | ArcTypeStrengthLine =>
            mkArc arcType fillType 0 (computeLineDegree lines) 0
        | ArcTypeCurveLine =>
            mkArc arcType fillType 0 0 (computeCurveStrength curvatures edges)
        | ArcTypeTriangle | ArcTypeRectangle =>
            mkArc arcType fillType 0 0 0
        end.

End WithHough.

End Canvas.

(** ** Package character *)

Module Character.

Record CharacterConfig := mkConfig {
  AnchorDetectionThreshold : R;
  MinAnchorDistance : R;
  CurvatureThreshold : R;
  MedialAxisEpsilon : R;
  MedialAxisSimplification : R;
  SkeletonPruningThreshold : R;
  MinRegionSize : Z;
  RegionMergeThreshold : R;
  ConnectivityType : Z;
  EnableStrokeAnalysis : bool;
  EnableTopologyAnalysis : bool;
  EnableJunctionDetection : bool;
  CircularityThreshold : R;
  LinearityThreshold : R;
  RectangularityThreshold : R;
  EnableParallelProcessing : bool;
  MaxRegions : Z;
  ComputationTimeout : Z
}.

Definition DefaultCharacterConfig : CharacterConfig :=
  {| AnchorDetectionThreshold := 0.7;
     MinAnchorDistance := 3;
     CurvatureThreshold := 0.5;
     MedialAxisEpsilon := 0.1;
     MedialAxisSimplification := 0.2;
     SkeletonPruningThreshold := 5;
     MinRegionSize := 4;
     RegionMergeThreshold := 0.8;
     ConnectivityType := 1;
     EnableStrokeAnalysis := true;
     EnableTopologyAnalysis := true;
     EnableJunctionDetection := true;
     CircularityThreshold := 0.85;
     LinearityThreshold := 0.9;
     RectangularityThreshold := 0.8;
     EnableParallelProcessing := true;
     MaxRegions := 100;
     ComputationTimeout := 5000 |}.


Record AnchorPoint := mkAnchor {
  Point_ : Point;
  Type_ : string;
  Strength : R;
  Curvature : R;
  Angle : R
}.

(** The field [Topology] (a bag of untyped values written by the topology
    summary only) is not represented. *)
Record Character := mkCharacter {
  SizeX : Z;
  SizeY : Z;
  Bitmap : gmap Z (gmap Z bool);
  Draws : list Point;
  AnchorPoints : list AnchorPoint;
  Regions : list Region.Region;
  MedialAxis : list Point;
  SkeletonBranches : gmap string (list Point);
  Moments : gmap string R;
  BoundingBox : gmap string Z;
  Config : CharacterConfig
}.

Definition NewCharacter (sizeX sizeY : Z) (config : option CharacterConfig) : Character :=
  {| SizeX := sizeX; SizeY := sizeY; Bitmap := ∅; Draws := [];
     AnchorPoints := []; Regions := []; MedialAxis := [];
     SkeletonBranches := ∅; Moments := ∅; BoundingBox := ∅;
     Config := default DefaultCharacterConfig config |}.

Definition IsDrew (c : Character) (x y : Z) : bool :=
  match Bitmap c !! x with
  | None => false
  | Some row =>
      match row !! y with
      | None => false
      | Some b => b
      end
  end.

Definition setPixels (c : Character) (bitmap : gmap Z (gmap Z bool))
    (draws : list Point) : Character :=
  {| SizeX := SizeX c; SizeY := SizeY c; Bitmap := bitmap; Draws := draws;
     AnchorPoints := AnchorPoints c; Regions := Regions c;
     MedialAxis := MedialAxis c; SkeletonBranches := SkeletonBranches c;
     Moments := Moments c; BoundingBox := BoundingBox c; Config := Config c |}.

Definition setBoundingBox (c : Character) (bb : gmap string Z) : Character :=
  {| SizeX := SizeX c; SizeY := SizeY c; Bitmap := Bitmap c; Draws := Draws c;
     AnchorPoints := AnchorPoints c; Regions := Regions c;
     MedialAxis := MedialAxis c; SkeletonBranches := SkeletonBranches c;
     Moments := Moments c; BoundingBox := bb; Config := Config c |}.

Definition setAnchorPoints (c : Character) (anchors : list AnchorPoint) : Character :=
  {| SizeX := SizeX c; SizeY := SizeY c; Bitmap := Bitmap c; Draws := Draws c;
     AnchorPoints := anchors; Regions := Regions c;
     MedialAxis := MedialAxis c; SkeletonBranches := SkeletonBranches c;
     Moments := Moments c; BoundingBox := BoundingBox c; Config := Config c |}.

Definition setMedialAxis (c : Character) (axis : list Point)
    (branches : gmap string (list Point)) : Character :=
  {| SizeX := SizeX c; SizeY := SizeY c; Bitmap := Bitmap c; Draws := Draws c;
     AnchorPoints := AnchorPoints c; Regions := Regions c;
     MedialAxis := axis; SkeletonBranches := branches;
     Moments := Moments c; BoundingBox := BoundingBox c; Config := Config c |}.

(** [c.BoundingBox[k]]: a missing key reads as 0. *)
Definition bb (c : Character) (k : string) : Z := default 0 (BoundingBox c !! k).

Definition setBox (m : gmap string Z) (minX maxX minY maxY : Z) : gmap string Z :=
  <["maxY" := maxY]> (<["minY" := minY]> (<["maxX" := maxX]> (<["minX" := minX]> m))).

Definition updateBoundingBox (c : Character) (x y : Z) : Character :=
  if (length (Draws c) =? 1)%nat
  then setBoundingBox c (setBox (BoundingBox c) x x y y)
  else
    let c1 := if bool_decide (x < bb c "minX")
              then setBoundingBox c (<["minX" := x]> (BoundingBox c)) else c in
    let c2 := if bool_decide (x > bb c1 "maxX")
              then setBoundingBox c1 (<["maxX" := x]> (BoundingBox c1)) else c1 in
    let c3 := if bool_decide (y < bb c2 "minY")
              then setBoundingBox c2 (<["minY" := y]> (BoundingBox c2)) else c2 in
    if bool_decide (y > bb c3 "maxY")
    then setBoundingBox c3 (<["maxY" := y]> (BoundingBox c3)) else c3.

Definition Draw (c : Character) (x y : Z) : Character :=
  let row := match Bitmap c !! x with Some row => row | None => ∅ end in
  let c' := setPixels c (<[x := <[y := true]> row]> (Bitmap c))
                      (Draws c ++ [mkPoint x y]) in
  updateBoundingBox c' x y.

(** The scan of [recalculateBoundingBox] over the log, from the first entry's
    coordinates: the state is [(minX, maxX, minY, maxY)]. *)
Definition boxScan (first : Point) (draws : list Point) : Z * Z * Z * Z :=
  fold_left (fun '(minX, maxX, minY, maxY) point =>
    let minX := if bool_decide (X point < minX) then X point else minX in
    let maxX := if bool_decide (X point > maxX) then X point else maxX in
    let minY := if bool_decide (Y point < minY) then Y point else minY in
    let maxY := if bool_decide (Y point > maxY) then Y point else maxY in
    (minX, maxX, minY, maxY))
    draws (X first, X first, Y first, Y first).

Definition recalculateBoundingBox (c : Character) : Character :=
  match Draws c with
  | [] => setBoundingBox c ∅
  | first :: _ =>
      let '(minX, maxX, minY, maxY) := boxScan first (Draws c) in
      setBoundingBox c (setBox (BoundingBox c) minX maxX minY maxY)
  end.

(** The loop of [Erase] over the log: the first entry equal to [(x, y)] is cut
    out and the scan stops. *)
Fixpoint removeFirst (x y : Z) (draws : list Point) : list Point :=
  match draws with
  | [] => []
  | point :: rest =>
      if bool_decide (X point = x /\ Y point = y) then rest
      else point :: removeFirst x y rest
  end.

Definition Erase (c : Character) (x y : Z) : Character :=
  match Bitmap c !! x with
  | None => c
  | Some row =>
      recalculateBoundingBox
        (setPixels c (<[x := <[y := false]> row]> (Bitmap c))
                   (removeFirst x y (Draws c)))
  end.

Definition GetSizeX (c : Character) : Z := SizeX c.
Definition GetSizeY (c : Character) : Z := SizeY c.
Definition GetPixelCount (c : Character) : Z := Z.of_nat (length (Draws c)).
Definition IsEmpty (c : Character) : bool := (length (Draws c) =? 0)%nat.

(** [len(c.BoundingBox) == 0] guards the two extents; the arithmetic is the
    one of [uint16]. *)
Definition GetBoundingBoxWidth (c : Character) : Z :=
  if bool_decide (size (BoundingBox c) = 0%nat) then 0
  else uint16 (bb c "maxX" - bb c "minX" + 1).

Definition GetBoundingBoxHeight (c : Character) : Z :=
  if bool_decide (size (BoundingBox c) = 0%nat) then 0
  else uint16 (bb c "maxY" - bb c "minY" + 1).

Definition AddAnchorPoint (c : Character) (x y : Z) (anchorType : string)
    (strength curvature angle : R) : Character :=
  setAnchorPoints c
    (AnchorPoints c ++ [mkAnchor (mkPoint x y) anchorType strength curvature angle]).

Definition GetAnchorPointsByType (c : Character) (anchorType : string) : list AnchorPoint :=
  filter (fun anchor => Type_ anchor = anchorType) (AnchorPoints c).

Definition ClearAnalysisResults (c : Character) : Character :=
  {| SizeX := SizeX c; SizeY := SizeY c; Bitmap := Bitmap c; Draws := Draws c;
     AnchorPoints := []; Regions := [];
     MedialAxis := []; SkeletonBranches := ∅;
     Moments := ∅; BoundingBox := BoundingBox c; Config := Config c |}.

(** The characters a client builds with the constructor and the two pixel
    mutators. *)
Inductive Reachable : Character -> Prop :=
| Reachable_new sizeX sizeY config :
    Reachable (NewCharacter sizeX sizeY config)
| Reachable_draw c x y : Reachable c -> Reachable (Draw c x y)
| Reachable_erase c x y : Reachable c -> Reachable (Erase c x y).

(** The bounding box the remaining log entries determine: no box for an empty
    log, otherwise the least and greatest coordinate of the entries. *)
Definition minimum (first : Z) (l : list Z) : Z := foldr Z.min first l.
Definition maximum (first : Z) (l : list Z) : Z := foldr Z.max first l.

Definition boxOfLog (draws : list Point) : gmap string Z :=
  match draws with
  | [] => ∅
  | first :: _ =>
      setBox ∅ (minimum (X first) (X <$> draws)) (maximum (X first) (X <$> draws))
               (minimum (Y first) (Y <$> draws)) (maximum (Y first) (Y <$> draws))
  end.

End Character.

(** ** Package characterHelper: anchor detection *)

Module CharacterHelper.
Import Character.

(** The nine offsets of the nested [dx], [dy] loops, [dx] outermost. *)
Definition window9 : list (Z * Z) := dx ← offsets3; dy ← offsets3; [(dx, dy)].

(** The same loops with the [if dx == 0 && dy == 0 { continue }] guard. *)
Definition ring8 : list (Z * Z) :=
  dx ← offsets3; dy ← offsets3;
  if bool_decide (dx = 0 /\ dy = 0) then [] else [(dx, dy)].

Definition isContour (char : Character) (x y : Z) : bool :=
  existsb (fun d : Z * Z =>
    let nx := offset16 x d.1 in
    let ny := offset16 y d.2 in
    bool_decide (nx >= SizeX char) || bool_decide (ny >= SizeY char)
    || negb (IsDrew char nx ny))
    ring8.

Definition extractContourPoints (char : Character) : list Point :=
  omap (fun point =>
    if isContour char (X point) (Y point)
    then Some (mkPoint (X point) (Y point)) else None)
    (Draws char).

(** [contour[i]] *)
Definition pointAt (contour : list Point) (i : Z) : Point :=
  nth (Z.to_nat i) contour (mkPoint 0 0).

(** [curvatures[i]] *)
Definition valueAt (l : list R) (i : Z) : R := nth (Z.to_nat i) l 0%R.

(** [int(math.Max(3, 1.0/epsilon))]: the conversion truncates a value that is
    at least 3, so it is the integer part. *)
Definition windowOf (epsilon : R) (n : Z) : Z :=
  let windowSize := Int_part (Rmax 3 (1 / epsilon)) in
  if bool_decide (windowSize > n ÷ 3) then n ÷ 3 else windowSize.

Definition curvatureAt (contour : list Point) (epsilon : R) (i : Z) : R :=
  let n := Z.of_nat (length contour) in
  let windowSize := windowOf epsilon n in
  let prev := Z.rem (i - windowSize + n) n in
  let next := Z.rem (i + windowSize) n in
  let p1 := pointAt contour prev in
  let p2 := pointAt contour i in
  let p3 := pointAt contour next in
  (let v1x := IZR (diff16 (X p2) (X p1)) in
   let v1y := IZR (diff16 (Y p2) (Y p1)) in
   let v2x := IZR (diff16 (X p3) (X p2)) in
   let v2y := IZR (diff16 (Y p3) (Y p2)) in
   let len1 := sqrt (v1x * v1x + v1y * v1y) in
   let len2 := sqrt (v2x * v2x + v2y * v2y) in
   if Rltb len1 epsilon || Rltb len2 epsilon then 0
   else
     let v1x := v1x / len1 in
     let v1y := v1y / len1 in
     let v2x := v2x / len2 in
     let v2y := v2y / len2 in
     let dotProduct := v1x * v2x + v1y * v2y in
     let crossProduct := v1x * v2y - v1y * v2x in
     let dotProduct := if Rgtb dotProduct 1 then 1 else dotProduct in
     let dotProduct := if Rltb dotProduct (-1) then -1 else dotProduct in
     let angle := acos dotProduct in
     let angle := if Rltb crossProduct 0 then - angle else angle in
     Rabs angle)%R.

Definition computeCurvatures (contour : list Point) (epsilon : R) : list R :=
  map (curvatureAt contour epsilon) (seqZ 0 (Z.of_nat (length contour))).

Definition sobelX : list (list R) := [[-1; 0; 1]; [-2; 0; 2]; [-1; 0; 1]]%R.
Definition sobelY : list (list R) := [[-1; -2; -1]; [0; 0; 0]; [1; 2; 1]]%R.

(** The kernels are read at [[dx+1][dy+1]] here. *)
Definition computeDirectionAngle (char : Character) (point : Point) : R :=
  let x := X point in
  let y := Y point in
  let value (d : Z * Z) : R :=
    let nx := offset16 x d.1 in
    let ny := offset16 y d.2 in
    if bool_decide (nx < SizeX char) && bool_decide (ny < SizeY char)
       && IsDrew char nx ny
    then 1%R else 0%R in
  let gx := fold_left (fun g d =>
    (g + value d * Canvas.cell sobelX (d.1 + 1) (d.2 + 1))%R) window9 0%R in
  let gy := fold_left (fun g d =>
    (g + value d * Canvas.cell sobelY (d.1 + 1) (d.2 + 1))%R) window9 0%R in
  atan2 gy gx.

(** The local-maximum test of [detectCurvatureAnchors]: offsets [-3..3]
    around [i], cyclically. *)
Definition isCurvatureMax (curvatures : list R) (i : Z) : bool :=
  let n := Z.of_nat (length curvatures) in
  let curvature := valueAt curvatures i in
  forallb (fun j =>
    if bool_decide (j = 0) then true
    else negb (Rgeb (valueAt curvatures (Z.rem (i + j + n) n)) curvature))
    (seqZ (-3) 7).

Definition detectCurvatureAnchors (char : Character) (contour : list Point)
    (curvatures : list R) : Character :=
  let threshold := CurvatureThreshold (Config char) in
  fold_left (fun (c : Character) (ip : nat * Point) =>
    let i := Z.of_nat ip.1 in
    let point := ip.2 in
    let curvature := valueAt curvatures i in
    if Rgtb curvature threshold && isCurvatureMax curvatures i then
      let anchorType :=
        if Rgtb curvature (threshold * 2) then "sharp_corner" else "corner" in
      let strength := Rmin (curvature / PI) 1 in
      let angle := computeDirectionAngle c point in
      AddAnchorPoint c (X point) (Y point) anchorType strength curvature angle
    else c)
    (imap pair contour) char.

(** *** Junction detection *)

(** [string(rune(v))] of a [uint16]: the UTF-8 text of the code point [v],
    except that Go turns the surrogate halves [0xD800..0xDFFF], which are no
    valid code points, into the replacement character U+FFFD.  So the text is
    determined by, and determines, this number. *)
Definition runeText (v : Z) : Z :=
  if bool_decide (55296 <= v <= 57343) then 65533 else v.

(** The key [string(rune(x)) + "," + string(rune(y))] of the [visited] map:
    a string of the three runes [x], [','], [y], that is the pair below. *)
Definition pointKey (x y : Z) : Z * Z := (runeText x, runeText y).

(** The test that stops the fill at the border of the 3x3 window:
    [math.Abs(float64(int16(point.X)-int16(centerX))) > 1 || ...]. *)
Definition outsideWindow (point : Point) (centerX centerY : Z) : bool :=
  bool_decide (Z.abs (diff16 (X point) centerX) > 1)
  || bool_decide (Z.abs (diff16 (Y point) centerY) > 1).

(** The neighbours a visited window pixel appends to the stack, in the order
    of the loops. *)
Definition pushed (char : Character) (point : Point) (visited : gset (Z * Z)) : list Point :=
  omap (fun d : Z * Z =>
    let nx := offset16 (X point) d.1 in
    let ny := offset16 (Y point) d.2 in
    if bool_decide (nx < SizeX char) && bool_decide (ny < SizeY char)
       && IsDrew char nx ny && negb (bool_decide (pointKey nx ny ∈ visited))
    then Some (mkPoint nx ny) else None)
    ring8.

(** The loop [for len(stack) > 0] of [floodFillNeighborhood].  The Go stack is
    a slice used from its end; here the head of the list is the top, so a
    batch of appended points lands reversed in front.  The result is the
    [visited] map when the stack has run empty, [None] when [turns] turns were
    not enough. *)
Fixpoint floodLoop (turns : nat) (char : Character) (centerX centerY : Z)
    (stack : list Point) (visited : gset (Z * Z)) : option (gset (Z * Z)) :=
  match turns with
  | O => None
  | S t =>
      match stack with
      | [] => Some visited
      | point :: stack =>
          let key := pointKey (X point) (Y point) in
          if bool_decide (key ∈ visited)
          then floodLoop t char centerX centerY stack visited
          else
            let visited := {[key]} ∪ visited in
            if outsideWindow point centerX centerY
            then floodLoop t char centerX centerY stack visited
            else floodLoop t char centerX centerY
                   (rev (pushed char point visited) ++ stack) visited
      end
  end.

(** A number of turns no fill exceeds ([floodLoop_total] below). *)
Definition floodTurns : nat := 100.

Definition floodFillNeighborhood (char : Character) (startX startY centerX centerY : Z)
    (visited : gset (Z * Z)) : gset (Z * Z) :=
  default visited
    (floodLoop floodTurns char centerX centerY [mkPoint startX startY] visited).

(** The scan of the 3x3 window in [analyzeJunctionPattern]: the state is
    [(components, visited)]. *)
Definition junctionScan (char : Character) (x y : Z) : Z * gset (Z * Z) :=
  fold_left (fun (st : Z * gset (Z * Z)) (d : Z * Z) =>
    let nx := offset16 x d.1 in
    let ny := offset16 y d.2 in
    if bool_decide (pointKey nx ny ∈ st.2)
       || bool_decide (nx >= SizeX char) || bool_decide (ny >= SizeY char)
       || negb (IsDrew char nx ny)
    then st
    else (st.1 + 1, floodFillNeighborhood char nx ny x y st.2))
    window9 (0, ∅).

Definition junctionComponents (char : Character) (x y : Z) : Z :=
  (junctionScan char x y).1.

Definition analyzeJunctionPattern (char : Character) (x y : Z) : R :=
  let components := junctionComponents char x y in
  if bool_decide (components >= 3) then (IZR (components - 2) / 3)%R else 0%R.

Definition detectJunctionAnchors (char : Character) : Character :=
  fold_left (fun (c : Character) (point : Point) =>
    let x := X point in
    let y := Y point in
    let junctionStrength := analyzeJunctionPattern c x y in
    if Rgtb junctionStrength (AnchorDetectionThreshold (Config c)) then
      let angle := computeDirectionAngle c point in
      AddAnchorPoint c x y "junction" junctionStrength 0 angle
    else c)
    (Draws char) char.

(** *** Extremum anchors and the filter *)

Definition addIf (cond : bool) (anchorType : string) (point : Point)
    (c : Character) : Character :=
  if cond
  then AddAnchorPoint c (X point) (Y point) anchorType 0.8 0
         (computeDirectionAngle c point)
  else c.

Definition detectExtremumAnchors (char : Character) : Character :=
  if bool_decide (size (BoundingBox char) = 0%nat) then char
  else
    let minX := bb char "minX" in
    let maxX := bb char "maxX" in
    let minY := bb char "minY" in
    let maxY := bb char "maxY" in
    fold_left (fun (c : Character) (point : Point) =>
      let x := X point in
      let y := Y point in
      addIf (bool_decide (y = maxY)) "extremum_bottom" point
        (addIf (bool_decide (y = minY)) "extremum_top" point
          (addIf (bool_decide (x = maxX)) "extremum_right" point
            (addIf (bool_decide (x = minX)) "extremum_left" point c))))
      (Draws char) char.

(** [sort.Slice] with [less(i, j) = Strength[i] > Strength[j]].  The sort is
    not stable in general; on a slice of at most 12 elements Go runs the
    insertion sort embedded here, in which an element moves left past every
    neighbour it is less than.  [prefix] is the sorted part in reverse. *)
Fixpoint moveLeft (anchor : AnchorPoint) (prefix : list AnchorPoint) : list AnchorPoint :=
  match prefix with
  | [] => [anchor]
  | before :: rest =>
      if Rgtb (Strength anchor) (Strength before)
      then before :: moveLeft anchor rest
      else anchor :: prefix
  end.

Definition sortByStrength (anchors : list AnchorPoint) : list AnchorPoint :=
  rev (fold_left (fun prefix anchor => moveLeft anchor prefix) anchors []).

(** The distance computed between two anchors: the coordinate differences
    wrap as [int16]. *)
Definition anchorDist (a b : AnchorPoint) : R :=
  let dx := IZR (diff16 (X (Point_ a)) (X (Point_ b))) in
  let dy := IZR (diff16 (Y (Point_ a)) (Y (Point_ b))) in
  sqrt (dx * dx + dy * dy).

(** The greedy loop of [filterAnchors] over the sorted anchors. *)
Definition keepSeparated (minDist : R) (anchors : list AnchorPoint) : list AnchorPoint :=
  fold_left (fun filtered anchor =>
    if existsb (fun existing => Rltb (anchorDist anchor existing) minDist) filtered
    then filtered
    else filtered ++ [anchor])
    anchors [].

Definition filterAnchors (char : Character) : Character :=
  if (length (AnchorPoints char) =? 0)%nat then char
  else
    let sorted := sortByStrength (AnchorPoints char) in
    setAnchorPoints char (keepSeparated (MinAnchorDistance (Config char)) sorted).

(** [CharacterDetectAnchors] always returns the [nil] error; the embedding
    returns the character it leaves behind. *)
Definition CharacterDetectAnchors (char : Character) : Character :=
  if IsEmpty char then char
  else
    let char := ClearAnalysisResults char in
    let contourPoints := extractContourPoints char in
    if (length contourPoints <? 3)%nat then char
    else
      let curvatures := computeCurvatures contourPoints (MedialAxisEpsilon (Config char)) in
      let char := detectCurvatureAnchors char contourPoints curvatures in
      let char := if EnableJunctionDetection (Config char)
                  then detectJunctionAnchors char else char in
      let char := detectExtremumAnchors char in
      filterAnchors char.


End CharacterHelper.

(** ** Package characterCalculate: breakdown of a character into regions *)

Module CharacterCalculate.
Import Character.

Record SegmentationLine := mkLine {
  StartPoint : Point;
  EndPoint : Point;
  Type_ : string;
  Strength : R
}.

Definition getPointSideOfLine (point : Point) (line : SegmentationLine) : R :=
  (let x1 := IZR (X (StartPoint line)) in
   let y1 := IZR (Y (StartPoint line)) in
   let x2 := IZR (X (EndPoint line)) in
   let y2 := IZR (Y (EndPoint line)) in
   let x := IZR (X point) in
   let y := IZR (Y point) in
   (x2 - x1) * (y - y1) - (y2 - y1) * (x - x1))%R.

(** [for _, point := range points { reg.Draw(point.X, point.Y) }] *)
Definition drawAll (reg : Region.Region) (points : list Point) : Region.Region :=
  fold_left (fun r point => Region.Draw r (X point) (Y point)) points reg.

Definition createRegionFromCharacter (char : Character) : Region.Region :=
  drawAll (Region.NewRegion (SizeX char) (SizeY char)) (Draws char).

(** The two sides filled by the scan of [splitRegionByLine]. *)
Definition splitSides (reg : Region.Region) (line : SegmentationLine)
    : Region.Region * Region.Region :=
  fold_left (fun (sides : Region.Region * Region.Region) point =>
    let side := getPointSideOfLine point line in
    if Rgeb side 0
    then (Region.Draw sides.1 (X point) (Y point), sides.2)
    else (sides.1, Region.Draw sides.2 (X point) (Y point)))
    (Region.Draws reg)
    (Region.NewRegion (Region.GetSizeX reg) (Region.GetSizeY reg),
     Region.NewRegion (Region.GetSizeX reg) (Region.GetSizeY reg)).

Definition splitRegionByLine (reg : Region.Region) (line : SegmentationLine)
    : list Region.Region :=
  let '(region1, region2) := splitSides reg line in
  let result :=
    (if (0 <? length (Region.Draws region1))%nat then [region1] else [])
    ++ (if (0 <? length (Region.Draws region2))%nat then [region2] else []) in
  if (length result =? 0)%nat then [reg] else result.

Definition applySemgentationLine (char : Character) (regions : list Region.Region)
    (line : SegmentationLine) : list Region.Region :=
  reg ← regions; splitRegionByLine reg line.

Definition segmentCharacter (char : Character) (segmentationLines : list SegmentationLine)
    : list Region.Region :=
  fold_left (applySemgentationLine char) segmentationLines
            [createRegionFromCharacter char].

Definition regionsAreAdjacent (reg1 reg2 : Region.Region) : bool :=
  existsb (fun point1 =>
    existsb (fun d : Z * Z =>
      Region.IsDrew reg2 (offset16 (X point1) d.1) (offset16 (Y point1) d.2))
      CharacterHelper.ring8)
    (Region.Draws reg1).

Definition mergeRegions (target source : Region.Region) : Region.Region :=
  drawAll target (Region.Draws source).

(** The inner loop of [refineRegions]: [reg] is drawn into the first accepted
    region it touches; [None] when it touches none. *)
Fixpoint mergeIntoFirst (reg : Region.Region) (refined : list Region.Region)
    : option (list Region.Region) :=
  match refined with
  | [] => None
  | other :: rest =>
      if regionsAreAdjacent reg other
      then Some (mergeRegions other reg :: rest)
      else cons other <$> mergeIntoFirst reg rest
  end.

(** [uint16(len(reg.Draws)) >= minSize]: the length is truncated to 16 bits. *)
Definition refineRegions (char : Character) (regions : list Region.Region)
    : list Region.Region :=
  let minSize := MinRegionSize (Config char) in
  fold_left (fun refined reg =>
    if bool_decide (uint16 (Z.of_nat (length (Region.Draws reg))) >= minSize)
    then refined ++ [reg]
    else
      match mergeIntoFirst reg refined with
      | Some merged => merged
      | None => refined ++ [reg]
      end)
    regions [].

Definition analyzeRegions (regions : list Region.Region) : list Region.Region := regions.

(** [computeDistance]: the coordinate differences wrap as [int16]. *)
Definition computeDistance (p1 p2 : Point) : R :=
  let dx := IZR (diff16 (X p1) (X p2)) in
  let dy := IZR (diff16 (Y p1) (Y p2)) in
  sqrt (dx * dx + dy * dy).

Definition linesOverlap (line1 line2 : SegmentationLine) (threshold : R) : bool :=
  let dist1 := (computeDistance (StartPoint line1) (StartPoint line2)
                + computeDistance (EndPoint line1) (EndPoint line2))%R in
  let dist2 := (computeDistance (StartPoint line1) (EndPoint line2)
                + computeDistance (EndPoint line1) (StartPoint line2))%R in
  Rltb (Rmin dist1 dist2) threshold.

(** [sort.Slice] with [less(i, j) = Strength[i] > Strength[j]], as the
    insertion sort Go runs on short slices (see [sortByStrength]). *)
Fixpoint moveLineLeft (line : SegmentationLine) (prefix : list SegmentationLine)
    : list SegmentationLine :=
  match prefix with
  | [] => [line]
  | before :: rest =>
      if Rgtb (Strength line) (Strength before)
      then before :: moveLineLeft line rest
      else line :: prefix
  end.

Definition sortLinesByStrength (lines : list SegmentationLine) : list SegmentationLine :=
  rev (fold_left (fun prefix line => moveLineLeft line prefix) lines []).

(** The loop of [filterSegmentationLines] over the sorted lines; the test
    [len(filtered) >= MaxRegions-1] comes at the end of every turn, after the
    line of the turn has been looked at. *)
Fixpoint filterLoop (limit : Z) (lines filtered : list SegmentationLine)
    : list SegmentationLine :=
  match lines with
  | [] => filtered
  | line :: rest =>
      let filtered :=
        if existsb (fun existing => linesOverlap line existing 3) filtered
        then filtered else filtered ++ [line] in
      if bool_decide (Z.of_nat (length filtered) >= limit) then filtered
      else filterLoop limit rest filtered
  end.

Definition filterSegmentationLines (char : Character) (lines : list SegmentationLine)
    : list SegmentationLine :=
  filterLoop (MaxRegions (Config char) - 1) (sortLinesByStrength lines) [].




(** The medial-axis computation (distance transform, ridge points, branch
    tracing and pruning) and the construction of the segmentation lines from
    anchors, skeleton and stroke widths read the character and write, the first
    one, its fields [MedialAxis] and [SkeletonBranches] only.  What they
    compute is taken as given: the functions below stand for the points and
    branches left by [CharacterComputeMedialAxis] and for the lines returned by
    [identifySegmentationLines].  Both Go functions return the [nil] error, as
    does [CharacterDetectAnchors], so [CharacterBreakdownToRegions] returns its
    list of regions with a [nil] error; the list is what is embedded. *)
Section Breakdown.
Variable medialAxisPoints : Character -> list Point.
Variable skeletonBranches : Character -> gmap string (list Point).
Variable identifySegmentationLines : Character -> list SegmentationLine.

Definition CharacterComputeMedialAxis (char : Character) : Character :=
  if IsEmpty char then char
  else setMedialAxis char (medialAxisPoints char) (skeletonBranches char).

Definition CharacterBreakdownToRegions (char : Character) : list Region.Region :=
  if IsEmpty char then []
  else
    let char := if (length (AnchorPoints char) =? 0)%nat
                then CharacterHelper.CharacterDetectAnchors char else char in
    let char := if (length (MedialAxis char) =? 0)%nat
                then CharacterComputeMedialAxis char else char in
    let segmentationLines := identifySegmentationLines char in
    let regions := segmentCharacter char segmentationLines in
    let refinedRegions := refineRegions char regions in
    analyzeRegions refinedRegions.

End Breakdown.

End CharacterCalculate.

(** ** Package helper: features of a character and the edit distance *)

Module FeatureHelper.
Import Character.













End FeatureHelper.

(** * Part II: proofs *)

(** ** Float comparisons *)

Lemma Rltb_true (x y : R) : Rltb x y = true <-> (x < y)%R.
Proof. unfold Rltb. destruct (Rlt_dec x y); split; intros; done. Qed.

Lemma Rltb_false (x y : R) : Rltb x y = false <-> (y <= x)%R.
Proof. unfold Rltb. destruct (Rlt_dec x y); split; intros; try done; lra. Qed.

Lemma Rleb_true (x y : R) : Rleb x y = true <-> (x <= y)%R.
Proof. unfold Rleb. destruct (Rle_dec x y); split; intros; done. Qed.

Lemma Rleb_false (x y : R) : Rleb x y = false <-> (y < x)%R.
Proof. unfold Rleb. destruct (Rle_dec x y); split; intros; try done; lra. Qed.

Lemma Rgtb_true (x y : R) : Rgtb x y = true <-> (x > y)%R.
Proof. unfold Rgtb. rewrite Rltb_true. lra. Qed.

Lemma Rgeb_true (x y : R) : Rgeb x y = true <-> (x >= y)%R.
Proof. unfold Rgeb. rewrite Rleb_true. lra. Qed.

Lemma Reqb_true (x y : R) : Reqb x y = true <-> x = y.
Proof. unfold Reqb. destruct (Req_dec_T x y); split; intros; done. Qed.


(** ** The raster of a region *)

Lemma IsDrew_Draw r x y x' y' :
  Region.IsDrew (Region.Draw r x y) x' y' =
  if decide (x = x' /\ y = y') then true else Region.IsDrew r x' y'.
Proof.
  unfold Region.IsDrew, Region.Draw; simpl.
  destruct (decide (x = x')) as [->|Hx].
  - rewrite lookup_insert_eq.
    destruct (decide (y = y')) as [->|Hy].
    + rewrite lookup_insert_eq. rewrite decide_True; done.
    + rewrite lookup_insert_ne; [|done].
      rewrite decide_False; [|by intros [_ ?]].
      destruct (Region.Bitmap r !! x') as [row|]; [done|].
      by rewrite lookup_empty.
  - rewrite lookup_insert_ne; [|done].
    rewrite decide_False; [done|by intros [? _]].
Qed.

Lemma IsDrew_Erase r x y x' y' :
  Region.IsDrew (Region.Erase r x y) x' y' =
  if decide (x = x' /\ y = y') then false else Region.IsDrew r x' y'.
Proof.
  unfold Region.IsDrew, Region.Erase.
  destruct (Region.Bitmap r !! x) as [row|] eqn:Hrow; simpl.
  - destruct (decide (x = x')) as [->|Hx].
    + rewrite lookup_insert_eq, Hrow.
      destruct (decide (y = y')) as [->|Hy].
      * rewrite lookup_insert_eq. rewrite decide_True; done.
      * rewrite lookup_insert_ne; [|done].
        rewrite decide_False; [done|by intros [_ ?]].
    + rewrite lookup_insert_ne; [|done].
      rewrite decide_False; [done|by intros [? _]].
  - case_decide as H; [|done].
    destruct H as [<- _]. by rewrite Hrow.
Qed.

Lemma Draws_Erase r x y : Region.Draws (Region.Erase r x y) = Region.Draws r.
Proof. unfold Region.Erase. by destruct (Region.Bitmap r !! x). Qed.

Lemma IsDrew_NewRegion w h x y : Region.IsDrew (Region.NewRegion w h) x y = false.
Proof. unfold Region.IsDrew; simpl. by rewrite lookup_empty. Qed.

Lemma Size_step r o :
  Region.SizeX (Region.step r o) = Region.SizeX r
  /\ Region.SizeY (Region.step r o) = Region.SizeY r.
Proof.
  destruct o as [x y|x y]; simpl; [done|].
  unfold Region.Erase. by destruct (Region.Bitmap r !! x).
Qed.

Lemma Size_run ops r :
  Region.SizeX (Region.run r ops) = Region.SizeX r
  /\ Region.SizeY (Region.run r ops) = Region.SizeY r.
Proof.
  revert r. induction ops as [|o ops IH]; intros r; [done|].
  unfold Region.run in *; simpl.
  destruct (IH (Region.step r o)) as [-> ->]. apply Size_step.
Qed.

(** Membership only grows through an in-bounds [Draw]. *)
Lemma run_in_bounds w h ops r :
  Forall (Region.op_in_bounds w h) ops ->
  (forall x y, Region.IsDrew r x y = true -> 0 <= x < w /\ 0 <= y < h) ->
  forall x y, Region.IsDrew (Region.run r ops) x y = true -> 0 <= x < w /\ 0 <= y < h.
Proof.
  intros Hops. revert r.
  induction Hops as [|o ops Ho Hops IH]; intros r Hr; [exact Hr|].
  unfold Region.run; simpl. apply IH.
  intros x y. destruct o as [a b|a b]; simpl.
  - rewrite IsDrew_Draw. case_decide as Heq.
    + destruct Heq as [<- <-]. intros _. exact Ho.
    + apply Hr.
  - rewrite IsDrew_Erase. case_decide; [done|apply Hr].
Qed.

(** C9. For every region and every [Erase(x, y)]: afterwards [IsDrew(x, y)] is
    false, the membership of every other pixel is as before, and the draw log
    [Draws] is the same sequence as before the call. *)
Theorem Erase_flips_membership_only (r : Region.Region) (x y : Z) :
  Region.IsDrew (Region.Erase r x y) x y = false
  /\ (forall x' y', (x', y') <> (x, y) ->
        Region.IsDrew (Region.Erase r x y) x' y' = Region.IsDrew r x' y')
  /\ Region.Draws (Region.Erase r x y) = Region.Draws r.
Proof.
  split; [|split].
  - rewrite IsDrew_Erase. rewrite decide_True; done.
  - intros x' y' Hne. rewrite IsDrew_Erase.
    rewrite decide_False; [done|]. intros [-> ->]. done.
  - apply Draws_Erase.
Qed.

(** C4, as the code has it: [Draw] does not look at the size of the raster, so
    the foreground stays inside the bounds exactly as far as the drawn pixels
    do.  For a region created by [NewRegion(W, H)] and every sequence of
    [Draw] and [Erase] calls in which each [Draw] is given a pixel inside the
    raster, every pixel for which [IsDrew] holds satisfies [x < W] and
    [y < H]. *)
Theorem foreground_in_bounds_of_draws_in_bounds (W H : Z) (ops : list Region.Op) :
  Forall (Region.op_in_bounds W H) ops ->
  forall x y,
    Region.IsDrew (Region.run (Region.NewRegion W H) ops) x y = true ->
    0 <= x < W /\ 0 <= y < H.
Proof.
  intros Hops. apply (run_in_bounds W H ops _ Hops).
  intros x y. by rewrite IsDrew_NewRegion.
Qed.

Lemma foreground_in_bounds_witness :
  Region.IsDrew
    (Region.run (Region.NewRegion 5 5)
       [Region.OpDraw 1 2; Region.OpDraw 4 4; Region.OpErase 4 4]) 1 2 = true
  /\ 0 <= 1 < 5 /\ 0 <= 2 < 5.
Proof.
  split; [vm_compute; reflexivity|].
  apply (foreground_in_bounds_of_draws_in_bounds 5 5
           [Region.OpDraw 1 2; Region.OpDraw 4 4; Region.OpErase 4 4]).
  - repeat constructor; simpl; lia.
  - vm_compute; reflexivity.
Defined.

(** C4 fails as stated: on a 5x5 region the single call [Draw(10, 10)], with
    [uint16] arguments, makes [IsDrew(10, 10)] true although 10 is not below
    the size. *)
Lemma foreground_escapes_bounds :
  Region.op_uint16 (Region.OpDraw 10 10)
  /\ Region.IsDrew (Region.run (Region.NewRegion 5 5) [Region.OpDraw 10 10]) 10 10 = true
  /\ ~ (10 < Region.SizeX (Region.run (Region.NewRegion 5 5) [Region.OpDraw 10 10])).
Proof.
  split; [simpl; lia|]. split; [vm_compute; reflexivity|]. simpl. lia.
Qed.

(** ** The pixel log and the bounding box of a character *)

Lemma fold_min_absorb (l : list Z) (a x : Z) :
  foldr Z.min (Z.min a x) l = Z.min x (foldr Z.min a l).
Proof. induction l as [|z l IH]; simpl; [lia|]. rewrite IH. lia. Qed.

Lemma fold_max_absorb (l : list Z) (a x : Z) :
  foldr Z.max (Z.max a x) l = Z.max x (foldr Z.max a l).
Proof. induction l as [|z l IH]; simpl; [lia|]. rewrite IH. lia. Qed.

Lemma minimum_snoc (first : Z) (l : list Z) (x : Z) :
  Character.minimum first (l ++ [x]) = Z.min x (Character.minimum first l).
Proof.
  unfold Character.minimum. rewrite foldr_app. simpl.
  rewrite (Z.min_comm x first). apply fold_min_absorb.
Qed.

Lemma maximum_snoc (first : Z) (l : list Z) (x : Z) :
  Character.maximum first (l ++ [x]) = Z.max x (Character.maximum first l).
Proof.
  unfold Character.maximum. rewrite foldr_app. simpl.
  rewrite (Z.max_comm x first). apply fold_max_absorb.
Qed.

(** The scan of [recalculateBoundingBox] computes the extreme coordinates. *)
Lemma boxScan_from (l : list Point) (a b c d : Z) :
  fold_left (fun '(minX, maxX, minY, maxY) point =>
    let minX := if bool_decide (X point < minX) then X point else minX in
    let maxX := if bool_decide (X point > maxX) then X point else maxX in
    let minY := if bool_decide (Y point < minY) then Y point else minY in
    let maxY := if bool_decide (Y point > maxY) then Y point else maxY in
    (minX, maxX, minY, maxY)) l (a, b, c, d)
  = (foldr Z.min a (X <$> l), foldr Z.max b (X <$> l),
     foldr Z.min c (Y <$> l), foldr Z.max d (Y <$> l)).
Proof.
  revert a b c d. induction l as [|p l IH]; intros a b c d; [done|].
  simpl. rewrite IH. clear IH.
  rewrite <- !fold_min_absorb, <- !fold_max_absorb.
  repeat case_bool_decide; repeat f_equal; lia.
Qed.

Lemma boxScan_extremes (first : Point) (l : list Point) :
  Character.boxScan first l
  = (Character.minimum (X first) (X <$> l), Character.maximum (X first) (X <$> l),
     Character.minimum (Y first) (Y <$> l), Character.maximum (Y first) (Y <$> l)).
Proof. apply boxScan_from. Qed.

Ltac box_keys :=
  unfold Character.setBox;
  repeat (rewrite lookup_insert; case_decide; simplify_eq; try done);
  try rewrite lookup_empty; try done.

Lemma setBox_over (m : gmap string Z) (a b c d a' b' c' d' : Z) :
  Character.setBox (Character.setBox m a b c d) a' b' c' d' = Character.setBox m a' b' c' d'.
Proof. apply map_eq. intros k. box_keys. Qed.

Lemma setBox_minX (m : gmap string Z) (a b c d x : Z) :
  <["minX" := x]> (Character.setBox m a b c d) = Character.setBox m x b c d.
Proof. apply map_eq. intros k. box_keys. Qed.

Lemma setBox_maxX (m : gmap string Z) (a b c d x : Z) :
  <["maxX" := x]> (Character.setBox m a b c d) = Character.setBox m a x c d.
Proof. apply map_eq. intros k. box_keys. Qed.

Lemma setBox_minY (m : gmap string Z) (a b c d x : Z) :
  <["minY" := x]> (Character.setBox m a b c d) = Character.setBox m a b x d.
Proof. apply map_eq. intros k. box_keys. Qed.

Lemma setBox_maxY (m : gmap string Z) (a b c d x : Z) :
  <["maxY" := x]> (Character.setBox m a b c d) = Character.setBox m a b c x.
Proof. apply map_eq. intros k. box_keys. Qed.

Lemma bb_setBox (c : Character.Character) (m : gmap string Z) (a b c0 d : Z) :
  Character.BoundingBox c = Character.setBox m a b c0 d ->
  Character.bb c "minX" = a /\ Character.bb c "maxX" = b
  /\ Character.bb c "minY" = c0 /\ Character.bb c "maxY" = d.
Proof.
  intros H. unfold Character.bb. rewrite H. unfold Character.setBox.
  repeat split; by simplify_map_eq.
Qed.

(** The invariant of the reachable characters: every logged pixel has a
    bitmap row, and the bounding box is the one of the log. *)
Definition log_invariant (c : Character.Character) : Prop :=
  (forall p, p ∈ Character.Draws c -> is_Some (Character.Bitmap c !! X p))
  /\ Character.BoundingBox c = Character.boxOfLog (Character.Draws c).

Lemma removeFirst_sub (x y : Z) (l : list Point) (p : Point) :
  p ∈ Character.removeFirst x y l -> p ∈ l.
Proof.
  induction l as [|q l IH]; simpl; [done|].
  case_bool_decide.
  - intros ?. by apply list_elem_of_further.
  - rewrite !elem_of_cons. intros [->|?]; [by left|right; by apply IH].
Qed.

Lemma removeFirst_absent (x y : Z) (l : list Point) :
  mkPoint x y ∉ l -> Character.removeFirst x y l = l.
Proof.
  induction l as [|q l IH]; simpl; [done|].
  rewrite not_elem_of_cons. intros [Hq Hl].
  case_bool_decide as Heq.
  - destruct q as [qx qy]; simpl in *. destruct Heq as [-> ->]. done.
  - by rewrite IH.
Qed.

(** What the scan of [Erase] does to the log, in words: nothing when the pixel
    is not logged; otherwise the first entry for it is cut out and everything
    after it, later entries for the same pixel included, stays. *)
Lemma removeFirst_cuts_first (x y : Z) (l : list Point) :
  ((mkPoint x y ∉ l) /\ Character.removeFirst x y l = l)
  \/ (exists l1 l2, l = l1 ++ mkPoint x y :: l2 /\ (mkPoint x y ∉ l1)
                    /\ Character.removeFirst x y l = l1 ++ l2).
Proof.
  induction l as [|q l IH]; simpl.
  - left. split; [apply not_elem_of_nil|done].
  - case_bool_decide as Heq.
    + right. exists [], l. destruct q as [qx qy]; simpl in *.
      destruct Heq as [-> ->]. split; [done|]. split; [apply not_elem_of_nil|done].
    + assert (q <> mkPoint x y) as Hq.
      { intros ->. apply Heq. done. }
      destruct IH as [[Hni Hl]|(l1 & l2 & Hl & Hni & Hr)].
      * left. split; [|by rewrite Hl].
        rewrite not_elem_of_cons. split; [done|exact Hni].
      * right. exists (q :: l1), l2. split; [by rewrite Hl|].
        split; [|by rewrite Hr].
        rewrite not_elem_of_cons. split; [done|exact Hni].
Qed.

Lemma recalculate_box (c : Character.Character) :
  (Character.BoundingBox c = ∅
   \/ exists a b c0 d, Character.BoundingBox c = Character.setBox ∅ a b c0 d) ->
  Character.BoundingBox (Character.recalculateBoundingBox c)
  = Character.boxOfLog (Character.Draws c).
Proof.
  intros Hbox. unfold Character.recalculateBoundingBox, Character.boxOfLog.
  destruct (Character.Draws c) as [|first rest] eqn:Hd; [done|].
  rewrite boxScan_extremes. simpl.
  destruct Hbox as [->|(a & b & c0 & d & ->)]; [done|].
  apply setBox_over.
Qed.

Lemma boxOfLog_shape (l : list Point) :
  Character.boxOfLog l = ∅
  \/ exists a b c0 d, Character.boxOfLog l = Character.setBox ∅ a b c0 d.
Proof. destruct l; [by left|right]. simpl. eauto. Qed.

Lemma log_invariant_new sizeX sizeY config :
  log_invariant (Character.NewCharacter sizeX sizeY config).
Proof. split; simpl; [|done]. intros p Hp. by apply elem_of_nil in Hp. Qed.

Lemma update_box_else c x y a b c0 d :
  Character.BoundingBox c = Character.setBox ∅ a b c0 d ->
  length (Character.Draws c) <> 1%nat ->
  Character.BoundingBox (Character.updateBoundingBox c x y)
  = Character.setBox ∅ (Z.min x a) (Z.max x b) (Z.min y c0) (Z.max y d).
Proof.
  intros Hbox Hlen. unfold Character.updateBoundingBox.
  destruct (Nat.eqb_spec (length (Character.Draws c)) 1); [done|].
  set (c1 := if bool_decide (x < _) then _ else c).
  assert (Character.BoundingBox c1 = Character.setBox ∅ (Z.min x a) b c0 d) as H1.
  { subst c1. destruct (bb_setBox c _ _ _ _ _ Hbox) as (-> & _).
    case_bool_decide; simpl; rewrite Hbox, ?setBox_minX; f_equal; lia. }
  set (c2 := if bool_decide (x > _) then _ else c1).
  assert (Character.BoundingBox c2 = Character.setBox ∅ (Z.min x a) (Z.max x b) c0 d) as H2.
  { subst c2. destruct (bb_setBox c1 _ _ _ _ _ H1) as (_ & -> & _).
    case_bool_decide; simpl; rewrite H1, ?setBox_maxX; f_equal; lia. }
  set (c3 := if bool_decide (y < _) then _ else c2).
  assert (Character.BoundingBox c3
          = Character.setBox ∅ (Z.min x a) (Z.max x b) (Z.min y c0) d) as H3.
  { subst c3. destruct (bb_setBox c2 _ _ _ _ _ H2) as (_ & _ & -> & _).
    case_bool_decide; simpl; rewrite H2, ?setBox_minY; f_equal; lia. }
  destruct (bb_setBox c3 _ _ _ _ _ H3) as (_ & _ & _ & ->).
  case_bool_decide; simpl; rewrite H3, ?setBox_maxY; f_equal; lia.
Qed.

Lemma boxOfLog_snoc (first : Point) (rest : list Point) (x y : Z) :
  Character.boxOfLog ((first :: rest) ++ [mkPoint x y])
  = Character.setBox ∅
      (Z.min x (Character.minimum (X first) (X <$> first :: rest)))
      (Z.max x (Character.maximum (X first) (X <$> first :: rest)))
      (Z.min y (Character.minimum (Y first) (Y <$> first :: rest)))
      (Z.max y (Character.maximum (Y first) (Y <$> first :: rest))).
Proof.
  rewrite <- !minimum_snoc, <- !maximum_snoc.
  change [x] with (X <$> [mkPoint x y]). change [y] with (Y <$> [mkPoint x y]).
  rewrite <- !fmap_app. done.
Qed.

Lemma update_frame c x y :
  Character.Draws (Character.updateBoundingBox c x y) = Character.Draws c
  /\ Character.Bitmap (Character.updateBoundingBox c x y) = Character.Bitmap c.
Proof.
  unfold Character.updateBoundingBox.
  destruct (length (Character.Draws c) =? 1)%nat; [done|].
  repeat case_bool_decide; done.
Qed.

Lemma log_invariant_draw c x y :
  log_invariant c -> log_invariant (Character.Draw c x y).
Proof.
  intros [Hrows Hbox]. unfold Character.Draw.
  set (row := match Character.Bitmap c !! x with Some row => row | None => ∅ end).
  set (c' := Character.setPixels c _ _).
  destruct (update_frame c' x y) as [HD HB].
  split.
  - rewrite HD, HB. subst c'; simpl. intros p.
    rewrite elem_of_app, list_elem_of_singleton. intros [Hp| ->].
    + destruct (decide (x = X p)) as [->|Hne].
      * rewrite lookup_insert_eq. eauto.
      * rewrite lookup_insert_ne; [|done]. by apply Hrows.
    + simpl. rewrite lookup_insert_eq. eauto.
  - rewrite HD.
    assert (Character.BoundingBox c' = Character.BoundingBox c) as Hc' by done.
    assert (Character.Draws c' = Character.Draws c ++ [mkPoint x y]) as Hd' by done.
    rewrite Hd'. rewrite Hbox in Hc'.
    destruct (Character.Draws c) as [|first rest] eqn:Hd.
    + unfold Character.updateBoundingBox. rewrite Hd'. simpl.
      simpl in Hbox. rewrite Hbox. unfold Character.minimum, Character.maximum; simpl.
      by rewrite !Z.min_id, !Z.max_id.
    + rewrite (update_box_else c' x y _ _ _ _ Hc').
      2:{ rewrite Hd'. rewrite length_app. simpl. lia. }
      symmetry. apply boxOfLog_snoc.
Qed.

Lemma recalculate_frame c :
  Character.Draws (Character.recalculateBoundingBox c) = Character.Draws c
  /\ Character.Bitmap (Character.recalculateBoundingBox c) = Character.Bitmap c.
Proof.
  unfold Character.recalculateBoundingBox.
  destruct (Character.Draws c) eqn:E; [by rewrite <- E|].
  destruct (Character.boxScan _ _) as [[[? ?] ?] ?]. by rewrite <- E.
Qed.

Lemma log_invariant_erase c x y :
  log_invariant c -> log_invariant (Character.Erase c x y).
Proof.
  intros [Hrows Hbox]. unfold Character.Erase.
  destruct (Character.Bitmap c !! x) as [row|] eqn:Hrow; [|done].
  set (c' := Character.setPixels c _ _).
  destruct (recalculate_frame c') as [HD HB].
  split.
  - rewrite HD, HB. subst c'; simpl. intros p Hp.
    apply removeFirst_sub in Hp.
    destruct (decide (x = X p)) as [->|Hne].
    + rewrite lookup_insert_eq. eauto.
    + rewrite lookup_insert_ne; [|done]. by apply Hrows.
  - rewrite HD. apply recalculate_box.
    change (Character.BoundingBox c') with (Character.BoundingBox c).
    rewrite Hbox. apply boxOfLog_shape.
Qed.

Lemma Reachable_log_invariant c : Character.Reachable c -> log_invariant c.
Proof.
  induction 1; [apply log_invariant_new|by apply log_invariant_draw|by apply log_invariant_erase].
Qed.

Lemma Character_IsDrew_Erase c x y : Character.IsDrew (Character.Erase c x y) x y = false.
Proof.
  unfold Character.Erase.
  destruct (Character.Bitmap c !! x) as [row|] eqn:Hrow.
  - unfold Character.IsDrew. rewrite (proj2 (recalculate_frame _)). simpl.
    by rewrite !lookup_insert_eq.
  - unfold Character.IsDrew. by rewrite Hrow.
Qed.

(** C10. [Character.Erase(x, y)] on a character built with [NewCharacter],
    [Draw] and [Erase]: afterwards [IsDrew(x, y)] is false; exactly the first
    log entry equal to [(x, y)] is removed, if there is one, and later entries
    for the same pixel stay in the log ([Region.Erase] leaves the log alone);
    the bounding box is then the one computed from the remaining entries. *)
Theorem Character_Erase_cuts_first_log_entry (c : Character.Character) (x y : Z) :
  Character.Reachable c ->
  Character.IsDrew (Character.Erase c x y) x y = false
  /\ Character.Draws (Character.Erase c x y) = Character.removeFirst x y (Character.Draws c)
  /\ (((mkPoint x y ∉ Character.Draws c)
       /\ Character.Draws (Character.Erase c x y) = Character.Draws c)
      \/ (exists l1 l2,
            Character.Draws c = l1 ++ mkPoint x y :: l2
            /\ (mkPoint x y ∉ l1)
            /\ Character.Draws (Character.Erase c x y) = l1 ++ l2))
  /\ Character.BoundingBox (Character.Erase c x y)
     = Character.boxOfLog (Character.Draws (Character.Erase c x y)).
Proof.
  intros Hreach.
  pose proof (Reachable_log_invariant c Hreach) as [Hrows Hbox].
  assert (Character.Draws (Character.Erase c x y)
          = Character.removeFirst x y (Character.Draws c)) as Hlog.
  { unfold Character.Erase.
    destruct (Character.Bitmap c !! x) as [row|] eqn:Hrow.
    - by rewrite (proj1 (recalculate_frame _)).
    - symmetry. apply removeFirst_absent. intros Hin.
      apply Hrows in Hin. simpl in Hin. rewrite Hrow in Hin. by destruct Hin. }
  split; [apply Character_IsDrew_Erase|]. split; [exact Hlog|]. split.
  - rewrite Hlog. apply removeFirst_cuts_first.
  - apply (Reachable_log_invariant _ (Character.Reachable_erase c x y Hreach)).
Qed.

(** A pixel drawn twice and erased once is still in the log and still
    stretches the bounding box. *)
Definition twice_drawn : Character.Character :=
  Character.Draw (Character.Draw (Character.Draw
    (Character.NewCharacter 10 10 None) 1 1) 7 7) 7 7.

Lemma Character_Erase_witness :
  Character.IsDrew (Character.Erase twice_drawn 7 7) 7 7 = false
  /\ Character.Draws (Character.Erase twice_drawn 7 7) = [mkPoint 1 1; mkPoint 7 7]
  /\ Character.BoundingBox (Character.Erase twice_drawn 7 7) !! "maxX" = Some 7.
Proof.
  assert (Character.Reachable twice_drawn) as Hr by (repeat constructor).
  destruct (Character_Erase_cuts_first_log_entry twice_drawn 7 7 Hr)
    as (H1 & H2 & _ & H4).
  split; [exact H1|]. split.
  - rewrite H2. vm_compute. reflexivity.
  - rewrite H4, H2. vm_compute. reflexivity.
Defined.

(** ** The shape descriptor of a region: when there is none *)

Lemma foreground_spec (r : Region.Region) (x y : Z) :
  (x, y) ∈ Region.foreground r <-> Region.IsDrew r x y = true.
Proof.
  unfold Region.foreground, Region.IsDrew. rewrite list_elem_of_bind. split.
  - intros ([x' row] & Hin & Hrow). apply elem_of_map_to_list in Hrow.
    apply list_elem_of_bind in Hin as ([y' b] & Hin & Hb).
    apply elem_of_map_to_list in Hb. destruct b; [|by apply elem_of_nil in Hin].
    apply list_elem_of_singleton in Hin. simplify_eq. by rewrite Hrow, Hb.
  - destruct (Region.Bitmap r !! x) as [row|] eqn:Hrow; [|done].
    destruct (row !! y) as [b|] eqn:Hb; [|done]. intros ->.
    exists (x, row). split; [|by apply elem_of_map_to_list].
    apply list_elem_of_bind. exists (y, true).
    split; [by apply list_elem_of_singleton|by apply elem_of_map_to_list].
Qed.

Lemma bind_fmap {A B C} (g : B -> C) (f : A -> list B) (l : list A) :
  g <$> (l ≫= f) = l ≫= (fun a => g <$> f a).
Proof.
  induction l as [|a l IH]; [done|]. csimpl. by rewrite fmap_app, IH.
Qed.

(** The pixels of the extracted edge points are distinct foreground pixels. *)
Lemma extractEdges_pixels (r : Region.Region) :
  NoDup ((fun e => (Region.EX e, Region.EY e)) <$> Canvas.extractEdges r)
  /\ forall c, c ∈ (fun e => (Region.EX e, Region.EY e)) <$> Canvas.extractEdges r ->
               Region.IsDrew r c.1 c.2 = true.
Proof.
  unfold Canvas.extractEdges. rewrite bind_fmap.
  assert (forall x c,
    c ∈ (fun e => (Region.EX e, Region.EY e)) <$>
        (Canvas.interior (Region.SizeY r) ≫= fun y =>
           if Region.IsDrew r x y && Canvas.isEdge r x y
           then [Region.mkEdgePoint x y (Canvas.computeGradientAngle r x y)] else []) ->
    c.1 = x /\ c.2 ∈ Canvas.interior (Region.SizeY r) /\ Region.IsDrew r c.1 c.2 = true)
    as Hrow.
  { intros x c. rewrite bind_fmap, list_elem_of_bind. intros (y & Hc & Hy).
    revert Hc.
    destruct (Region.IsDrew r x y) eqn:Hd; simpl; [|by intros ?%elem_of_nil].
    destruct (Canvas.isEdge r x y); simpl; [|by intros ?%elem_of_nil].
    intros ->%list_elem_of_singleton. done. }
  split.
  - apply NoDup_bind; [| |apply NoDup_seqZ].
    + intros x1 x2 c _ _ H1 H2. apply Hrow in H1 as [<- _]. by apply Hrow in H2 as [<- _].
    + intros x _. rewrite bind_fmap. apply NoDup_bind; [| |apply NoDup_seqZ].
      * intros y1 y2 c _ _ H1 H2.
        revert H1 H2.
        destruct (Region.IsDrew r x y1 && _); simpl; [|by intros ?%elem_of_nil].
        destruct (Region.IsDrew r x y2 && _); simpl; [|by intros _ ?%elem_of_nil].
        intros H1%list_elem_of_singleton H2%list_elem_of_singleton. congruence.
      * intros y _. destruct (_ && _); simpl; [apply NoDup_singleton|apply NoDup_nil_2].
  - intros c. rewrite list_elem_of_bind. intros (x & Hc & _).
    by apply Hrow in Hc as (_ & _ & ?).
Qed.

Lemma extractEdges_le_foreground (r : Region.Region) :
  (length (Canvas.extractEdges r) <= length (Region.foreground r))%nat.
Proof.
  destruct (extractEdges_pixels r) as [Hnd Hfg].
  rewrite <- (length_fmap (fun e => (Region.EX e, Region.EY e))).
  apply submseteq_length, NoDup_submseteq; [done|].
  intros [x y] Hc. apply foreground_spec. by apply Hfg in Hc.
Qed.

(** C2. [Region.Arc] returns [nil] exactly when the draw log has fewer than 3
    entries or fewer than 3 edge points are extracted; it has no other way to
    fail.  In particular it returns [nil] for every region whose foreground
    set has fewer than 3 pixels. *)
Theorem Arc_nil_iff_too_few_points
    (detectLinesHough detectCirclesHough :
       Region.Region -> list Region.EdgePoint -> list Region.HoughAccumulator)
    (r : Region.Region) :
  (Canvas.Arc detectLinesHough detectCirclesHough r = None
   <-> (length (Region.Draws r) < 3)%nat \/ (length (Canvas.extractEdges r) < 3)%nat)
  /\ ((length (Region.foreground r) < 3)%nat ->
      Canvas.Arc detectLinesHough detectCirclesHough r = None).
Proof.
  assert (Canvas.Arc detectLinesHough detectCirclesHough r = None
   <-> (length (Region.Draws r) < 3)%nat \/ (length (Canvas.extractEdges r) < 3)%nat)
    as Hiff.
  { unfold Canvas.Arc.
    destruct (Nat.ltb_spec (length (Region.Draws r)) 3) as [Hd|Hd].
    { split; [by left|done]. }
    destruct (Nat.ltb_spec (length (Canvas.extractEdges r)) 3) as [He|He].
    { split; [by right|done]. }
    destruct (Canvas.classifyShape _ _ _ _ _) as [arcType fillType].
    split; [done|]. intros [?|?]; lia. }
  split; [exact Hiff|].
  intros Hfg. apply Hiff. right.
  pose proof (extractEdges_le_foreground r). lia.
Qed.

(** A region in which one pixel was drawn three times: the log has three
    entries, the foreground one pixel. *)
Definition thrice_drawn : Region.Region :=
  Region.Draw (Region.Draw (Region.Draw (Region.NewRegion 10 10) 5 5) 5 5) 5 5.

Lemma Arc_nil_witness :
  length (Region.Draws thrice_drawn) = 3%nat
  /\ Canvas.Arc (fun _ _ => []) (fun _ _ => []) thrice_drawn = None.
Proof.
  split; [reflexivity|].
  apply (proj2 (Arc_nil_iff_too_few_points (fun _ _ => []) (fun _ _ => []) thrice_drawn)).
  vm_compute. lia.
Defined.

(** ** The decision list of the shape classifier *)

(** A vote count exceeds a fraction of the pixel count: the truncating integer
    division of the code decides the comparison of the exact quotient. *)
Lemma votes_exceed_quot (v n k : Z) :
  0 <= n -> 0 < k -> (v > n ÷ k <-> (IZR v > IZR n / IZR k)%R).
Proof.
  intros Hn Hk. rewrite Z.quot_div_nonneg by lia.
  assert (0 < IZR k)%R as Hk' by (by apply IZR_lt).
  assert (v > n / k <-> k * v > n) as ->.
  { pose proof (Z.mul_div_le n k Hk). pose proof (Z.mul_succ_div_gt n k Hk). nia. }
  assert (IZR n = IZR n / IZR k * IZR k)%R as Hq by (field; lra).
  rewrite <- (Z.mul_comm v k).
  split.
  - intros H. assert (IZR n < IZR v * IZR k)%R as H'.
    { rewrite <- mult_IZR. apply IZR_lt. lia. }
    nra.
  - intros H. assert (IZR n < IZR v * IZR k)%R as H' by nra.
    rewrite <- mult_IZR in H'. apply lt_IZR in H'. lia.
Qed.

(** The conditions of the decision list, in the words of the specification. *)
Definition circle_rule (n : Z) (hu : list R) (circles : list Region.HoughAccumulator) : Prop :=
  exists v, RegionHelper.topVotes circles = Some v
            /\ (IZR v > IZR n / 3)%R
            /\ (RegionHelper.RegionComputeCircularity hu > 0.7)%R.

Definition line_rule (n : Z) (hu : list R) (lines : list Region.HoughAccumulator) : Prop :=
  exists v, RegionHelper.topVotes lines = Some v
            /\ (IZR v > IZR n / 2)%R
            /\ (RegionHelper.RegionComputeLinearity hu > 0.8)%R.

Definition triangle_rule (curvatures : list R) : Prop :=
  length (RegionHelper.RegionDetectCorners curvatures []) = 3%nat.

Definition rectangle_rule (hu curvatures : list R) : Prop :=
  length (RegionHelper.RegionDetectCorners curvatures []) = 4%nat
  /\ (RegionHelper.RegionComputeRectangularity hu > 0.7)%R.

Definition curve_rule (curvatures : list R) : Prop :=
  (0.1 < RegionHelper.avgAbsCurvature curvatures < 0.8)%R.

Lemma circle_rule_decided n hu circles :
  0 <= n ->
  match RegionHelper.topVotes circles with
  | Some v => bool_decide (v > n ÷ 3)
              && Rgtb (RegionHelper.RegionComputeCircularity hu) 0.7
  | None => false
  end = true <-> circle_rule n hu circles.
Proof.
  intros Hn. unfold circle_rule.
  destruct (RegionHelper.topVotes circles) as [v|]; [|split; [done|by intros (?&?&_)]].
  rewrite andb_true_iff, bool_decide_eq_true, Rgtb_true.
  rewrite (votes_exceed_quot v n 3) by lia.
  split; [intros [? ?]; eauto|intros (v' & Hv & ? & ?); by simplify_eq].
Qed.

Lemma line_rule_decided n hu lines :
  0 <= n ->
  match RegionHelper.topVotes lines with
  | Some v => bool_decide (v > n ÷ 2)
              && Rgtb (RegionHelper.RegionComputeLinearity hu) 0.8
  | None => false
  end = true <-> line_rule n hu lines.
Proof.
  intros Hn. unfold line_rule.
  destruct (RegionHelper.topVotes lines) as [v|]; [|split; [done|by intros (?&?&_)]].
  rewrite andb_true_iff, bool_decide_eq_true, Rgtb_true.
  rewrite (votes_exceed_quot v n 2) by lia.
  split; [intros [? ?]; eauto|intros (v' & Hv & ? & ?); by simplify_eq].
Qed.

(** Closes one case of the decision list. *)
Ltac decision_case :=
  first [ done | tauto | intros; discriminate | intros; exfalso; tauto ].

(** C3. The classifier follows the first-match-wins order of the
    specification, for a pixel count that is not negative (it is a length):
    Circle iff the top circle's votes exceed a third of the pixel count and
    the circularity exceeds 0.7; otherwise StraightLine when the top line's
    votes exceed half the pixel count and the linearity exceeds 0.8; otherwise
    Triangle iff exactly 3 corners are detected; otherwise Rectangle iff
    exactly 4 corners are detected and the rectangularity exceeds 0.7;
    otherwise CurvedLine iff the mean absolute curvature lies strictly between
    0.1 and 0.8; otherwise StraightLine.  The fill type is handed through. *)
Theorem RegionClassifyShape_decision_order
    (fillType : Region.ArcFillType) (drawsCount : Z) (hu curvatures : list R)
    (lines circles : list Region.HoughAccumulator) :
  0 <= drawsCount ->
  let result := RegionHelper.RegionClassifyShape fillType drawsCount hu curvatures lines circles in
  let A := circle_rule drawsCount hu circles in
  let B := line_rule drawsCount hu lines in
  let T := triangle_rule curvatures in
  let Q := rectangle_rule hu curvatures in
  let V := curve_rule curvatures in
  result.2 = fillType
  /\ (result.1 = Region.ArcTypeCircle <-> A)
  /\ (~ A -> B -> result.1 = Region.ArcTypeStrengthLine)
  /\ (~ A -> ~ B -> (result.1 = Region.ArcTypeTriangle <-> T))
  /\ (~ A -> ~ B -> ~ T -> (result.1 = Region.ArcTypeRectangle <-> Q))
  /\ (~ A -> ~ B -> ~ T -> ~ Q -> (result.1 = Region.ArcTypeCurveLine <-> V))
  /\ (~ A -> ~ B -> ~ T -> ~ Q -> ~ V -> result.1 = Region.ArcTypeStrengthLine).
Proof.
  intros Hn result A B T Q V.
  pose proof (circle_rule_decided drawsCount hu circles Hn) as HA.
  pose proof (line_rule_decided drawsCount hu lines Hn) as HB.
  fold A in HA. fold B in HB.
  assert ((length (RegionHelper.RegionDetectCorners curvatures []) =? 3)%nat = true <-> T)
    as HT by apply Nat.eqb_eq.
  assert ((length (RegionHelper.RegionDetectCorners curvatures []) =? 4)%nat
          && Rgtb (RegionHelper.RegionComputeRectangularity hu) 0.7 = true <-> Q) as HQ.
  { unfold Q, rectangle_rule. by rewrite andb_true_iff, Nat.eqb_eq, Rgtb_true. }
  assert (Rgtb (RegionHelper.avgAbsCurvature curvatures) 0.1
          && Rltb (RegionHelper.avgAbsCurvature curvatures) 0.8 = true <-> V) as HV.
  { unfold V, curve_rule. rewrite andb_true_iff, Rgtb_true, Rltb_true. lra. }
  clearbody A B T Q V. subst result. unfold RegionHelper.RegionClassifyShape.
  destruct (match RegionHelper.topVotes circles with Some _ => _ | None => _ end).
  { assert A by (by apply HA). simpl. repeat split; decision_case. }
  assert (~ A) as NA by (by intros ?%HA).
  destruct (match RegionHelper.topVotes lines with Some _ => _ | None => _ end).
  { assert B by (by apply HB). simpl. repeat split; decision_case. }
  assert (~ B) as NB by (by intros ?%HB).
  destruct (length _ =? 3)%nat.
  { assert T by (by apply HT). simpl. repeat split; decision_case. }
  assert (~ T) as NT by (by intros ?%HT).
  destruct (_ && Rgtb (RegionHelper.RegionComputeRectangularity hu) _).
  { assert Q by (by apply HQ). simpl. repeat split; decision_case. }
  assert (~ Q) as NQ by (by intros ?%HQ).
  destruct (_ && Rltb _ _).
  { assert V by (by apply HV). simpl. repeat split; decision_case. }
  assert (~ V) as NV by (by intros ?%HV).
  simpl. repeat split; decision_case.
Qed.

(** Five votes for the top circle among nine drawn pixels, with the Hu vector
    of a perfectly round mass: the first rule fires. *)
Lemma RegionClassifyShape_witness :
  0 <= 9
  /\ (RegionHelper.RegionClassifyShape Region.ArcFillTypeFill 9
        [1; 0; 0; 0; 0; 0; 0]%R [] [] [Region.mkHough 0 0 5]).1 = Region.ArcTypeCircle.
Proof.
  split; [lia|].
  apply (RegionClassifyShape_decision_order Region.ArcFillTypeFill 9
           [1; 0; 0; 0; 0; 0; 0]%R [] [] [Region.mkHough 0 0 5]); [lia|].
  exists 5. split; [reflexivity|]. split; [lra|].
  unfold RegionHelper.RegionComputeCircularity, RegionHelper.at_. simpl.
  rewrite (proj2 (Rgtb_true 1 0)) by lra. rewrite sqrt_0. lra.
Defined.

(** ** Moments and Hu invariants *)

(** The sum of a list of reals. *)
Definition Rsum (l : list R) : R := foldr Rplus 0%R l.

Lemma accumulate_from (f : R -> R -> R) (l : list (Z * Z)) (a : R) :
  fold_left (fun acc p => (acc + f (IZR p.1) (IZR p.2))%R) l a
  = (a + Rsum ((fun p : Z * Z => f (IZR p.1) (IZR p.2)) <$> l))%R.
Proof.
  revert a. induction l as [|p l IH]; intros a; simpl; [unfold Rsum; simpl; lra|].
  rewrite IH. unfold Rsum; simpl. by rewrite Rplus_assoc.
Qed.

Lemma accumulate_sum (f : R -> R -> R) (l : list (Z * Z)) :
  RegionHelper.accumulate f l = Rsum ((fun p : Z * Z => f (IZR p.1) (IZR p.2)) <$> l).
Proof. unfold RegionHelper.accumulate. rewrite accumulate_from. lra. Qed.

Lemma Rsum_perm (l l' : list R) : l ≡ₚ l' -> Rsum l = Rsum l'.
Proof. unfold Rsum. induction 1; simpl; lra. Qed.

Lemma accumulate_perm (f : R -> R -> R) (l l' : list (Z * Z)) :
  l ≡ₚ l' -> RegionHelper.accumulate f l = RegionHelper.accumulate f l'.
Proof. intros H. rewrite !accumulate_sum. apply Rsum_perm. by rewrite H. Qed.

(** The raw and central moments of a region, by name. *)
Record MomentValues := mkMoments {
  v00 : R; v10 : R; v01 : R; v11 : R; v20 : R; v02 : R;
  v21 : R; v12 : R; v30 : R; v03 : R
}.

Definition rawMoments (px : list (Z * Z)) : MomentValues :=
  {| v00 := RegionHelper.accumulate (fun fx fy => 1) px;
     v10 := RegionHelper.accumulate (fun fx fy => fx) px;
     v01 := RegionHelper.accumulate (fun fx fy => fy) px;
     v11 := RegionHelper.accumulate (fun fx fy => fx * fy) px;
     v20 := RegionHelper.accumulate (fun fx fy => fx * fx) px;
     v02 := RegionHelper.accumulate (fun fx fy => fy * fy) px;
     v21 := RegionHelper.accumulate (fun fx fy => fx * fx * fy) px;
     v12 := RegionHelper.accumulate (fun fx fy => fx * fy * fy) px;
     v30 := RegionHelper.accumulate (fun fx fy => fx * fx * fx) px;
     v03 := RegionHelper.accumulate (fun fx fy => fy * fy * fy) px |}%R.

(** Reads one key of the map built by [RegionComputeMoments]. *)
Ltac moment_key :=
  unfold RegionHelper.get;
  repeat (rewrite lookup_insert_ne by done);
  rewrite ?lookup_insert_eq; try done.

(** What [RegionComputeMoments] stores under the keys read by
    [RegionComputeHuInvariants], for a region with pixels. *)
Lemma moments_of_region (reg : Region.Region) :
  let m := rawMoments (RegionHelper.scanPixels reg) in
  let moments := RegionHelper.RegionComputeMoments reg in
  (0 < v00 m)%R ->
  (let cx := v10 m / v00 m in
   let cy := v01 m / v00 m in
   RegionHelper.get moments "m00" = v00 m
   /\ RegionHelper.get moments "mu20" = v20 m - cx * v10 m
   /\ RegionHelper.get moments "mu02" = v02 m - cy * v01 m
   /\ RegionHelper.get moments "mu11" = v11 m - cx * v01 m
   /\ RegionHelper.get moments "mu30" = v30 m - 3 * cx * v20 m + 2 * cx * cx * v10 m
   /\ RegionHelper.get moments "mu21"
      = v21 m - 2 * cx * v11 m - cy * v20 m + 2 * cx * cx * v01 m
   /\ RegionHelper.get moments "mu12"
      = v12 m - 2 * cy * v11 m - cx * v02 m + 2 * cy * cy * v10 m
   /\ RegionHelper.get moments "mu03" = v03 m - 3 * cy * v02 m + 2 * cy * cy * v01 m)%R.
Proof.
  intros m moments Hpos. subst moments. unfold RegionHelper.RegionComputeMoments.
  simpl in Hpos. apply Rltb_true in Hpos. rewrite Hpos.
  repeat split; moment_key.
Qed.

Lemma moments_m00 (reg : Region.Region) :
  RegionHelper.get (RegionHelper.RegionComputeMoments reg) "m00"
  = RegionHelper.accumulate (fun fx fy => 1%R) (RegionHelper.scanPixels reg).
Proof.
  unfold RegionHelper.RegionComputeMoments.
  destruct (Rltb 0 _); moment_key.
Qed.

(** The pixels met by the scan: the foreground pixels inside the raster, each
    once. *)
Lemma scanPixels_spec (reg : Region.Region) (x y : Z) :
  (x, y) ∈ RegionHelper.scanPixels reg
  <-> 0 <= x < Region.SizeX reg /\ 0 <= y < Region.SizeY reg
      /\ Region.IsDrew reg x y = true.
Proof.
  unfold RegionHelper.scanPixels, Region.GetSizeX, Region.GetSizeY.
  rewrite list_elem_of_bind. split.
  - intros (x' & Hin & Hx). apply list_elem_of_bind in Hin as (y' & Hin & Hy).
    apply elem_of_seqZ in Hx, Hy.
    destruct (Region.IsDrew reg x' y') eqn:Hd; [|by apply elem_of_nil in Hin].
    apply list_elem_of_singleton in Hin. simplify_eq. repeat split; try lia. done.
  - intros (Hx & Hy & Hd). exists x. split; [|apply elem_of_seqZ; lia].
    apply list_elem_of_bind. exists y. split; [|apply elem_of_seqZ; lia].
    rewrite Hd. by apply list_elem_of_singleton.
Qed.

Lemma scanPixels_NoDup (reg : Region.Region) : NoDup (RegionHelper.scanPixels reg).
Proof.
  unfold RegionHelper.scanPixels.
  apply NoDup_bind; [| |apply NoDup_seqZ].
  - intros x1 x2 c _ _ H1 H2.
    apply list_elem_of_bind in H1 as (y1 & H1 & _).
    apply list_elem_of_bind in H2 as (y2 & H2 & _).
    revert H1 H2.
    destruct (Region.IsDrew reg x1 y1); [|by intros ?%elem_of_nil].
    destruct (Region.IsDrew reg x2 y2); [|by intros _ ?%elem_of_nil].
    intros H1%list_elem_of_singleton H2%list_elem_of_singleton. congruence.
  - intros x _. apply NoDup_bind; [| |apply NoDup_seqZ].
    + intros y1 y2 c _ _.
      destruct (Region.IsDrew reg x y1); [|by intros ?%elem_of_nil].
      destruct (Region.IsDrew reg x y2); [|by intros _ ?%elem_of_nil].
      intros H1%list_elem_of_singleton H2%list_elem_of_singleton. congruence.
    + intros y _. destruct (Region.IsDrew reg x y); [apply NoDup_singleton|apply NoDup_nil_2].
Qed.

Lemma Rsum_fmap_cons {A} (g : A -> R) (p : A) (l : list A) :
  Rsum (g <$> (p :: l)) = (g p + Rsum (g <$> l))%R.
Proof. reflexivity. Qed.

(** A pixel moved by an offset. *)
Definition shift (dx dy : Z) (p : Z * Z) : Z * Z := (p.1 + dx, p.2 + dy).

(** The raw moments of a translated pixel list, by the binomial expansion. *)
Lemma rawMoments_shift (dx dy : Z) (px : list (Z * Z)) :
  let m := rawMoments px in
  let m' := rawMoments (shift dx dy <$> px) in
  let a := IZR dx in
  let b := IZR dy in
  (v00 m' = v00 m
   /\ v10 m' = v10 m + a * v00 m
   /\ v01 m' = v01 m + b * v00 m
   /\ v11 m' = v11 m + a * v01 m + b * v10 m + a * b * v00 m
   /\ v20 m' = v20 m + 2 * a * v10 m + a * a * v00 m
   /\ v02 m' = v02 m + 2 * b * v01 m + b * b * v00 m
   /\ v21 m' = v21 m + b * v20 m + 2 * a * v11 m + 2 * a * b * v10 m
               + a * a * v01 m + a * a * b * v00 m
   /\ v12 m' = v12 m + a * v02 m + 2 * b * v11 m + 2 * a * b * v01 m
               + b * b * v10 m + a * b * b * v00 m
   /\ v30 m' = v30 m + 3 * a * v20 m + 3 * a * a * v10 m + a * a * a * v00 m
   /\ v03 m' = v03 m + 3 * b * v02 m + 3 * b * b * v01 m + b * b * b * v00 m)%R.
Proof.
  simpl. rewrite !accumulate_sum.
  repeat split.
  all: induction px as [|[x y] px IH]; [unfold Rsum; simpl; lra|].
  all: rewrite fmap_cons, !Rsum_fmap_cons, IH; unfold shift; simpl; rewrite ?plus_IZR; lra.
Qed.

Lemma shift_inj (dx dy : Z) : Inj (=) (=) (shift dx dy).
Proof. intros [x1 y1] [x2 y2]. unfold shift; simpl. intros H. simplify_eq. f_equal; lia. Qed.

(** The Hu invariants read eight entries of the moments map. *)
Lemma HuInvariants_ext (m1 m2 : gmap string R) :
  RegionHelper.get m1 "m00" = RegionHelper.get m2 "m00" ->
  RegionHelper.get m1 "mu20" = RegionHelper.get m2 "mu20" ->
  RegionHelper.get m1 "mu02" = RegionHelper.get m2 "mu02" ->
  RegionHelper.get m1 "mu11" = RegionHelper.get m2 "mu11" ->
  RegionHelper.get m1 "mu30" = RegionHelper.get m2 "mu30" ->
  RegionHelper.get m1 "mu21" = RegionHelper.get m2 "mu21" ->
  RegionHelper.get m1 "mu12" = RegionHelper.get m2 "mu12" ->
  RegionHelper.get m1 "mu03" = RegionHelper.get m2 "mu03" ->
  RegionHelper.RegionComputeHuInvariants m1 = RegionHelper.RegionComputeHuInvariants m2.
Proof.
  intros H0 H1 H2 H3 H4 H5 H6 H7. unfold RegionHelper.RegionComputeHuInvariants.
  by rewrite H0, H1, H2, H3, H4, H5, H6, H7.
Qed.

(** C6. Translation invariance, in exact real arithmetic: when the foreground
    pixels of [r'] inside the raster are those of [r] moved by the constant
    integer offset [(dx, dy)], all of them staying inside the raster, and [r]
    has pixels ([m00 > 0]), the moments of [r'] yield the same seven Hu
    invariants as those of [r]. *)
Theorem Hu_translation_invariant (r r' : Region.Region) (dx dy : Z) :
  Region.SizeX r' = Region.SizeX r ->
  Region.SizeY r' = Region.SizeY r ->
  (forall x y, 0 <= x < Region.SizeX r -> 0 <= y < Region.SizeY r ->
     Region.IsDrew r x y = true ->
     0 <= x + dx < Region.SizeX r /\ 0 <= y + dy < Region.SizeY r) ->
  (forall x y, 0 <= x < Region.SizeX r -> 0 <= y < Region.SizeY r ->
     (Region.IsDrew r' x y = true
      <-> 0 <= x - dx < Region.SizeX r /\ 0 <= y - dy < Region.SizeY r
          /\ Region.IsDrew r (x - dx) (y - dy) = true)) ->
  (0 < RegionHelper.get (RegionHelper.RegionComputeMoments r) "m00")%R ->
  RegionHelper.RegionComputeHuInvariants (RegionHelper.RegionComputeMoments r')
  = RegionHelper.RegionComputeHuInvariants (RegionHelper.RegionComputeMoments r).
Proof.
  intros HX HY Hinside Htrans Hpos.
  assert (RegionHelper.scanPixels r' ≡ₚ shift dx dy <$> RegionHelper.scanPixels r) as Hperm.
  { apply NoDup_Permutation.
    - apply scanPixels_NoDup.
    - apply NoDup_fmap_2; [apply shift_inj|apply scanPixels_NoDup].
    - intros [x y]. rewrite scanPixels_spec, HX, HY, list_elem_of_fmap. split.
      + intros (Hx & Hy & Hd). apply Htrans in Hd as (Hx' & Hy' & Hd); [|done..].
        exists (x - dx, y - dy). split; [unfold shift; simpl; f_equal; lia|].
        by apply scanPixels_spec.
      + intros ([x0 y0] & Heq & Hin). apply scanPixels_spec in Hin as (Hx & Hy & Hd).
        unfold shift in Heq; simpl in Heq. simplify_eq.
        destruct (Hinside x0 y0 Hx Hy Hd) as [Hx' Hy'].
        split; [done|]. split; [done|]. apply Htrans; [done..|].
        replace (x0 + dx - dx) with x0 by lia. replace (y0 + dy - dy) with y0 by lia.
        done. }
  rewrite moments_m00 in Hpos.
  pose proof (rawMoments_shift dx dy (RegionHelper.scanPixels r)) as Hshift.
  pose proof (moments_of_region r) as Hr. pose proof (moments_of_region r') as Hr'.
  assert (rawMoments (RegionHelper.scanPixels r')
          = rawMoments (shift dx dy <$> RegionHelper.scanPixels r)) as Hraw.
  { unfold rawMoments. by rewrite !(accumulate_perm _ _ _ Hperm). }
  rewrite Hraw in Hr'. clear Hraw Hperm.
  set (m := rawMoments (RegionHelper.scanPixels r)) in *.
  set (m' := rawMoments (shift dx dy <$> RegionHelper.scanPixels r)) in *.
  change (0 < v00 m)%R in Hpos.
  cbv zeta in Hshift, Hr, Hr'. fold m m' in Hshift.
  destruct Hshift as (S00 & S10 & S01 & S11 & S20 & S02 & S21 & S12 & S30 & S03).
  destruct (Hr Hpos) as (A0 & A1 & A2 & A3 & A4 & A5 & A6 & A7).
  assert (0 < v00 m')%R as Hpos' by (rewrite S00; exact Hpos).
  destruct (Hr' Hpos') as (B0 & B1 & B2 & B3 & B4 & B5 & B6 & B7).
  apply HuInvariants_ext.
  - by rewrite A0, B0.
  - rewrite A1, B1, S00, S10, S20. field. lra.
  - rewrite A2, B2, S00, S01, S02. field. lra.
  - rewrite A3, B3, S00, S10, S01, S11. field. lra.
  - rewrite A4, B4, S00, S10, S20, S30. field. lra.
  - rewrite A5, B5, S00, S10, S01, S11, S20, S21. field. lra.
  - rewrite A6, B6, S00, S10, S01, S11, S02, S12. field. lra.
  - rewrite A7, B7, S00, S01, S02, S03. field. lra.
Qed.

(** An L-shaped triple of pixels and its translate by (2, 1). *)
Definition corner_shape : Region.Region :=
  Region.Draw (Region.Draw (Region.Draw (Region.NewRegion 4 3) 0 0) 1 0) 1 1.

Definition corner_shape_moved : Region.Region :=
  Region.Draw (Region.Draw (Region.Draw (Region.NewRegion 4 3) 2 1) 3 1) 3 2.

(** Case analysis on a coordinate pair of the 4x3 raster. *)
Ltac small_coordinates x y :=
  assert (x = 0 \/ x = 1 \/ x = 2 \/ x = 3) as Hx_cases by (simpl in *; lia);
  assert (y = 0 \/ y = 1 \/ y = 2) as Hy_cases by (simpl in *; lia);
  destruct Hx_cases as [->|[->|[->| ->]]]; destruct Hy_cases as [->|[->| ->]].

Lemma Hu_translation_witness :
  RegionHelper.RegionComputeHuInvariants (RegionHelper.RegionComputeMoments corner_shape_moved)
  = RegionHelper.RegionComputeHuInvariants (RegionHelper.RegionComputeMoments corner_shape).
Proof.
  apply (Hu_translation_invariant corner_shape corner_shape_moved 2 1).
  - reflexivity.
  - reflexivity.
  - intros x y Hx Hy. small_coordinates x y; vm_compute; intros H; try discriminate H;
      repeat split; discriminate.
  - intros x y Hx Hy. small_coordinates x y; vm_compute;
      (split; [intros H; try discriminate H; repeat split; discriminate
              |intros (H1 & H2 & H3); try discriminate H3; try reflexivity;
               try (exfalso; apply (proj1 H1); reflexivity);
               try (exfalso; apply (proj1 H2); reflexivity)]).
  - rewrite moments_m00.
    replace (RegionHelper.scanPixels corner_shape) with [(0, 0); (1, 0); (1, 1)]
      by (vm_compute; reflexivity).
    unfold RegionHelper.accumulate; simpl. lra.
Defined.

(** The normalization of the specification: [eta_pq = mu_pq / m00^((p+q)/2 + 1)],
    that is [m00^2] under the second-order central moments and [m00^2.5]
    under the third-order ones. *)
Definition HuInvariantsBySpecification (moments : gmap string R) : list R :=
  let m00 := RegionHelper.get moments "m00" in
  RegionHelper.huCombinations
    (RegionHelper.get moments "mu20" / Pow m00 2)
    (RegionHelper.get moments "mu02" / Pow m00 2)
    (RegionHelper.get moments "mu11" / Pow m00 2)
    (RegionHelper.get moments "mu30" / Pow m00 2.5)
    (RegionHelper.get moments "mu21" / Pow m00 2.5)
    (RegionHelper.get moments "mu12" / Pow m00 2.5)
    (RegionHelper.get moments "mu03" / Pow m00 2.5).

Lemma Pow_2 (x : R) : (0 < x)%R -> Pow x 2 = (x * x)%R.
Proof.
  intros Hx. unfold Pow. change 2%R with (INR 2). rewrite Rpower_pow by done.
  simpl. lra.
Qed.

Lemma Pow_2_5 (x : R) : (0 < x)%R -> Pow x 2.5 = (x * x * sqrt x)%R.
Proof.
  intros Hx. unfold Pow. replace 2.5%R with (2 + / 2)%R by lra.
  rewrite Rpower_plus, Rpower_sqrt by done. fold (Pow x 2). by rewrite Pow_2.
Qed.

Lemma Pow_3_5 (x : R) : (0 < x)%R -> Pow x 3.5 = (x * x * x * sqrt x)%R.
Proof.
  intros Hx. unfold Pow. replace 3.5%R with (1 + (2 + / 2))%R by lra.
  rewrite !Rpower_plus, Rpower_sqrt, Rpower_1 by done. fold (Pow x 2).
  rewrite Pow_2 by done. lra.
Qed.

(** For a region with pixels the code divides the second-order central
    moments by [m00^2.5] and the third-order ones by [m00^3.5]. *)
Lemma HuInvariants_normalization (moments : gmap string R) :
  let m00 := RegionHelper.get moments "m00" in
  (0 < m00)%R ->
  RegionHelper.RegionComputeHuInvariants moments
  = RegionHelper.huCombinations
      (RegionHelper.get moments "mu20" / (m00 * m00 * sqrt m00))
      (RegionHelper.get moments "mu02" / (m00 * m00 * sqrt m00))
      (RegionHelper.get moments "mu11" / (m00 * m00 * sqrt m00))
      (RegionHelper.get moments "mu30" / (m00 * m00 * m00 * sqrt m00))
      (RegionHelper.get moments "mu21" / (m00 * m00 * m00 * sqrt m00))
      (RegionHelper.get moments "mu12" / (m00 * m00 * m00 * sqrt m00))
      (RegionHelper.get moments "mu03" / (m00 * m00 * m00 * sqrt m00)).
Proof.
  intros m00 Hpos. unfold RegionHelper.RegionComputeHuInvariants. fold m00.
  assert (Reqb m00 0 = false) as ->.
  { unfold Reqb. destruct (Req_dec_T m00 0); [lra|done]. }
  by rewrite Pow_2_5, Pow_3_5.
Qed.

(** The region of the package's own moments test: a 3x3 square in a 5x5
    raster. *)
Definition square3 : Region.Region :=
  CharacterCalculate.drawAll (Region.NewRegion 5 5)
    (x ← [1; 2; 3]; y ← [1; 2; 3]; [mkPoint x y]).

(** C5 at the 3x3 square: the moments are m00 = 9 and mu20 = mu02 = 6; the
    code returns 12 / 9^2.5 = 4/81 as the first invariant, where the
    normalization of the claim gives 12 / 9^2 = 4/27. *)
Theorem HuInvariants_on_square3 :
  let moments := RegionHelper.RegionComputeMoments square3 in
  RegionHelper.get moments "m00" = 9%R
  /\ RegionHelper.get moments "mu20" = 6%R
  /\ RegionHelper.get moments "mu02" = 6%R
  /\ nth 0 (RegionHelper.RegionComputeHuInvariants moments) 0%R = (4 / 81)%R
  /\ nth 0 (HuInvariantsBySpecification moments) 0%R = (4 / 27)%R.
Proof.
  intros moments.
  pose proof (moments_of_region square3) as H. cbv zeta in H.
  assert (RegionHelper.scanPixels square3
          = [(1, 1); (1, 2); (1, 3); (2, 1); (2, 2); (2, 3); (3, 1); (3, 2); (3, 3)])
    as Hscan by (vm_compute; reflexivity).
  rewrite Hscan in H. unfold rawMoments, RegionHelper.accumulate in H. simpl in H.
  destruct H as (H00 & H20 & H02 & _); [lra|].
  fold moments in H00, H20, H02.
  assert (RegionHelper.get moments "m00" = 9)%R as E00 by (rewrite H00; lra).
  assert (RegionHelper.get moments "mu20" = 6)%R as E20 by (rewrite H20; field).
  assert (RegionHelper.get moments "mu02" = 6)%R as E02 by (rewrite H02; field).
  assert (sqrt 9 = 3)%R as Hsqrt.
  { apply sqrt_lem_1; lra. }
  repeat split; [done..| |].
  - rewrite HuInvariants_normalization by (rewrite E00; lra).
    simpl. rewrite E00, E20, E02, Hsqrt. field.
  - unfold HuInvariantsBySpecification. simpl.
    rewrite E00, E20, E02, Pow_2 by lra. field.
Qed.

(** ** The breakdown of a character into regions *)

(** The number of regions of a list that have the pixel in their foreground. *)
Definition owners (x y : Z) (regions : list Region.Region) : nat :=
  length (filter (fun reg => Region.IsDrew reg x y = true) regions).

(** The foreground of a region is what its log records: true of every region
    built with [Draw] alone. *)
Definition log_is_foreground (reg : Region.Region) : Prop :=
  forall x y, Region.IsDrew reg x y = true <-> mkPoint x y ∈ Region.Draws reg.

Lemma drawAll_Draws (reg : Region.Region) (points : list Point) :
  Region.Draws (CharacterCalculate.drawAll reg points) = Region.Draws reg ++ points.
Proof.
  revert reg. induction points as [|[px py] points IH]; intros reg; simpl.
  - by rewrite app_nil_r.
  - rewrite IH. simpl. by rewrite <- app_assoc.
Qed.

Lemma drawAll_IsDrew (reg : Region.Region) (points : list Point) (x y : Z) :
  Region.IsDrew (CharacterCalculate.drawAll reg points) x y = true
  <-> Region.IsDrew reg x y = true \/ mkPoint x y ∈ points.
Proof.
  revert reg. induction points as [|[px py] points IH]; intros reg; simpl.
  - split; [by left|]. intros [?|H]; [done|by apply elem_of_nil in H].
  - rewrite IH, IsDrew_Draw, elem_of_cons. case_decide as Heq.
    + destruct Heq as [-> ->]. split; [intros _; right; by left|by left].
    + split; [intros [?|?]; eauto|]. intros [?|[Hp|?]]; eauto.
      simplify_eq. by destruct Heq.
Qed.

Lemma drawAll_log_is_foreground (reg : Region.Region) (points : list Point) :
  log_is_foreground reg -> log_is_foreground (CharacterCalculate.drawAll reg points).
Proof.
  intros Hreg x y. rewrite drawAll_IsDrew, drawAll_Draws, elem_of_app, (Hreg x y). done.
Qed.

Lemma NewRegion_log_is_foreground (w h : Z) : log_is_foreground (Region.NewRegion w h).
Proof.
  intros x y. rewrite IsDrew_NewRegion. simpl. split; [done|]. by intros ?%elem_of_nil.
Qed.

(** The two sides of a split are the pixels of the log on either side of the
    line, drawn in log order. *)
Lemma splitSides_from (line : CharacterCalculate.SegmentationLine)
    (l : list Point) (a b : Region.Region) :
  let P := fun point => Rgeb (CharacterCalculate.getPointSideOfLine point line) 0 = true in
  fold_left (fun (sides : Region.Region * Region.Region) point =>
    let side := CharacterCalculate.getPointSideOfLine point line in
    if Rgeb side 0
    then (Region.Draw sides.1 (X point) (Y point), sides.2)
    else (sides.1, Region.Draw sides.2 (X point) (Y point))) l (a, b)
  = (CharacterCalculate.drawAll a (filter P l),
     CharacterCalculate.drawAll b (filter (fun point => ~ P point) l)).
Proof.
  intros P. revert a b. induction l as [|p l IH]; intros a b; [done|].
  cbn [fold_left]. rewrite !filter_cons. subst P. cbv beta zeta.
  destruct (Rgeb (CharacterCalculate.getPointSideOfLine p line) 0) eqn:E.
  - rewrite decide_True by done. rewrite decide_False by (intros H; by apply H).
    cbn [fst snd]. by rewrite IH.
  - rewrite decide_False by done. rewrite decide_True by done.
    cbn [fst snd]. by rewrite IH.
Qed.

Lemma splitSides_filter (reg : Region.Region) (line : CharacterCalculate.SegmentationLine) :
  let P := fun point => Rgeb (CharacterCalculate.getPointSideOfLine point line) 0 = true in
  CharacterCalculate.splitSides reg line
  = (CharacterCalculate.drawAll
       (Region.NewRegion (Region.SizeX reg) (Region.SizeY reg)) (filter P (Region.Draws reg)),
     CharacterCalculate.drawAll
       (Region.NewRegion (Region.SizeX reg) (Region.SizeY reg))
       (filter (fun point => ~ P point) (Region.Draws reg))).
Proof. apply splitSides_from. Qed.

(** A boolean as a count. *)
Definition b2n (b : bool) : nat := if b then 1%nat else 0%nat.

Lemma owners_cons (x y : Z) (reg : Region.Region) (regions : list Region.Region) :
  owners x y (reg :: regions) = (b2n (Region.IsDrew reg x y) + owners x y regions)%nat.
Proof.
  unfold owners. rewrite filter_cons.
  case_decide as H; rewrite ?H; [done|].
  by destruct (Region.IsDrew reg x y).
Qed.

Lemma owners_app (x y : Z) (l1 l2 : list Region.Region) :
  owners x y (l1 ++ l2) = (owners x y l1 + owners x y l2)%nat.
Proof. unfold owners. by rewrite filter_app, length_app. Qed.

Lemma owners_nil (x y : Z) : owners x y [] = 0%nat.
Proof. done. Qed.

Lemma empty_log_no_pixel (reg : Region.Region) (x y : Z) :
  log_is_foreground reg -> length (Region.Draws reg) = 0%nat ->
  Region.IsDrew reg x y = false.
Proof.
  intros Hreg Hlen. destruct (Region.IsDrew reg x y) eqn:E; [|done].
  apply Hreg in E. destruct (Region.Draws reg); [by apply elem_of_nil in E|done].
Qed.

(** A split sends every pixel of the region to exactly one side. *)
Lemma splitRegionByLine_owners (reg : Region.Region)
    (line : CharacterCalculate.SegmentationLine) :
  log_is_foreground reg ->
  Forall log_is_foreground (CharacterCalculate.splitRegionByLine reg line)
  /\ forall x y, owners x y (CharacterCalculate.splitRegionByLine reg line)
                 = b2n (Region.IsDrew reg x y).
Proof.
  intros Hreg. unfold CharacterCalculate.splitRegionByLine.
  rewrite splitSides_filter. cbv zeta.
  set (P := fun point => Rgeb (CharacterCalculate.getPointSideOfLine point line) 0 = true).
  set (r1 := CharacterCalculate.drawAll _ (filter P _)).
  set (r2 := CharacterCalculate.drawAll _ (filter _ (Region.Draws reg))).
  assert (log_is_foreground r1) as H1
    by apply drawAll_log_is_foreground, NewRegion_log_is_foreground.
  assert (log_is_foreground r2) as H2
    by apply drawAll_log_is_foreground, NewRegion_log_is_foreground.
  assert (forall x y, (b2n (Region.IsDrew r1 x y) + b2n (Region.IsDrew r2 x y))%nat
                      = b2n (Region.IsDrew reg x y)) as Hsum.
  { intros x y.
    assert (Region.IsDrew r1 x y = true <-> P (mkPoint x y) /\ Region.IsDrew reg x y = true)
      as E1.
    { subst r1. rewrite drawAll_IsDrew, IsDrew_NewRegion, list_elem_of_filter, (Hreg x y).
      split; [intros [?|?]; done|by right]. }
    assert (Region.IsDrew r2 x y = true
            <-> ~ P (mkPoint x y) /\ Region.IsDrew reg x y = true) as E2.
    { subst r2. rewrite drawAll_IsDrew, IsDrew_NewRegion, list_elem_of_filter, (Hreg x y).
      split; [intros [?|?]; done|by right]. }
    pose proof (eq_refl true) as Ht.
    assert (false = true -> False) as Hf by discriminate.
    destruct (decide (P (mkPoint x y))) as [HP|HP];
      destruct (Region.IsDrew r1 x y), (Region.IsDrew r2 x y), (Region.IsDrew reg x y);
      simpl; try done; exfalso; tauto. }
  destruct (0 <? length (Region.Draws r1))%nat eqn:L1;
    destruct (0 <? length (Region.Draws r2))%nat eqn:L2; simpl.
  - split; [by repeat (apply Forall_cons_2; [assumption|])|]. intros x y.
    rewrite !owners_cons, owners_nil, <- Hsum. lia.
  - apply Nat.ltb_ge in L2. split; [by repeat (apply Forall_cons_2; [assumption|])|]. intros x y.
    rewrite !owners_cons, owners_nil, <- Hsum.
    rewrite (empty_log_no_pixel r2 x y H2) by lia. simpl. lia.
  - apply Nat.ltb_ge in L1. split; [by repeat (apply Forall_cons_2; [assumption|])|]. intros x y.
    rewrite !owners_cons, owners_nil, <- Hsum.
    rewrite (empty_log_no_pixel r1 x y H1) by lia. simpl. lia.
  - split; [by repeat (apply Forall_cons_2; [assumption|])|]. intros x y.
    by rewrite owners_cons, owners_nil, Nat.add_0_r.
Qed.

Lemma applySemgentationLine_owners (char : Character.Character)
    (regions : list Region.Region) (line : CharacterCalculate.SegmentationLine) :
  Forall log_is_foreground regions ->
  Forall log_is_foreground (CharacterCalculate.applySemgentationLine char regions line)
  /\ forall x y, owners x y (CharacterCalculate.applySemgentationLine char regions line)
                 = owners x y regions.
Proof.
  unfold CharacterCalculate.applySemgentationLine.
  induction 1 as [|reg regions Hreg Hregions [IHwf IH]]; [done|].
  csimpl. destruct (splitRegionByLine_owners reg line Hreg) as [Hwf Hown].
  split; [by apply Forall_app|]. intros x y.
  by rewrite owners_app, owners_cons, Hown, IH.
Qed.

Lemma segmentCharacter_owners (char : Character.Character)
    (lines : list CharacterCalculate.SegmentationLine) :
  Forall log_is_foreground (CharacterCalculate.segmentCharacter char lines)
  /\ forall x y, owners x y (CharacterCalculate.segmentCharacter char lines)
                 = b2n (bool_decide (mkPoint x y ∈ Character.Draws char)).
Proof.
  unfold CharacterCalculate.segmentCharacter.
  assert (log_is_foreground (CharacterCalculate.createRegionFromCharacter char)) as H0
    by apply drawAll_log_is_foreground, NewRegion_log_is_foreground.
  assert (Forall log_is_foreground [CharacterCalculate.createRegionFromCharacter char]
          /\ forall x y, owners x y [CharacterCalculate.createRegionFromCharacter char]
                         = b2n (bool_decide (mkPoint x y ∈ Character.Draws char))) as Hinit.
  { split; [by repeat (apply Forall_cons_2; [assumption|])|]. intros x y.
    rewrite owners_cons, owners_nil, Nat.add_0_r. f_equal.
    apply eq_true_iff_eq. rewrite bool_decide_eq_true, (H0 x y).
    unfold CharacterCalculate.createRegionFromCharacter. rewrite drawAll_Draws. done. }
  revert Hinit. generalize [CharacterCalculate.createRegionFromCharacter char].
  induction lines as [|line lines IH]; intros regions [Hwf Hown]; [done|].
  simpl. apply IH. destruct (applySemgentationLine_owners char regions line Hwf) as [? E].
  split; [done|]. intros x y. by rewrite E.
Qed.

Lemma mergeRegions_owner (target source : Region.Region) (x y : Z) :
  log_is_foreground source ->
  Region.IsDrew (CharacterCalculate.mergeRegions target source) x y
  = Region.IsDrew target x y || Region.IsDrew source x y.
Proof.
  intros Hsrc. apply eq_true_iff_eq.
  unfold CharacterCalculate.mergeRegions.
  rewrite drawAll_IsDrew, orb_true_iff, (Hsrc x y). done.
Qed.

(** Merging a small region into an accepted one moves its pixels and drops
    none, provided no pixel is owned twice. *)
Lemma mergeIntoFirst_owners (reg : Region.Region) (refined merged : list Region.Region) :
  log_is_foreground reg ->
  Forall log_is_foreground refined ->
  CharacterCalculate.mergeIntoFirst reg refined = Some merged ->
  Forall log_is_foreground merged
  /\ forall x y, (owners x y refined + b2n (Region.IsDrew reg x y) <= 1)%nat ->
                 owners x y merged
                 = (owners x y refined + b2n (Region.IsDrew reg x y))%nat.
Proof.
  intros Hreg Hwf. revert merged.
  induction Hwf as [|other rest Hother Hrest IH]; intros merged; simpl; [done|].
  destruct (CharacterCalculate.regionsAreAdjacent reg other).
  - intros [= <-]. split.
    + apply Forall_cons_2; [|done].
      by apply drawAll_log_is_foreground.
    + intros x y. rewrite !owners_cons, mergeRegions_owner by done.
      destruct (Region.IsDrew other x y), (Region.IsDrew reg x y); simpl; lia.
  - destruct (CharacterCalculate.mergeIntoFirst reg rest) as [merged'|]; [|done].
    intros [= <-]. destruct (IH merged' eq_refl) as [Hwf' Hown].
    split; [by apply Forall_cons_2|].
    intros x y. rewrite !owners_cons. intros Hle. rewrite Hown; lia.
Qed.

Lemma refine_from (minSize : Z) (regions refined : list Region.Region) :
  Forall log_is_foreground regions ->
  Forall log_is_foreground refined ->
  (forall x y, (owners x y refined + owners x y regions <= 1)%nat) ->
  let out :=
    fold_left (fun refined reg =>
      if bool_decide (uint16 (Z.of_nat (length (Region.Draws reg))) >= minSize)
      then refined ++ [reg]
      else
        match CharacterCalculate.mergeIntoFirst reg refined with
        | Some merged => merged
        | None => refined ++ [reg]
        end) regions refined in
  forall x y, owners x y out = (owners x y refined + owners x y regions)%nat.
Proof.
  intros Hregions. revert refined.
  induction Hregions as [|reg regions Hreg Hregions IH]; intros refined Hwf Hle out x y.
  { subst out. simpl. rewrite owners_nil. lia. }
  subst out. cbn [fold_left].
  assert (Forall log_is_foreground (refined ++ [reg])) as Hsnoc.
  { apply Forall_app. split; [done|]. by apply Forall_cons_2. }
  assert (forall x y, owners x y (refined ++ [reg])
                      = (owners x y refined + b2n (Region.IsDrew reg x y))%nat) as Esnoc.
  { intros x' y'. rewrite owners_app, owners_cons, owners_nil. lia. }
  case_bool_decide.
  - rewrite IH; [|done|].
    + rewrite Esnoc, owners_cons. lia.
    + intros x' y'. specialize (Hle x' y'). rewrite Esnoc, owners_cons in *. lia.
  - destruct (CharacterCalculate.mergeIntoFirst reg refined) as [merged|] eqn:Em.
    + destruct (mergeIntoFirst_owners reg refined merged Hreg Hwf Em) as [Hwf' Hown].
      rewrite IH; [|done|].
      * rewrite Hown, owners_cons; [lia|].
        specialize (Hle x y). rewrite owners_cons in Hle. lia.
      * intros x' y'. specialize (Hle x' y'). rewrite owners_cons in Hle.
        rewrite Hown; lia.
    + rewrite IH; [|done|].
      * rewrite Esnoc, owners_cons. lia.
      * intros x' y'. specialize (Hle x' y'). rewrite Esnoc, owners_cons in *. lia.
Qed.

Lemma refineRegions_owners (char : Character.Character) (regions : list Region.Region) :
  Forall log_is_foreground regions ->
  (forall x y, (owners x y regions <= 1)%nat) ->
  forall x y, owners x y (CharacterCalculate.refineRegions char regions)
              = owners x y regions.
Proof.
  intros Hwf Hle x y. unfold CharacterCalculate.refineRegions.
  rewrite (refine_from _ regions [] Hwf); [by rewrite owners_nil|done|].
  intros x' y'. rewrite owners_nil. apply Hle.
Qed.

Lemma owners_positive (x y : Z) (regions : list Region.Region) :
  (exists reg, reg ∈ regions /\ Region.IsDrew reg x y = true)
  <-> (1 <= owners x y regions)%nat.
Proof.
  induction regions as [|reg regions IH].
  - rewrite owners_nil. split; [|lia]. intros (reg & Hin & _). by apply elem_of_nil in Hin.
  - rewrite owners_cons. split.
    + intros (reg' & Hin & Hd). apply elem_of_cons in Hin as [->|Hin].
      * rewrite Hd. simpl. lia.
      * assert (1 <= owners x y regions)%nat by (apply IH; eauto). lia.
    + intros Hle. destruct (Region.IsDrew reg x y) eqn:Hd.
      * exists reg. split; [apply list_elem_of_here|done].
      * simpl in Hle. apply IH in Hle as (reg' & Hin & Hd').
        exists reg'. split; [by apply list_elem_of_further|done].
Qed.

Lemma owners_two (x y : Z) (regions : list Region.Region) (i j : nat)
    (ri rj : Region.Region) :
  i <> j -> regions !! i = Some ri -> regions !! j = Some rj ->
  Region.IsDrew ri x y = true -> Region.IsDrew rj x y = true ->
  (2 <= owners x y regions)%nat.
Proof.
  revert i j. induction regions as [|reg regions IH]; intros i j Hne Hi Hj Hdi Hdj.
  { by rewrite lookup_nil in Hi. }
  rewrite owners_cons. destruct i as [|i], j as [|j]; simpl in *; simplify_eq.
  - assert (1 <= owners x y regions)%nat.
    { apply owners_positive. exists rj. split; [by eapply list_elem_of_lookup_2|done]. }
    rewrite Hdi. simpl. lia.
  - assert (1 <= owners x y regions)%nat.
    { apply owners_positive. exists ri. split; [by eapply list_elem_of_lookup_2|done]. }
    rewrite Hdj. simpl. lia.
  - assert (2 <= owners x y regions)%nat by (eapply (IH i j); eauto). lia.
Qed.

(** *** What anchor detection leaves untouched *)

(** [c'] differs from [c] in analysis results only. *)
Definition same_pixels (c c' : Character.Character) : Prop :=
  Character.Draws c' = Character.Draws c
  /\ Character.Bitmap c' = Character.Bitmap c
  /\ Character.SizeX c' = Character.SizeX c
  /\ Character.SizeY c' = Character.SizeY c
  /\ Character.Config c' = Character.Config c
  /\ Character.BoundingBox c' = Character.BoundingBox c.

Lemma same_pixels_refl c : same_pixels c c.
Proof. by repeat split. Qed.

Lemma same_pixels_trans c1 c2 c3 :
  same_pixels c1 c2 -> same_pixels c2 c3 -> same_pixels c1 c3.
Proof.
  intros (A1 & A2 & A3 & A4 & A5 & A6) (B1 & B2 & B3 & B4 & B5 & B6).
  repeat split; congruence.
Qed.

Lemma same_pixels_fold {A} (f : Character.Character -> A -> Character.Character)
    (l : list A) (c : Character.Character) :
  (forall c a, same_pixels c (f c a)) -> same_pixels c (fold_left f l c).
Proof.
  intros Hf. revert c. induction l as [|a l IH]; intros c; simpl.
  - apply same_pixels_refl.
  - eapply same_pixels_trans; [apply Hf|apply IH].
Qed.

Lemma same_pixels_setAnchorPoints c anchors :
  same_pixels c (Character.setAnchorPoints c anchors).
Proof. by repeat split. Qed.

Lemma same_pixels_detectCurvatureAnchors c contour curvatures :
  same_pixels c (CharacterHelper.detectCurvatureAnchors c contour curvatures).
Proof.
  unfold CharacterHelper.detectCurvatureAnchors.
  generalize (Character.CurvatureThreshold (Character.Config c)). intros threshold.
  apply same_pixels_fold. intros c' ip.
  destruct (_ && _); [apply same_pixels_setAnchorPoints|apply same_pixels_refl].
Qed.

Lemma same_pixels_detectJunctionAnchors c :
  same_pixels c (CharacterHelper.detectJunctionAnchors c).
Proof.
  unfold CharacterHelper.detectJunctionAnchors.
  apply same_pixels_fold. intros c' p.
  destruct (Rgtb _ _); [apply same_pixels_setAnchorPoints|apply same_pixels_refl].
Qed.

Lemma same_pixels_addIf cond anchorType point c :
  same_pixels c (CharacterHelper.addIf cond anchorType point c).
Proof.
  unfold CharacterHelper.addIf.
  destruct cond; [apply same_pixels_setAnchorPoints|apply same_pixels_refl].
Qed.

Lemma same_pixels_detectExtremumAnchors c :
  same_pixels c (CharacterHelper.detectExtremumAnchors c).
Proof.
  unfold CharacterHelper.detectExtremumAnchors.
  case_bool_decide; [apply same_pixels_refl|].
  apply same_pixels_fold. intros c' p.
  repeat (eapply same_pixels_trans; [|apply same_pixels_addIf]).
  apply same_pixels_refl.
Qed.

Lemma same_pixels_filterAnchors c : same_pixels c (CharacterHelper.filterAnchors c).
Proof.
  unfold CharacterHelper.filterAnchors.
  destruct (_ =? _)%nat; [apply same_pixels_refl|apply same_pixels_setAnchorPoints].
Qed.

Lemma same_pixels_CharacterDetectAnchors c :
  same_pixels c (CharacterHelper.CharacterDetectAnchors c).
Proof.
  unfold CharacterHelper.CharacterDetectAnchors.
  destruct (Character.IsEmpty c); [apply same_pixels_refl|].
  assert (same_pixels c (Character.ClearAnalysisResults c)) as Hclear by (by repeat split).
  cbv zeta. destruct (_ <? _)%nat; [exact Hclear|].
  eapply same_pixels_trans; [|apply same_pixels_filterAnchors].
  eapply same_pixels_trans; [|apply same_pixels_detectExtremumAnchors].
  eapply same_pixels_trans; [apply Hclear|].
  eapply same_pixels_trans; [apply same_pixels_detectCurvatureAnchors|].
  destruct (Character.EnableJunctionDetection _);
    [apply same_pixels_detectJunctionAnchors|apply same_pixels_refl].
Qed.

(** Every pixel of the log is owned by exactly one region of the breakdown,
    and no other pixel is owned at all. *)
Lemma breakdown_owners
    (medialAxisPoints : Character.Character -> list Point)
    (skeletonBranches : Character.Character -> gmap string (list Point))
    (identifySegmentationLines :
       Character.Character -> list CharacterCalculate.SegmentationLine)
    (char : Character.Character) (x y : Z) :
  owners x y
    (CharacterCalculate.CharacterBreakdownToRegions
       medialAxisPoints skeletonBranches identifySegmentationLines char)
  = b2n (bool_decide (mkPoint x y ∈ Character.Draws char)).
Proof.
  unfold CharacterCalculate.CharacterBreakdownToRegions, CharacterCalculate.analyzeRegions.
  destruct (Character.IsEmpty char) eqn:Hempty.
  { unfold Character.IsEmpty in Hempty. apply Nat.eqb_eq in Hempty.
    destruct (Character.Draws char); [|done].
    rewrite owners_nil, bool_decide_eq_false_2; [done|apply not_elem_of_nil]. }
  set (c1 := if (length (Character.AnchorPoints char) =? 0)%nat then _ else char).
  assert (Character.Draws c1 = Character.Draws char) as H1.
  { subst c1. destruct (_ =? _)%nat; [|done]. apply same_pixels_CharacterDetectAnchors. }
  clearbody c1.
  set (c2 := if (length (Character.MedialAxis c1) =? 0)%nat then _ else c1).
  assert (Character.Draws c2 = Character.Draws char) as H2.
  { subst c2. destruct (_ =? _)%nat; [|exact H1].
    unfold CharacterCalculate.CharacterComputeMedialAxis.
    destruct (Character.IsEmpty c1); exact H1. }
  clearbody c2.
  destruct (segmentCharacter_owners c2 (identifySegmentationLines c2)) as [Hwf Hown].
  rewrite refineRegions_owners; [by rewrite Hown, H2|done|].
  intros x' y'. rewrite Hown. destruct (bool_decide _); simpl; lia.
Qed.

Lemma Character_IsDrew_Draw c x y a b :
  Character.IsDrew (Character.Draw c x y) a b =
  if decide (x = a /\ y = b) then true else Character.IsDrew c a b.
Proof.
  unfold Character.IsDrew, Character.Draw.
  rewrite (proj2 (update_frame _ x y)). simpl.
  destruct (decide (x = a)) as [->|Hx].
  - rewrite lookup_insert_eq.
    destruct (decide (y = b)) as [->|Hy].
    + rewrite lookup_insert_eq. rewrite decide_True; done.
    + rewrite lookup_insert_ne; [|done].
      rewrite decide_False; [|by intros [_ ?]].
      destruct (Character.Bitmap c !! a) as [row|]; [done|].
      by rewrite lookup_empty.
  - rewrite lookup_insert_ne; [|done].
    rewrite decide_False; [done|by intros [? _]].
Qed.

(** On a character built with [Draw] alone the log and the foreground agree. *)
Lemma Character_Draw_keeps_log_foreground c x y :
  (forall a b, Character.IsDrew c a b = true <-> mkPoint a b ∈ Character.Draws c) ->
  forall a b, Character.IsDrew (Character.Draw c x y) a b = true
              <-> mkPoint a b ∈ Character.Draws (Character.Draw c x y).
Proof.
  intros Hc a b. rewrite Character_IsDrew_Draw.
  unfold Character.Draw. rewrite (proj1 (update_frame _ x y)). simpl.
  rewrite elem_of_app, list_elem_of_singleton, <- (Hc a b).
  case_decide as Heq.
  - destruct Heq as [-> ->]. split; [by right|done].
  - split; [by left|]. intros [?|?]; [done|]. simplify_eq. by destruct Heq.
Qed.

Lemma NewCharacter_log_foreground sizeX sizeY config a b :
  Character.IsDrew (Character.NewCharacter sizeX sizeY config) a b = true
  <-> mkPoint a b ∈ Character.Draws (Character.NewCharacter sizeX sizeY config).
Proof.
  unfold Character.IsDrew. simpl. rewrite lookup_empty.
  split; [done|]. by intros ?%elem_of_nil.
Qed.

(** C1, as the code has it.  The initial region copies the draw log, and a
    character's log can hold a pixel that is no longer drawn (C10).  For every
    character, empty or not, [CharacterBreakdownToRegions] returns regions
    whose foreground sets are pairwise disjoint and whose union is the set of
    pixels in the character's draw log; the union is the character's
    foreground set whenever the log and the foreground agree, as they do on
    every character built with [Draw] alone. *)
Theorem breakdown_partitions_draw_log
    (medialAxisPoints : Character.Character -> list Point)
    (skeletonBranches : Character.Character -> gmap string (list Point))
    (identifySegmentationLines :
       Character.Character -> list CharacterCalculate.SegmentationLine)
    (char : Character.Character) :
  let regions :=
    CharacterCalculate.CharacterBreakdownToRegions
      medialAxisPoints skeletonBranches identifySegmentationLines char in
  (forall x y, (exists reg, reg ∈ regions /\ Region.IsDrew reg x y = true)
               <-> mkPoint x y ∈ Character.Draws char)
  /\ (forall i j ri rj, i <> j -> regions !! i = Some ri -> regions !! j = Some rj ->
        forall x y, ~ (Region.IsDrew ri x y = true /\ Region.IsDrew rj x y = true))
  /\ ((forall x y, Character.IsDrew char x y = true <-> mkPoint x y ∈ Character.Draws char) ->
      forall x y, (exists reg, reg ∈ regions /\ Region.IsDrew reg x y = true)
                  <-> Character.IsDrew char x y = true).
Proof.
  intros regions.
  pose proof (breakdown_owners medialAxisPoints skeletonBranches
                identifySegmentationLines char) as Hown.
  fold regions in Hown.
  assert (forall x y, (exists reg, reg ∈ regions /\ Region.IsDrew reg x y = true)
                      <-> mkPoint x y ∈ Character.Draws char) as Hunion.
  { intros x y. rewrite owners_positive, Hown.
    case_bool_decide; simpl; split; try done; lia. }
  split; [exact Hunion|]. split.
  - intros i j ri rj Hne Hi Hj x y [Hdi Hdj].
    pose proof (owners_two x y regions i j ri rj Hne Hi Hj Hdi Hdj) as H2.
    rewrite Hown in H2. destruct (bool_decide _); simpl in H2; lia.
  - intros Hlog x y. by rewrite Hunion, Hlog.
Qed.

(** Two pixels on either side of the vertical line through x = 2. *)
Definition two_dots : Character.Character :=
  Character.Draw (Character.Draw (Character.NewCharacter 5 5 None) 1 1) 3 3.

Lemma breakdown_witness :
  (exists reg,
     reg ∈ CharacterCalculate.CharacterBreakdownToRegions
             (fun _ => []) (fun _ => ∅)
             (fun _ => [CharacterCalculate.mkLine (mkPoint 2 0) (mkPoint 2 4)
                          "anchor_based" 1]) two_dots
     /\ Region.IsDrew reg 3 3 = true)
  <-> Character.IsDrew two_dots 3 3 = true.
Proof.
  apply (breakdown_partitions_draw_log (fun _ => []) (fun _ => ∅)
           (fun _ => [CharacterCalculate.mkLine (mkPoint 2 0) (mkPoint 2 4)
                        "anchor_based" 1]) two_dots).
  unfold two_dots.
  apply Character_Draw_keeps_log_foreground, Character_Draw_keeps_log_foreground.
  apply NewCharacter_log_foreground.
Defined.

(** A pixel drawn twice and erased once: the character is not empty, the
    pixel is not drawn, and the log still holds it. *)
Definition erased_once : Character.Character :=
  Character.Erase
    (Character.Draw (Character.Draw (Character.NewCharacter 3 3 None) 1 1) 1 1) 1 1.

(** C1 fails as stated: the breakdown of [erased_once], whatever the medial
    axis and the segmentation lines are, has a region that holds the pixel
    (1, 1), which is not in the character's foreground. *)
Lemma breakdown_keeps_erased_pixel :
  Character.IsEmpty erased_once = false
  /\ Character.IsDrew erased_once 1 1 = false
  /\ (forall medialAxisPoints skeletonBranches identifySegmentationLines,
        exists reg,
          reg ∈ CharacterCalculate.CharacterBreakdownToRegions
                  medialAxisPoints skeletonBranches identifySegmentationLines erased_once
          /\ Region.IsDrew reg 1 1 = true).
Proof.
  split; [vm_compute; reflexivity|]. split; [vm_compute; reflexivity|].
  intros ma sb lines. apply owners_positive. rewrite breakdown_owners.
  replace (Character.Draws erased_once) with [mkPoint 1 1] by (vm_compute; reflexivity).
  rewrite bool_decide_eq_true_2; [simpl; lia|apply list_elem_of_here].
Qed.

(** ** The separation of the retained anchors *)













(** Three pixels whose extreme ones are exactly [MinAnchorDistance] = 3
    apart. *)
Definition three_pixels : Character.Character :=
  Character.Draw (Character.Draw (Character.Draw
    (Character.NewCharacter 10 10 None) 0 0) 3 0) 1 1.


(** *** What each detection step appends *)

Lemma Character_IsDrew_same c c' x y :
  same_pixels c c' -> Character.IsDrew c' x y = Character.IsDrew c x y.
Proof. intros (_ & HB & _). unfold Character.IsDrew. by rewrite HB. Qed.

Lemma computeDirectionAngle_same c c' point :
  same_pixels c c' ->
  CharacterHelper.computeDirectionAngle c' point
  = CharacterHelper.computeDirectionAngle c point.
Proof.
  intros (_ & HB & HX & HY & _).
  unfold CharacterHelper.computeDirectionAngle, Character.IsDrew.
  by rewrite HB, HX, HY.
Qed.

(** The anchors [detectExtremumAnchors] appends for one log entry. *)
Definition extremumAnchorsAt (c : Character.Character) (point : Point)
    : list Character.AnchorPoint :=
  let angle := CharacterHelper.computeDirectionAngle c point in
  let anchor (anchorType : string) :=
    Character.mkAnchor (mkPoint (X point) (Y point)) anchorType 0.8 0 angle in
  (if bool_decide (X point = Character.bb c "minX") then [anchor "extremum_left"] else [])
  ++ (if bool_decide (X point = Character.bb c "maxX") then [anchor "extremum_right"] else [])
  ++ (if bool_decide (Y point = Character.bb c "minY") then [anchor "extremum_top"] else [])
  ++ (if bool_decide (Y point = Character.bb c "maxY") then [anchor "extremum_bottom"] else []).

Lemma addIf_anchors cond anchorType point c :
  Character.AnchorPoints (CharacterHelper.addIf cond anchorType point c)
  = Character.AnchorPoints c
    ++ (if cond
        then [Character.mkAnchor (mkPoint (X point) (Y point)) anchorType 0.8 0
                (CharacterHelper.computeDirectionAngle c point)]
        else []).
Proof. unfold CharacterHelper.addIf. destruct cond; simpl; [done|by rewrite app_nil_r]. Qed.

Lemma extremum_fold (c : Character.Character) (minX maxX minY maxY : Z)
    (l : list Point) (c' : Character.Character) :
  same_pixels c c' ->
  minX = Character.bb c "minX" -> maxX = Character.bb c "maxX" ->
  minY = Character.bb c "minY" -> maxY = Character.bb c "maxY" ->
  Character.AnchorPoints
    (fold_left (fun (c : Character.Character) (point : Point) =>
       let x := X point in
       let y := Y point in
       CharacterHelper.addIf (bool_decide (y = maxY)) "extremum_bottom" point
         (CharacterHelper.addIf (bool_decide (y = minY)) "extremum_top" point
           (CharacterHelper.addIf (bool_decide (x = maxX)) "extremum_right" point
             (CharacterHelper.addIf (bool_decide (x = minX)) "extremum_left" point c))))
       l c')
  = Character.AnchorPoints c' ++ (l ≫= extremumAnchorsAt c).
Proof.
  intros Hsame -> -> -> ->. revert c' Hsame.
  induction l as [|p l IH]; intros c' Hsame; [by rewrite app_nil_r|].
  cbn [fold_left]. cbv zeta in IH |- *.
  set (c1 := CharacterHelper.addIf _ "extremum_left" p c').
  set (c2 := CharacterHelper.addIf _ "extremum_right" p c1).
  set (c3 := CharacterHelper.addIf _ "extremum_top" p c2).
  set (c4 := CharacterHelper.addIf _ "extremum_bottom" p c3).
  assert (same_pixels c c1) as S1
    by (eapply same_pixels_trans; [exact Hsame|apply same_pixels_addIf]).
  assert (same_pixels c c2) as S2
    by (eapply same_pixels_trans; [exact S1|apply same_pixels_addIf]).
  assert (same_pixels c c3) as S3
    by (eapply same_pixels_trans; [exact S2|apply same_pixels_addIf]).
  assert (same_pixels c c4) as S4
    by (eapply same_pixels_trans; [exact S3|apply same_pixels_addIf]).
  rewrite (IH c4 S4).
  subst c4. rewrite addIf_anchors, (computeDirectionAngle_same c c3 p S3).
  subst c3. rewrite addIf_anchors, (computeDirectionAngle_same c c2 p S2).
  subst c2. rewrite addIf_anchors, (computeDirectionAngle_same c c1 p S1).
  subst c1. rewrite addIf_anchors, (computeDirectionAngle_same c c' p Hsame).
  csimpl. unfold extremumAnchorsAt. by rewrite <- !app_assoc.
Qed.

Lemma detectExtremumAnchors_anchors (c : Character.Character) :
  Character.AnchorPoints (CharacterHelper.detectExtremumAnchors c)
  = Character.AnchorPoints c
    ++ (if bool_decide (size (Character.BoundingBox c) = 0%nat) then []
        else Character.Draws c ≫= extremumAnchorsAt c).
Proof.
  unfold CharacterHelper.detectExtremumAnchors.
  case_bool_decide; [by rewrite app_nil_r|].
  by apply extremum_fold; [apply same_pixels_refl|..].
Qed.

Lemma pushed_same c c' point visited :
  same_pixels c c' ->
  CharacterHelper.pushed c' point visited = CharacterHelper.pushed c point visited.
Proof.
  intros (_ & HB & HX & HY & _).
  unfold CharacterHelper.pushed, Character.IsDrew. by rewrite HB, HX, HY.
Qed.

Lemma floodLoop_same c c' turns centerX centerY stack visited :
  same_pixels c c' ->
  CharacterHelper.floodLoop turns c' centerX centerY stack visited
  = CharacterHelper.floodLoop turns c centerX centerY stack visited.
Proof.
  intros Hsame. revert stack visited.
  induction turns as [|t IH]; intros stack visited; [done|].
  simpl. destruct stack as [|point stack]; [done|].
  rewrite (pushed_same c c') by done. by rewrite !IH.
Qed.

Lemma floodFillNeighborhood_same c c' startX startY centerX centerY visited :
  same_pixels c c' ->
  CharacterHelper.floodFillNeighborhood c' startX startY centerX centerY visited
  = CharacterHelper.floodFillNeighborhood c startX startY centerX centerY visited.
Proof.
  intros Hsame. unfold CharacterHelper.floodFillNeighborhood.
  by rewrite (floodLoop_same c c').
Qed.

Lemma fold_left_pointwise {A B} (f g : A -> B -> A) (l : list B) (a : A) :
  (forall a b, f a b = g a b) -> fold_left f l a = fold_left g l a.
Proof.
  intros Hfg. revert a. induction l as [|b l IH]; intros a; [done|].
  simpl. by rewrite Hfg, IH.
Qed.

Lemma junctionScan_same c c' x y :
  same_pixels c c' ->
  CharacterHelper.junctionScan c' x y = CharacterHelper.junctionScan c x y.
Proof.
  intros Hsame. pose proof Hsame as (_ & _ & HX & HY & _).
  unfold CharacterHelper.junctionScan.
  apply fold_left_pointwise. intros st d. cbv zeta.
  rewrite HX, HY, (Character_IsDrew_same c c') by done.
  by rewrite (floodFillNeighborhood_same c c').
Qed.

Lemma analyzeJunctionPattern_same c c' x y :
  same_pixels c c' ->
  CharacterHelper.analyzeJunctionPattern c' x y
  = CharacterHelper.analyzeJunctionPattern c x y.
Proof.
  intros Hsame.
  unfold CharacterHelper.analyzeJunctionPattern, CharacterHelper.junctionComponents.
  by rewrite (junctionScan_same c c').
Qed.

(** The anchor [detectJunctionAnchors] appends for one log entry, if any. *)
Definition junctionAnchorsAt (c : Character.Character) (point : Point)
    : list Character.AnchorPoint :=
  let junctionStrength :=
    CharacterHelper.analyzeJunctionPattern c (X point) (Y point) in
  if Rgtb junctionStrength (Character.AnchorDetectionThreshold (Character.Config c))
  then [Character.mkAnchor (mkPoint (X point) (Y point)) "junction" junctionStrength 0
          (CharacterHelper.computeDirectionAngle c point)]
  else [].

Lemma anchors_fold {A} (f : Character.Character -> A -> Character.Character)
    (g : A -> list Character.AnchorPoint) (c : Character.Character) :
  (forall c' a, same_pixels c c' ->
     Character.AnchorPoints (f c' a) = Character.AnchorPoints c' ++ g a
     /\ same_pixels c (f c' a)) ->
  forall l c', same_pixels c c' ->
    Character.AnchorPoints (fold_left f l c') = Character.AnchorPoints c' ++ (l ≫= g).
Proof.
  intros Hstep l. induction l as [|a l IH]; intros c' Hsame; [by rewrite app_nil_r|].
  cbn [fold_left]. destruct (Hstep c' a Hsame) as [Heq Hsame'].
  rewrite (IH _ Hsame'), Heq, bind_cons. by rewrite <- app_assoc.
Qed.

Lemma detectJunctionAnchors_anchors (c : Character.Character) :
  Character.AnchorPoints (CharacterHelper.detectJunctionAnchors c)
  = Character.AnchorPoints c ++ (Character.Draws c ≫= junctionAnchorsAt c).
Proof.
  unfold CharacterHelper.detectJunctionAnchors.
  apply (anchors_fold _ (junctionAnchorsAt c) c); [|apply same_pixels_refl].
  intros c' p Hsame. cbv zeta.
  pose proof Hsame as (_ & _ & _ & _ & Hcfg & _).
  rewrite (analyzeJunctionPattern_same c c') by done.
  rewrite (computeDirectionAngle_same c c') by done. rewrite Hcfg.
  unfold junctionAnchorsAt. cbv zeta.
  destruct (Rgtb _ _).
  - split; [done|].
    eapply same_pixels_trans; [exact Hsame|apply same_pixels_setAnchorPoints].
  - split; [by rewrite app_nil_r|done].
Qed.

Lemma junctionAnchorsAt_same c c' point :
  same_pixels c c' -> junctionAnchorsAt c' point = junctionAnchorsAt c point.
Proof.
  intros Hsame. pose proof Hsame as (_ & _ & _ & _ & Hcfg & _).
  unfold junctionAnchorsAt.
  by rewrite (analyzeJunctionPattern_same c c'), (computeDirectionAngle_same c c'), Hcfg.
Qed.

Lemma extremumAnchorsAt_same c c' point :
  same_pixels c c' -> extremumAnchorsAt c' point = extremumAnchorsAt c point.
Proof.
  intros Hsame. pose proof Hsame as (_ & _ & _ & _ & _ & Hbb).
  unfold extremumAnchorsAt, Character.bb.
  by rewrite (computeDirectionAngle_same c c'), Hbb.
Qed.

(** ** The flood fill of the junction test *)

(** A point whose coordinates are [uint16] values. *)
Definition inRange (p : Point) : Prop :=
  0 <= X p < 65536 /\ 0 <= Y p < 65536.

Lemma uint16_range (z : Z) : 0 <= uint16 z < 65536.
Proof. unfold uint16. apply Z.mod_pos_bound. lia. Qed.

Lemma offset16_range (x d : Z) : 0 <= offset16 x d < 65536.
Proof. apply uint16_range. Qed.

Lemma offset16_mod (x d : Z) : offset16 x d = (x + d) mod 65536.
Proof. unfold offset16, uint16, int16. Z.div_mod_to_equations. lia. Qed.

Lemma diff16_mod (a b : Z) : (diff16 a b - (a - b)) mod 65536 = 0.
Proof. unfold diff16, int16. Z.div_mod_to_equations. lia. Qed.

Lemma diff16_bounds (a b : Z) : -32768 <= diff16 a b < 32768.
Proof. unfold diff16, int16. Z.div_mod_to_equations. lia. Qed.

(** A [uint16] coordinate is its centre moved by the wrapped difference. *)
Lemma offset16_diff16 (p c : Z) :
  0 <= p < 65536 -> offset16 c (diff16 p c) = p.
Proof.
  intros Hp. rewrite offset16_mod. pose proof (diff16_mod p c).
  Z.div_mod_to_equations. lia.
Qed.

(** The wrapped difference of a moved centre is the offset. *)
Lemma diff16_offset16 (c d : Z) : -1 <= d <= 1 -> diff16 (offset16 c d) c = d.
Proof.
  intros Hd. pose proof (diff16_mod (offset16 c d) c) as H.
  pose proof (diff16_bounds (offset16 c d) c). rewrite offset16_mod in *.
  Z.div_mod_to_equations. lia.
Qed.

(** The keys of the nine window pixels around a centre. *)
Definition windowKeys (centerX centerY : Z) : list (Z * Z) :=
  (fun d : Z * Z =>
     CharacterHelper.pointKey (offset16 centerX d.1) (offset16 centerY d.2))
  <$> CharacterHelper.window9.

Lemma window9_elem (dx dy : Z) :
  -1 <= dx <= 1 -> -1 <= dy <= 1 -> (dx, dy) ∈ CharacterHelper.window9.
Proof.
  intros Hx Hy.
  assert (dx = -1 \/ dx = 0 \/ dx = 1) as [->|[->| ->]] by lia;
    assert (dy = -1 \/ dy = 0 \/ dy = 1) as [->|[->| ->]] by lia;
    vm_compute;
    repeat first [apply list_elem_of_here | apply list_elem_of_further].
Qed.

Lemma in_window_key (p : Point) (centerX centerY : Z) :
  inRange p -> CharacterHelper.outsideWindow p centerX centerY = false ->
  CharacterHelper.pointKey (X p) (Y p) ∈ windowKeys centerX centerY.
Proof.
  intros [HX HY] Hin. unfold CharacterHelper.outsideWindow in Hin.
  apply orb_false_iff in Hin as [Hx Hy].
  apply bool_decide_eq_false in Hx, Hy.
  unfold windowKeys. apply list_elem_of_fmap.
  exists (diff16 (X p) centerX, diff16 (Y p) centerY). split.
  - cbn [fst snd]. by rewrite !offset16_diff16.
  - apply window9_elem; lia.
Qed.

(** The window keys the fill has not marked yet. *)
Definition unvisited (centerX centerY : Z) (visited : gset (Z * Z)) : nat :=
  length (filter (fun k => k ∉ visited) (windowKeys centerX centerY)).

Lemma filter_length_le {A} (P Q : A -> Prop)
    `{!forall x, Decision (P x)} `{!forall x, Decision (Q x)} (l : list A) :
  (forall x, P x -> Q x) ->
  (length (filter P l) <= length (filter Q l))%nat.
Proof.
  intros HPQ. induction l as [|a l IH]; [done|].
  rewrite !filter_cons. destruct (decide (P a)) as [HP|HP].
  - rewrite decide_True by auto. simpl. lia.
  - destruct (decide (Q a)); simpl; lia.
Qed.

Lemma filter_length_lt {A} (P Q : A -> Prop)
    `{!forall x, Decision (P x)} `{!forall x, Decision (Q x)} (l : list A) (a : A) :
  (forall x, P x -> Q x) -> a ∈ l -> Q a -> ~ P a ->
  (length (filter P l) < length (filter Q l))%nat.
Proof.
  intros HPQ Ha HQ HP. induction l as [|b l IH]; [by apply elem_of_nil in Ha|].
  rewrite !filter_cons. apply elem_of_cons in Ha as [<-|Ha].
  - rewrite decide_False, decide_True by done. simpl.
    pose proof (filter_length_le P Q l HPQ). lia.
  - specialize (IH Ha). destruct (decide (P b)) as [HPb|HPb].
    + rewrite decide_True by auto. simpl. lia.
    + destruct (decide (Q b)); simpl; lia.
Qed.

Lemma unvisited_le (centerX centerY : Z) (key : Z * Z) (visited : gset (Z * Z)) :
  (unvisited centerX centerY ({[key]} ∪ visited) <= unvisited centerX centerY visited)%nat.
Proof.
  apply filter_length_le. intros k Hn Hin. apply Hn, elem_of_union. by right.
Qed.

Lemma unvisited_lt (centerX centerY : Z) (key : Z * Z) (visited : gset (Z * Z)) :
  key ∈ windowKeys centerX centerY -> key ∉ visited ->
  (unvisited centerX centerY ({[key]} ∪ visited) < unvisited centerX centerY visited)%nat.
Proof.
  intros Hk Hv. apply (filter_length_lt _ _ _ key); [|done|done|].
  - intros k Hn Hin. apply Hn, elem_of_union. by right.
  - intros Hn. apply Hn, elem_of_union. left. by apply elem_of_singleton.
Qed.

Lemma unvisited_le_9 (centerX centerY : Z) (visited : gset (Z * Z)) :
  (unvisited centerX centerY visited <= 9)%nat.
Proof.
  unfold unvisited. etrans; [apply length_filter|].
  unfold windowKeys. by rewrite length_fmap.
Qed.

Lemma length_omap_le {A B} (f : A -> option B) (l : list A) :
  (length (omap f l) <= length l)%nat.
Proof. induction l as [|a l IH]; [done|]. csimpl. destruct (f a); simpl; lia. Qed.

Lemma pushed_length c point visited :
  (length (CharacterHelper.pushed c point visited) <= 8)%nat.
Proof. unfold CharacterHelper.pushed. etrans; [apply length_omap_le|done]. Qed.

(** What [pushed] appends: the foreground pixels of the ring around the
    point that lie inside the raster and are not marked. *)
Lemma pushed_spec c point visited (p : Point) :
  p ∈ CharacterHelper.pushed c point visited <->
  exists d, d ∈ CharacterHelper.ring8
    /\ p = mkPoint (offset16 (X point) d.1) (offset16 (Y point) d.2)
    /\ X p < Character.SizeX c /\ Y p < Character.SizeY c
    /\ Character.IsDrew c (X p) (Y p) = true
    /\ CharacterHelper.pointKey (X p) (Y p) ∉ visited.
Proof.
  unfold CharacterHelper.pushed. rewrite list_elem_of_omap. split.
  - intros (d & Hd & Hp). exists d. split; [done|]. cbv zeta in Hp.
    destruct (bool_decide (offset16 (X point) d.1 < _)) eqn:E1; [|done].
    destruct (bool_decide (offset16 (Y point) d.2 < _)) eqn:E2; [|done].
    destruct (Character.IsDrew c _ _) eqn:E3; [|done].
    destruct (bool_decide (_ ∈ visited)) eqn:E4; [done|].
    simpl in Hp. injection Hp as <-. simpl.
    apply bool_decide_eq_true in E1, E2. apply bool_decide_eq_false in E4. done.
  - intros (d & Hd & -> & H1 & H2 & H3 & H4). exists d. split; [done|].
    cbv zeta. simpl in *.
    rewrite (bool_decide_eq_true_2 _ H1), (bool_decide_eq_true_2 _ H2), H3.
    by rewrite (bool_decide_eq_false_2 _ H4).
Qed.

Lemma pushed_inRange c point visited :
  Forall inRange (CharacterHelper.pushed c point visited).
Proof.
  apply Forall_forall. intros p (d & _ & -> & _)%pushed_spec.
  split; apply offset16_range.
Qed.

(** The fill stops: with the measure [9 * unvisited + length stack] below the
    number of turns, the loop runs its stack empty. *)
Lemma floodLoop_enough (c : Character.Character) (centerX centerY : Z) (turns : nat) :
  forall stack visited,
    Forall inRange stack ->
    (9 * unvisited centerX centerY visited + length stack < turns)%nat ->
    is_Some (CharacterHelper.floodLoop turns c centerX centerY stack visited).
Proof.
  induction turns as [|t IH]; intros stack visited Hstack Hfuel; [lia|].
  destruct stack as [|point stack]; [by eexists|].
  apply Forall_cons in Hstack as [Hpoint Hstack].
  cbn [CharacterHelper.floodLoop]. cbv zeta. cbn [length] in Hfuel.
  case_bool_decide as Hseen.
  - apply IH; [done|lia].
  - destruct (CharacterHelper.outsideWindow point centerX centerY) eqn:Hwin.
    + apply IH; [done|].
      pose proof (unvisited_le centerX centerY
        (CharacterHelper.pointKey (X point) (Y point)) visited). lia.
    + apply IH.
      * apply Forall_app. split; [|done].
        apply Forall_rev, pushed_inRange.
      * pose proof (unvisited_lt centerX centerY _ visited
          (in_window_key point centerX centerY Hpoint Hwin) Hseen).
        rewrite length_app, length_rev.
        pose proof (pushed_length c point
          ({[CharacterHelper.pointKey (X point) (Y point)]} ∪ visited)). lia.
Qed.

Lemma elem_of_rev {A} (x : A) (l : list A) : x ∈ rev l <-> x ∈ l.
Proof. rewrite !list_elem_of_In. symmetry. apply in_rev. Qed.

(** The marks only grow, and everything that was on the stack is marked. *)
Lemma floodLoop_grows (c : Character.Character) (centerX centerY : Z) (turns : nat) :
  forall stack visited result,
    CharacterHelper.floodLoop turns c centerX centerY stack visited = Some result ->
    visited ⊆ result
    /\ forall p, p ∈ stack -> CharacterHelper.pointKey (X p) (Y p) ∈ result.
Proof.
  induction turns as [|t IH]; intros stack visited result Hrun; [done|].
  destruct stack as [|point stack].
  - injection Hrun as <-. split; [done|]. intros p Hp. by apply elem_of_nil in Hp.
  - cbn [CharacterHelper.floodLoop] in Hrun. cbv zeta in Hrun.
    case_bool_decide as Hseen.
    + destruct (IH _ _ _ Hrun) as [Hsub Hst]. split; [done|].
      intros p [->|Hp]%elem_of_cons; [by apply Hsub|by apply Hst].
    + assert (forall V : gset (Z * Z),
        {[CharacterHelper.pointKey (X point) (Y point)]} ∪ visited ⊆ V ->
        visited ⊆ V /\ CharacterHelper.pointKey (X point) (Y point) ∈ V) as Hadd.
      { intros V HV. split.
        - intros k Hk. apply HV, elem_of_union. by right.
        - apply HV, elem_of_union. left. by apply elem_of_singleton. }
      destruct (CharacterHelper.outsideWindow point centerX centerY).
      * destruct (IH _ _ _ Hrun) as [[Hsub Hpt]%Hadd Hst]. split; [done|].
        intros p [->|Hp]%elem_of_cons; [done|by apply Hst].
      * destruct (IH _ _ _ Hrun) as [[Hsub Hpt]%Hadd Hst]. split; [done|].
        intros p [->|Hp]%elem_of_cons; [done|].
        apply Hst, elem_of_app. by right.
Qed.

(** Every fill started at a [uint16] pixel runs its stack empty within
    [floodTurns] turns, whatever the character, the centre and the marks it
    starts with; the marks it returns hold the marks it was given and the key
    of its start. *)
Theorem floodLoop_total (c : Character.Character)
    (startX startY centerX centerY : Z) (visited : gset (Z * Z)) :
  exists result,
    CharacterHelper.floodLoop CharacterHelper.floodTurns c centerX centerY
      [mkPoint (uint16 startX) (uint16 startY)] visited = Some result
    /\ visited ⊆ result
    /\ CharacterHelper.pointKey (uint16 startX) (uint16 startY) ∈ result.
Proof.
  destruct (floodLoop_enough c centerX centerY CharacterHelper.floodTurns
    [mkPoint (uint16 startX) (uint16 startY)] visited) as [result Hrun].
  - apply Forall_cons_2; [|by apply Forall_nil].
    split; apply uint16_range.
  - pose proof (unvisited_le_9 centerX centerY visited).
    unfold CharacterHelper.floodTurns. cbn [length]. lia.
  - exists result. split; [done|].
    destruct (floodLoop_grows _ _ _ _ _ _ _ Hrun) as [Hsub Hst].
    split; [done|]. apply (Hst (mkPoint (uint16 startX) (uint16 startY))).
    apply list_elem_of_here.
Qed.


(** *** A drawn pixel is never a junction *)

(** A point whose coordinates lie below the surrogate range, so that its key
    is its pair of coordinates. *)
Definition plain (p : Point) : Prop :=
  0 <= X p < 55296 /\ 0 <= Y p < 55296.

Lemma pointKey_plain (p : Point) :
  plain p -> CharacterHelper.pointKey (X p) (Y p) = (X p, Y p).
Proof.
  intros [HX HY]. unfold CharacterHelper.pointKey, CharacterHelper.runeText.
  by rewrite !bool_decide_eq_false_2 by lia.
Qed.

Lemma pointKey_plain_inj (p q : Point) :
  plain p -> plain q ->
  CharacterHelper.pointKey (X p) (Y p) = CharacterHelper.pointKey (X q) (Y q) -> p = q.
Proof.
  intros Hp Hq. rewrite !pointKey_plain by done.
  destruct p, q. simpl. by intros [= -> ->].
Qed.

Lemma pushed_plain c point visited :
  Character.SizeX c <= 55296 -> Character.SizeY c <= 55296 ->
  Forall plain (CharacterHelper.pushed c point visited).
Proof.
  intros HX HY. apply Forall_forall.
  intros p (d & _ & Hp & H1 & H2 & _)%pushed_spec.
  pose proof (offset16_range (X point) d.1). pose proof (offset16_range (Y point) d.2).
  subst p. unfold plain. cbn [X Y] in *. lia.
Qed.

(** The ring around a window pixel the fill has marked is marked as far as
    it is foreground inside the raster. *)
Lemma floodLoop_closed (c : Character.Character) (centerX centerY : Z) (turns : nat) :
  Character.SizeX c <= 55296 -> Character.SizeY c <= 55296 ->
  forall stack visited result,
    Forall plain stack ->
    CharacterHelper.floodLoop turns c centerX centerY stack visited = Some result ->
    forall q, plain q ->
      CharacterHelper.pointKey (X q) (Y q) ∈ result ->
      CharacterHelper.pointKey (X q) (Y q) ∉ visited ->
      CharacterHelper.outsideWindow q centerX centerY = false ->
      forall d, d ∈ CharacterHelper.ring8 ->
        offset16 (X q) d.1 < Character.SizeX c ->
        offset16 (Y q) d.2 < Character.SizeY c ->
        Character.IsDrew c (offset16 (X q) d.1) (offset16 (Y q) d.2) = true ->
        CharacterHelper.pointKey (offset16 (X q) d.1) (offset16 (Y q) d.2) ∈ result.
Proof.
  intros HsX HsY.
  induction turns as [|t IH]; intros stack visited result Hstack Hrun; [done|].
  destruct stack as [|point stack].
  { injection Hrun as <-. intros q _ Hin Hout. by destruct Hout. }
  apply Forall_cons in Hstack as [Hpoint Hstack].
  cbn [CharacterHelper.floodLoop] in Hrun. cbv zeta in Hrun.
  case_bool_decide as Hseen; [by apply (IH _ _ _ Hstack Hrun)|].
  set (key := CharacterHelper.pointKey (X point) (Y point)) in *.
  intros q Hq Hin Hnew Hwin d Hd Hx Hy Hdrew.
  destruct (decide (CharacterHelper.pointKey (X q) (Y q) = key)) as [Hkey|Hkey].
  - apply pointKey_plain_inj in Hkey; [subst q|done|done].
    rewrite Hwin in Hrun.
    destruct (floodLoop_grows _ _ _ _ _ _ _ Hrun) as [Hsub Hst].
    set (n := mkPoint (offset16 (X point) d.1) (offset16 (Y point) d.2)).
    destruct (decide (CharacterHelper.pointKey (X n) (Y n) ∈ {[key]} ∪ visited))
      as [Hn|Hn]; [by apply Hsub|].
    apply (Hst n), elem_of_app. left. apply elem_of_rev, pushed_spec.
    by exists d.
  - assert (CharacterHelper.pointKey (X q) (Y q) ∉ {[key]} ∪ visited) as Hnew'.
    { intros [Hk%elem_of_singleton|Hk]%elem_of_union; done. }
    destruct (CharacterHelper.outsideWindow point centerX centerY).
    + by apply (IH _ _ _ Hstack Hrun q).
    + refine (IH _ _ _ _ Hrun q Hq Hin Hnew' Hwin d Hd Hx Hy Hdrew).
      apply Forall_app. split; [|done]. by apply Forall_rev, pushed_plain.
Qed.

Lemma window9_bounds (d : Z * Z) :
  d ∈ CharacterHelper.window9 <-> (-1 <= d.1 <= 1 /\ -1 <= d.2 <= 1).
Proof.
  split.
  - change CharacterHelper.window9
      with [(-1, -1); (-1, 0); (-1, 1); (0, -1); (0, 0); (0, 1); (1, -1); (1, 0); (1, 1)].
    intros H. repeat (apply elem_of_cons in H as [->|H]; [simpl; lia|]).
    by apply elem_of_nil in H.
  - destruct d as [dx dy]. intros [Hx Hy]. by apply window9_elem.
Qed.

Lemma ring8_elem (d : Z * Z) :
  d ∈ CharacterHelper.ring8 <-> (d ∈ CharacterHelper.window9 /\ d <> (0, 0)).
Proof.
  change CharacterHelper.window9
    with [(-1, -1); (-1, 0); (-1, 1); (0, -1); (0, 0); (0, 1); (1, -1); (1, 0); (1, 1)].
  change CharacterHelper.ring8
    with [(-1, -1); (-1, 0); (-1, 1); (0, -1); (0, 1); (1, -1); (1, 0); (1, 1)].
  split.
  - intros H.
    repeat (apply elem_of_cons in H as [->|H];
            [split; [|done];
             repeat first [apply list_elem_of_here | apply list_elem_of_further]|]).
    by apply elem_of_nil in H.
  - intros [H Hne].
    repeat (apply elem_of_cons in H as [->|H];
            [first [done
                   |repeat first [apply list_elem_of_here | apply list_elem_of_further]]|]).
    by apply elem_of_nil in H.
Qed.

Lemma diff16_diag (x : Z) : diff16 x x = 0.
Proof. unfold diff16. by rewrite Z.sub_diag. Qed.

Lemma offset16_zero (x : Z) : 0 <= x < 65536 -> offset16 x 0 = x.
Proof. intros Hx. rewrite offset16_mod. Z.div_mod_to_equations. lia. Qed.

Lemma offset16_back (x d : Z) :
  0 <= x < 65536 -> offset16 (offset16 x d) (- d) = x.
Proof. intros Hx. rewrite !offset16_mod. Z.div_mod_to_equations. lia. Qed.

(** The body of the window scan of [analyzeJunctionPattern]. *)
Definition scanStep (c : Character.Character) (x y : Z)
    (st : Z * gset (Z * Z)) (d : Z * Z) : Z * gset (Z * Z) :=
  let nx := offset16 x d.1 in
  let ny := offset16 y d.2 in
  if bool_decide (CharacterHelper.pointKey nx ny ∈ st.2)
     || bool_decide (nx >= Character.SizeX c) || bool_decide (ny >= Character.SizeY c)
     || negb (Character.IsDrew c nx ny)
  then st
  else (st.1 + 1, CharacterHelper.floodFillNeighborhood c nx ny x y st.2).

Lemma junctionScan_fold (c : Character.Character) (x y : Z) :
  CharacterHelper.junctionScan c x y
  = fold_left (scanStep c x y) CharacterHelper.window9 (0, ∅).
Proof. reflexivity. Qed.

(** A window pixel at which the scan may start a fill: a foreground pixel
    inside the raster. *)
Definition seedAt (c : Character.Character) (x y : Z) (d : Z * Z) : Prop :=
  offset16 x d.1 < Character.SizeX c /\ offset16 y d.2 < Character.SizeY c
  /\ Character.IsDrew c (offset16 x d.1) (offset16 y d.2) = true.

#[local] Instance seedAt_dec c x y d : Decision (seedAt c x y d).
Proof. unfold seedAt. apply _. Defined.

Lemma scanStep_skip (c : Character.Character) (x y : Z)
    (st : Z * gset (Z * Z)) (d : Z * Z) :
  (seedAt c x y d ->
   CharacterHelper.pointKey (offset16 x d.1) (offset16 y d.2) ∈ st.2) ->
  scanStep c x y st d = st.
Proof.
  intros Hskip. unfold scanStep. cbv zeta.
  destruct (bool_decide (_ ∈ st.2)) eqn:E1; [done|].
  destruct (bool_decide (_ >= Character.SizeX c)) eqn:E2; [done|].
  destruct (bool_decide (_ >= Character.SizeY c)) eqn:E3; [done|].
  destruct (Character.IsDrew c _ _) eqn:E4; [|done].
  apply bool_decide_eq_false in E1, E2, E3.
  destruct E1. apply Hskip. unfold seedAt. rewrite E4. lia.
Qed.

Lemma scanStep_fill (c : Character.Character) (x y : Z)
    (st : Z * gset (Z * Z)) (d : Z * Z) :
  seedAt c x y d ->
  CharacterHelper.pointKey (offset16 x d.1) (offset16 y d.2) ∉ st.2 ->
  scanStep c x y st d
  = (st.1 + 1,
     CharacterHelper.floodFillNeighborhood c (offset16 x d.1) (offset16 y d.2) x y st.2).
Proof.
  intros (H1 & H2 & H3) Hnew. unfold scanStep. cbv zeta.
  rewrite (bool_decide_eq_false_2 _ Hnew), H3.
  by rewrite !bool_decide_eq_false_2 by lia.
Qed.

Lemma scan_skips (c : Character.Character) (x y : Z) (l : list (Z * Z)) (st : Z * gset (Z * Z)) :
  (forall d, d ∈ l -> seedAt c x y d ->
     CharacterHelper.pointKey (offset16 x d.1) (offset16 y d.2) ∈ st.2) ->
  fold_left (scanStep c x y) l st = st.
Proof.
  induction l as [|d l IH]; intros Hskip; [done|].
  cbn [fold_left]. rewrite scanStep_skip.
  - apply IH. intros d' Hd'. apply Hskip. by apply list_elem_of_further.
  - apply Hskip, list_elem_of_here.
Qed.

Lemma first_split {A} (P : A -> Prop) `{!forall x, Decision (P x)} (l : list A) :
  Exists P l ->
  exists l1 a l2, l = l1 ++ a :: l2 /\ Forall (fun x => ~ P x) l1 /\ P a.
Proof.
  induction l as [|b l IH]; intros Hex; [by apply Exists_nil in Hex|].
  destruct (decide (P b)) as [Hb|Hb].
  - exists [], b, l. split; [done|]. split; [by apply Forall_nil|done].
  - apply Exists_cons in Hex as [Hex|Hex]; [done|].
    destruct (IH Hex) as (l1 & a & l2 & -> & Hl1 & Ha).
    exists (b :: l1), a, l2. split; [done|]. split; [|done].
    by apply Forall_cons_2.
Qed.

(** The fill started at the first seed of the window of a drawn pixel marks
    every seed of the window. *)
Lemma first_fill_marks_window (c : Character.Character) (x y : Z) (d : Z * Z)
    (result : gset (Z * Z)) :
  Character.SizeX c <= 55296 -> Character.SizeY c <= 55296 ->
  0 <= x < Character.SizeX c -> 0 <= y < Character.SizeY c ->
  Character.IsDrew c x y = true ->
  d ∈ CharacterHelper.window9 -> seedAt c x y d ->
  CharacterHelper.floodLoop CharacterHelper.floodTurns c x y
    [mkPoint (offset16 x d.1) (offset16 y d.2)] ∅ = Some result ->
  forall d', d' ∈ CharacterHelper.window9 -> seedAt c x y d' ->
    CharacterHelper.pointKey (offset16 x d'.1) (offset16 y d'.2) ∈ result.
Proof.
  intros HsX HsY Hx Hy Hdrew Hd (Hd1 & Hd2 & Hd3) Hrun.
  set (p := mkPoint (offset16 x d.1) (offset16 y d.2)) in *.
  set (centre := mkPoint x y).
  apply window9_bounds in Hd as Hbounds.
  pose proof (offset16_range x d.1). pose proof (offset16_range y d.2).
  assert (plain p) as Hp by (unfold plain, p; cbn [X Y]; lia).
  assert (plain centre) as Hc by (unfold plain, centre; cbn [X Y]; lia).
  assert (Forall plain [p]) as Hstack by (apply Forall_cons_2; [done|by apply Forall_nil]).
  destruct (floodLoop_grows _ _ _ _ _ _ _ Hrun) as [_ Hst].
  assert (CharacterHelper.pointKey (X p) (Y p) ∈ result) as Hpkey.
  { apply (Hst p), list_elem_of_here. }
  assert (CharacterHelper.outsideWindow p x y = false) as Hpwin.
  { unfold CharacterHelper.outsideWindow, p. cbn [X Y].
    rewrite !diff16_offset16 by lia.
    by rewrite !bool_decide_eq_false_2 by lia. }
  assert (CharacterHelper.outsideWindow centre x y = false) as Hcwin.
  { unfold CharacterHelper.outsideWindow, centre. cbn [X Y].
    by rewrite !diff16_diag. }
  assert (CharacterHelper.pointKey x y ∈ result) as Hckey.
  { destruct (decide (d = (0, 0))) as [->|Hne].
    - unfold p in Hpkey. cbn [X Y fst snd] in Hpkey.
      by rewrite !offset16_zero in Hpkey by lia.
    - pose proof (floodLoop_closed c x y _ HsX HsY _ _ _ Hstack Hrun p Hp Hpkey
        (not_elem_of_empty _) Hpwin (- d.1, - d.2)) as Hcl.
      unfold p in Hcl. cbn [X Y fst snd] in Hcl.
      rewrite !offset16_back in Hcl by lia.
      apply Hcl; [|lia|lia|done].
      apply ring8_elem. split; [apply window9_bounds; simpl; lia|].
      destruct d as [dx dy]. simpl. intros [= ? ?]. apply Hne. f_equal; lia. }
  intros d' Hd' (Hs1 & Hs2 & Hs3).
  destruct (decide (d' = (0, 0))) as [->|Hne'].
  - cbn [fst snd]. by rewrite !offset16_zero by lia.
  - apply (floodLoop_closed c x y _ HsX HsY _ _ _ Hstack Hrun centre Hc Hckey
      (not_elem_of_empty _) Hcwin d'); [|done|done|done].
    by apply ring8_elem.
Qed.

(** The window of a drawn pixel holds one component. *)
Lemma drawn_pixel_one_component (c : Character.Character) (x y : Z) :
  Character.SizeX c <= 55296 -> Character.SizeY c <= 55296 ->
  0 <= x < Character.SizeX c -> 0 <= y < Character.SizeY c ->
  Character.IsDrew c x y = true ->
  CharacterHelper.junctionComponents c x y = 1.
Proof.
  intros HsX HsY Hx Hy Hdrew.
  unfold CharacterHelper.junctionComponents. rewrite junctionScan_fold.
  destruct (first_split (seedAt c x y) CharacterHelper.window9)
    as (l1 & d & l2 & Hsplit & Hl1 & Hd).
  { apply Exists_exists. exists (0, 0). split; [by apply window9_elem|].
    unfold seedAt. cbn [fst snd]. rewrite !offset16_zero by lia. by repeat split; try lia. }
  assert (d ∈ CharacterHelper.window9) as Hdw.
  { rewrite Hsplit. apply elem_of_app. right. apply list_elem_of_here. }
  rewrite Hsplit, fold_left_app. cbn [fold_left].
  rewrite (scan_skips c x y l1).
  2:{ intros d' Hd' Hseed. by destruct (proj1 (Forall_forall _ _) Hl1 d' Hd'). }
  rewrite scanStep_fill; [|done|apply not_elem_of_empty].
  cbn [fst snd].
  destruct (floodLoop_enough c x y CharacterHelper.floodTurns
              [mkPoint (offset16 x d.1) (offset16 y d.2)] ∅) as [result Hrun].
  { apply Forall_cons_2; [|by apply Forall_nil]. split; apply offset16_range. }
  { pose proof (unvisited_le_9 x y ∅).
    unfold CharacterHelper.floodTurns. cbn [length]. lia. }
  unfold CharacterHelper.floodFillNeighborhood.
  rewrite Hrun. cbn [default].
  rewrite scan_skips; [done|].
  intros d' Hd' Hseed. cbn [snd].
  apply (first_fill_marks_window c x y d result); try done.
  rewrite Hsplit. apply elem_of_app. right. by apply list_elem_of_further.
Qed.

(** *** The candidates and what the filter makes of them *)

(** The anchor [detectCurvatureAnchors] appends for one contour point, if
    any. *)
Definition curvatureAnchorsAt (c : Character.Character) (curvatures : list R)
    (ip : nat * Point) : list Character.AnchorPoint :=
  let threshold := Character.CurvatureThreshold (Character.Config c) in
  let i := Z.of_nat ip.1 in
  let point := ip.2 in
  let curvature := CharacterHelper.valueAt curvatures i in
  if Rgtb curvature threshold && CharacterHelper.isCurvatureMax curvatures i
  then [Character.mkAnchor (mkPoint (X point) (Y point))
          (if Rgtb curvature (threshold * 2) then "sharp_corner" else "corner")
          (Rmin (curvature / PI) 1) curvature
          (CharacterHelper.computeDirectionAngle c point)]
  else [].

Lemma detectCurvatureAnchors_anchors (c : Character.Character)
    (contour : list Point) (curvatures : list R) :
  Character.AnchorPoints (CharacterHelper.detectCurvatureAnchors c contour curvatures)
  = Character.AnchorPoints c ++ (imap pair contour ≫= curvatureAnchorsAt c curvatures).
Proof.
  unfold CharacterHelper.detectCurvatureAnchors.
  apply (anchors_fold _ (curvatureAnchorsAt c curvatures) c); [|apply same_pixels_refl].
  intros c' ip Hsame. cbv zeta.
  rewrite (computeDirectionAngle_same c c') by done.
  unfold curvatureAnchorsAt. cbv zeta.
  destruct (_ && _).
  - split; [done|].
    eapply same_pixels_trans; [exact Hsame|apply same_pixels_setAnchorPoints].
  - split; [by rewrite app_nil_r|done].
Qed.

Lemma curvatureAnchorsAt_same c c' curvatures ip :
  same_pixels c c' ->
  curvatureAnchorsAt c' curvatures ip = curvatureAnchorsAt c curvatures ip.
Proof.
  intros Hsame. pose proof Hsame as (_ & _ & _ & _ & Hcfg & _).
  unfold curvatureAnchorsAt.
  by rewrite (computeDirectionAngle_same c c'), Hcfg.
Qed.

Lemma extractContourPoints_same c c' :
  same_pixels c c' ->
  CharacterHelper.extractContourPoints c' = CharacterHelper.extractContourPoints c.
Proof.
  intros (HD & HB & HX & HY & _).
  unfold CharacterHelper.extractContourPoints, CharacterHelper.isContour,
    Character.IsDrew.
  by rewrite HD, HB, HX, HY.
Qed.

(** The anchors the three detection steps put before the filter, in order. *)
Definition candidates (c : Character.Character) : list Character.AnchorPoint :=
  let contour := CharacterHelper.extractContourPoints c in
  let curvatures :=
    CharacterHelper.computeCurvatures contour
      (Character.MedialAxisEpsilon (Character.Config c)) in
  (imap pair contour ≫= curvatureAnchorsAt c curvatures)
  ++ (if Character.EnableJunctionDetection (Character.Config c)
      then Character.Draws c ≫= junctionAnchorsAt c else [])
  ++ (if bool_decide (size (Character.BoundingBox c) = 0%nat) then []
      else Character.Draws c ≫= extremumAnchorsAt c).

Lemma keepSeparated_nil (minDist : R) : CharacterHelper.keepSeparated minDist [] = [].
Proof. done. Qed.

(** The anchors a character with pixels is left with. *)
Lemma CharacterDetectAnchors_anchors (c : Character.Character) :
  Character.IsEmpty c = false ->
  Character.AnchorPoints (CharacterHelper.CharacterDetectAnchors c)
  = if (length (CharacterHelper.extractContourPoints c) <? 3)%nat then []
    else CharacterHelper.keepSeparated
           (Character.MinAnchorDistance (Character.Config c))
           (CharacterHelper.sortByStrength (candidates c)).
Proof.
  intros Hne. unfold CharacterHelper.CharacterDetectAnchors.
  rewrite Hne. cbv zeta.
  set (c0 := Character.ClearAnalysisResults c).
  assert (same_pixels c c0) as H0 by (by repeat split).
  assert (Character.AnchorPoints c0 = []) as HA0 by done.
  rewrite (extractContourPoints_same c c0 H0).
  change (Character.Config c0) with (Character.Config c).
  destruct (_ <? _)%nat; [done|].
  set (contour := CharacterHelper.extractContourPoints c).
  set (curvatures := CharacterHelper.computeCurvatures contour _).
  pose proof (detectCurvatureAnchors_anchors c0 contour curvatures) as HA1.
  pose proof (same_pixels_detectCurvatureAnchors c0 contour curvatures) as H1.
  set (c1 := CharacterHelper.detectCurvatureAnchors c0 contour curvatures) in *.
  clearbody c1.
  assert (same_pixels c c1) as H01 by (by eapply same_pixels_trans).
  pose proof H01 as (_ & _ & _ & _ & Hcfg1 & _). rewrite Hcfg1.
  set (c2 := if Character.EnableJunctionDetection _ then _ else c1).
  assert (same_pixels c c2 /\
          Character.AnchorPoints c2
          = Character.AnchorPoints c1
            ++ (if Character.EnableJunctionDetection (Character.Config c)
                then Character.Draws c ≫= junctionAnchorsAt c else [])) as [H02 HA2].
  { subst c2. destruct (Character.EnableJunctionDetection _).
    - split.
      + eapply same_pixels_trans; [exact H01|apply same_pixels_detectJunctionAnchors].
      + rewrite detectJunctionAnchors_anchors. f_equal.
        pose proof H01 as (-> & _).
        apply list_bind_ext; [|done]. intros p. by apply junctionAnchorsAt_same.
    - split; [done|by rewrite app_nil_r]. }
  clearbody c2.
  pose proof (detectExtremumAnchors_anchors c2) as HA3.
  pose proof (same_pixels_detectExtremumAnchors c2) as H3.
  set (c3 := CharacterHelper.detectExtremumAnchors c2) in *. clearbody c3.
  assert (same_pixels c c3) as H03 by (by eapply same_pixels_trans).
  assert (Character.AnchorPoints c3 = candidates c) as HA.
  { rewrite HA3, HA2, HA1, HA0. unfold candidates. cbv zeta.
    fold contour. fold curvatures. rewrite <- app_assoc. cbn [app].
    pose proof H02 as (HD2 & _ & _ & _ & _ & HB2). rewrite HD2, HB2.
    rewrite (list_bind_ext (curvatureAnchorsAt c0 curvatures)
               (curvatureAnchorsAt c curvatures) _ (imap pair contour)); [|
      intros ip; by apply curvatureAnchorsAt_same|done].
    rewrite (list_bind_ext (extremumAnchorsAt c2) (extremumAnchorsAt c)
               _ (Character.Draws c)); [done|
      intros p; by apply extremumAnchorsAt_same|done]. }
  unfold CharacterHelper.filterAnchors.
  pose proof H03 as (_ & _ & _ & _ & Hcfg3 & _).
  destruct (length (Character.AnchorPoints c3) =? 0)%nat eqn:Hlen.
  - apply Nat.eqb_eq in Hlen. rewrite <- HA.
    by destruct (Character.AnchorPoints c3).
  - simpl. by rewrite Hcfg3, HA.
Qed.

(** **** The sort *)

Lemma moveLeft_perm (anchor : Character.AnchorPoint) (prefix : list Character.AnchorPoint) :
  CharacterHelper.moveLeft anchor prefix ≡ₚ anchor :: prefix.
Proof.
  induction prefix as [|before rest IH]; [done|]. simpl.
  destruct (Rgtb _ _); [|done]. rewrite IH. apply perm_swap.
Qed.

Lemma sortByStrength_perm (anchors : list Character.AnchorPoint) :
  CharacterHelper.sortByStrength anchors ≡ₚ anchors.
Proof.
  unfold CharacterHelper.sortByStrength. rewrite <- Permutation_rev.
  assert (forall prefix,
    fold_left (fun prefix anchor => CharacterHelper.moveLeft anchor prefix) anchors prefix
    ≡ₚ prefix ++ anchors) as H.
  { induction anchors as [|a l IH]; intros prefix; [by rewrite app_nil_r|].
    cbn [fold_left]. rewrite IH, moveLeft_perm. simpl. apply Permutation_middle. }
  by rewrite H.
Qed.

(** No anchor is stronger than one that stands before it. *)
Definition weaker_first : relation Character.AnchorPoint :=
  fun a b => (Character.Strength a <= Character.Strength b)%R.

Definition stronger_first : relation Character.AnchorPoint :=
  fun a b => (Character.Strength b <= Character.Strength a)%R.

Lemma moveLeft_sorted (anchor : Character.AnchorPoint) (prefix : list Character.AnchorPoint) :
  StronglySorted weaker_first prefix ->
  StronglySorted weaker_first (CharacterHelper.moveLeft anchor prefix).
Proof.
  induction prefix as [|before rest IH]; intros Hs.
  - repeat constructor.
  - apply StronglySorted_inv in Hs as [Hrest Hall]. simpl.
    destruct (Rgtb _ _) eqn:E.
    + constructor; [by apply IH|].
      apply Forall_forall. intros b Hb.
      rewrite moveLeft_perm in Hb.
      apply elem_of_cons in Hb as [->|Hb].
      * unfold weaker_first. unfold Rgtb in E. apply Rltb_true in E. lra.
      * rewrite Forall_forall in Hall. by apply Hall.
    + constructor; [by constructor|].
      assert (weaker_first anchor before) as Hab.
      { unfold weaker_first. unfold Rgtb in E. apply Rltb_false in E. lra. }
      constructor; [done|].
      apply Forall_forall. intros b Hb. rewrite Forall_forall in Hall.
      specialize (Hall b Hb). unfold weaker_first in *. lra.
Qed.

Lemma StronglySorted_rev {A} (R : relation A) (l : list A) :
  StronglySorted R l -> StronglySorted (flip R) (rev l).
Proof.
  induction l as [|a l IH]; intros Hs; [constructor|].
  apply StronglySorted_inv in Hs as [Hl Hall]. simpl.
  assert (forall k, StronglySorted (flip R) k ->
            Forall (fun b => R a b) k -> StronglySorted (flip R) (k ++ [a])) as Hsnoc.
  { induction k as [|b k IHk]; intros Hk Hak; [repeat constructor|].
    apply StronglySorted_inv in Hk as [Hk Hb].
    apply Forall_cons in Hak as [Hab Hak]. simpl. constructor; [by apply IHk|].
    apply Forall_app. split; [done|]. by repeat constructor. }
  apply Hsnoc; [by apply IH|].
  apply Forall_forall. intros b Hb. rewrite elem_of_rev in Hb.
  rewrite Forall_forall in Hall. by apply Hall.
Qed.

Lemma sortByStrength_sorted (anchors : list Character.AnchorPoint) :
  StronglySorted stronger_first (CharacterHelper.sortByStrength anchors).
Proof.
  unfold CharacterHelper.sortByStrength.
  apply (StronglySorted_rev weaker_first).
  assert (forall prefix, StronglySorted weaker_first prefix ->
    StronglySorted weaker_first
      (fold_left (fun prefix anchor => CharacterHelper.moveLeft anchor prefix)
         anchors prefix)) as H.
  { induction anchors as [|a l IH]; intros prefix Hp; [done|].
    cbn [fold_left]. by apply IH, moveLeft_sorted. }
  apply H. constructor.
Qed.

(** **** The greedy loop keeps a sublist *)

Lemma keepSeparated_sublist (minDist : R) (anchors : list Character.AnchorPoint) :
  CharacterHelper.keepSeparated minDist anchors `sublist_of` anchors.
Proof.
  unfold CharacterHelper.keepSeparated.
  assert (forall filtered, exists kept,
    fold_left (fun filtered anchor =>
       if existsb (fun existing =>
            Rltb (CharacterHelper.anchorDist anchor existing) minDist) filtered
       then filtered else filtered ++ [anchor]) anchors filtered
    = filtered ++ kept /\ kept `sublist_of` anchors) as H.
  { induction anchors as [|a l IH]; intros filtered.
    - exists []. by rewrite app_nil_r.
    - cbn [fold_left]. destruct (existsb _ filtered).
      + destruct (IH filtered) as (kept & -> & Hsub).
        exists kept. split; [done|]. by apply sublist_cons.
      + destruct (IH (filtered ++ [a])) as (kept & -> & Hsub).
        exists (a :: kept). split; [by rewrite <- app_assoc|]. by apply sublist_skip. }
  destruct (H []) as (kept & -> & Hsub). done.
Qed.

Lemma StronglySorted_sublist {A} (R : relation A) (l k : list A) :
  l `sublist_of` k -> StronglySorted R k -> StronglySorted R l.
Proof.
  induction 1 as [|x l k Hsub IH|x l k Hsub IH]; intros Hs; [done|..].
  - apply StronglySorted_inv in Hs as [Hk Hall]. constructor; [by apply IH|].
    apply Forall_forall. intros b Hb. rewrite Forall_forall in Hall.
    apply Hall. by eapply elem_of_sublist.
  - apply StronglySorted_inv in Hs as [Hk _]. by apply IH.
Qed.

(** ** Angles *)

Lemma atan2_range (y x : R) : (- PI < atan2 y x <= PI)%R.
Proof.
  pose proof PI_RGT_0 as Hpi. unfold atan2.
  destruct (Rltb 0 x) eqn:E1.
  { pose proof (atan_bound (y / x)). lra. }
  destruct (Rltb x 0) eqn:E2.
  - apply Rltb_true in E2.
    assert (/ x < 0)%R as Hinv by (by apply Rinv_lt_0_compat).
    destruct (Rleb 0 y) eqn:E3.
    + apply Rleb_true in E3.
      assert (y / x <= 0)%R as Hq by (unfold Rdiv; nra).
      pose proof (atan_bound (y / x)).
      assert (atan (y / x) <= 0)%R.
      { destruct Hq as [Hq|Hq]; [|rewrite Hq, atan_0; lra].
        apply atan_increasing in Hq. rewrite atan_0 in Hq. lra. }
      lra.
    + apply Rleb_false in E3.
      assert (0 < y / x)%R as Hq by (unfold Rdiv; nra).
      pose proof (atan_bound (y / x)).
      apply atan_increasing in Hq. rewrite atan_0 in Hq. lra.
  - destruct (Rltb 0 y); [lra|]. destruct (Rltb y 0); lra.
Qed.


(** ** The curvature of a contour point *)

Lemma curvatureAt_range (contour : list Point) (epsilon : R) (i : Z) :
  (0 <= CharacterHelper.curvatureAt contour epsilon i <= PI)%R.
Proof.
  pose proof PI_RGT_0 as Hpi. unfold CharacterHelper.curvatureAt. cbv zeta.
  destruct (_ || _); [lra|].
  set (dot := if Rltb _ (-1) then _ else _). clearbody dot.
  pose proof (acos_bound dot) as Hacos.
  destruct (Rltb _ 0).
  - rewrite Rabs_Ropp, Rabs_pos_eq; lra.
  - rewrite Rabs_pos_eq; lra.
Qed.

Lemma computeCurvatures_range (contour : list Point) (epsilon : R) (i : Z) :
  (0 <= CharacterHelper.valueAt (CharacterHelper.computeCurvatures contour epsilon) i
   <= PI)%R.
Proof.
  pose proof PI_RGT_0 as Hpi.
  unfold CharacterHelper.valueAt, CharacterHelper.computeCurvatures.
  destruct (nth_in_or_default (Z.to_nat i)
    (map (CharacterHelper.curvatureAt contour epsilon)
       (seqZ 0 (Z.of_nat (length contour)))) 0%R) as [Hin| ->]; [|lra].
  apply in_map_iff in Hin as (j & <- & _). apply curvatureAt_range.
Qed.

(** **** Where the retained anchors come from *)

Lemma retained_is_candidate (c : Character.Character) (a : Character.AnchorPoint) :
  Character.IsEmpty c = false ->
  a ∈ Character.AnchorPoints (CharacterHelper.CharacterDetectAnchors c) ->
  a ∈ candidates c.
Proof.
  intros Hne Ha. rewrite (CharacterDetectAnchors_anchors c Hne) in Ha.
  destruct (_ <? _)%nat; [by apply elem_of_nil in Ha|].
  eapply elem_of_sublist in Ha; [|apply keepSeparated_sublist].
  by rewrite sortByStrength_perm in Ha.
Qed.

Lemma extractContourPoints_log (c : Character.Character) (p : Point) :
  p ∈ CharacterHelper.extractContourPoints c -> p ∈ Character.Draws c.
Proof.
  unfold CharacterHelper.extractContourPoints.
  intros (q & Hq & Hp)%list_elem_of_omap.
  destruct (CharacterHelper.isContour _ _ _); [|done].
  injection Hp as <-. by destruct q.
Qed.

(** The three sources of a candidate. *)
Lemma candidates_inv (c : Character.Character) (a : Character.AnchorPoint) :
  a ∈ candidates c ->
  (exists i p, CharacterHelper.extractContourPoints c !! i = Some p
     /\ a ∈ curvatureAnchorsAt c
              (CharacterHelper.computeCurvatures (CharacterHelper.extractContourPoints c)
                 (Character.MedialAxisEpsilon (Character.Config c))) (i, p))
  \/ (Character.EnableJunctionDetection (Character.Config c) = true
      /\ exists p, p ∈ Character.Draws c /\ a ∈ junctionAnchorsAt c p)
  \/ (exists p, p ∈ Character.Draws c /\ a ∈ extremumAnchorsAt c p).
Proof.
  unfold candidates. cbv zeta.
  intros [Ha|[Ha|Ha]%elem_of_app]%elem_of_app.
  - left. apply list_elem_of_bind in Ha as (ip & Ha & Hip).
    apply elem_of_lookup_imap_1 in Hip as (i & p & -> & Hp). by exists i, p.
  - right. left. destruct (Character.EnableJunctionDetection _);
      [|by apply elem_of_nil in Ha].
    split; [done|]. apply list_elem_of_bind in Ha as (p & Ha & Hp). by exists p.
  - right. right. case_bool_decide; [by apply elem_of_nil in Ha|].
    apply list_elem_of_bind in Ha as (p & Ha & Hp). by exists p.
Qed.

Lemma curvatureAnchorsAt_inv c curvatures ip a :
  a ∈ curvatureAnchorsAt c curvatures ip ->
  let threshold := Character.CurvatureThreshold (Character.Config c) in
  Character.Point_ a = mkPoint (X ip.2) (Y ip.2)
  /\ Character.Angle a = CharacterHelper.computeDirectionAngle c ip.2
  /\ Character.Curvature a = CharacterHelper.valueAt curvatures (Z.of_nat ip.1)
  /\ (Character.Curvature a > threshold)%R
  /\ Character.Strength a = Rmin (Character.Curvature a / PI) 1
  /\ ((Character.Type_ a = "sharp_corner"
       /\ (Character.Curvature a > threshold * 2)%R)
      \/ (Character.Type_ a = "corner"
          /\ (Character.Curvature a <= threshold * 2)%R)).
Proof.
  unfold curvatureAnchorsAt. cbv zeta.
  destruct (Rgtb _ _) eqn:E; cbn [andb]; [|by intros ?%elem_of_nil].
  destruct (CharacterHelper.isCurvatureMax _ _); [|by intros ?%elem_of_nil].
  intros ->%list_elem_of_singleton. cbn.
  apply Rgtb_true in E.
  split; [done|]. split; [done|]. split; [done|]. split; [done|]. split; [done|].
  destruct (Rgtb _ (_ * 2)) eqn:E2.
  - left. apply Rgtb_true in E2. done.
  - right. unfold Rgtb in E2. apply Rltb_false in E2. done.
Qed.

Lemma junctionAnchorsAt_inv c p a :
  a ∈ junctionAnchorsAt c p ->
  Character.Point_ a = mkPoint (X p) (Y p)
  /\ Character.Angle a = CharacterHelper.computeDirectionAngle c p
  /\ Character.Type_ a = "junction"
  /\ Character.Strength a = CharacterHelper.analyzeJunctionPattern c (X p) (Y p)
  /\ (Character.Strength a
      > Character.AnchorDetectionThreshold (Character.Config c))%R.
Proof.
  unfold junctionAnchorsAt. cbv zeta.
  destruct (Rgtb _ _) eqn:E; [|by intros ?%elem_of_nil].
  intros ->%list_elem_of_singleton. cbn.
  apply Rgtb_true in E. done.
Qed.

Lemma extremumAnchorsAt_inv c p a :
  a ∈ extremumAnchorsAt c p ->
  Character.Point_ a = mkPoint (X p) (Y p)
  /\ Character.Angle a = CharacterHelper.computeDirectionAngle c p
  /\ Character.Strength a = 0.8%R
  /\ ((Character.Type_ a = "extremum_left" /\ X p = Character.bb c "minX")
      \/ (Character.Type_ a = "extremum_right" /\ X p = Character.bb c "maxX")
      \/ (Character.Type_ a = "extremum_top" /\ Y p = Character.bb c "minY")
      \/ (Character.Type_ a = "extremum_bottom" /\ Y p = Character.bb c "maxY")).
Proof.
  unfold extremumAnchorsAt. cbv zeta.
  intros [Ha|[Ha|[Ha|Ha]%elem_of_app]%elem_of_app]%elem_of_app;
    case_bool_decide; try (by apply elem_of_nil in Ha);
    apply list_elem_of_singleton in Ha as ->; cbn; repeat split; tauto.
Qed.

(** After [CharacterDetectAnchors] on a character with pixels the anchors
    stand in the order of the sort: no anchor is stronger than one before
    it. *)
Theorem retained_anchors_strongest_first (c : Character.Character) :
  Character.IsEmpty c = false ->
  StronglySorted stronger_first
    (Character.AnchorPoints (CharacterHelper.CharacterDetectAnchors c)).
Proof.
  intros Hne. rewrite (CharacterDetectAnchors_anchors c Hne).
  destruct (_ <? _)%nat; [constructor|].
  eapply StronglySorted_sublist; [apply keepSeparated_sublist|].
  apply sortByStrength_sorted.
Qed.

Lemma retained_anchors_strongest_first_witness :
  Character.IsEmpty three_pixels = false
  /\ StronglySorted stronger_first
       (Character.AnchorPoints (CharacterHelper.CharacterDetectAnchors three_pixels)).
Proof.
  split; [vm_compute; reflexivity|].
  apply (retained_anchors_strongest_first three_pixels).
  vm_compute; reflexivity.
Defined.

(** The type names [CharacterDetectAnchors] gives its anchors. *)
Definition anchorTypes : list string :=
  ["sharp_corner"; "corner"; "junction";
   "extremum_left"; "extremum_right"; "extremum_top"; "extremum_bottom"].

Lemma computeDirectionAngle_range (c : Character.Character) (p : Point) :
  (- PI < CharacterHelper.computeDirectionAngle c p <= PI)%R.
Proof. unfold CharacterHelper.computeDirectionAngle. apply atan2_range. Qed.

(** Every anchor [CharacterDetectAnchors] leaves on a character with pixels
    sits on a pixel of the draw log, carries one of the seven type names,
    and has a direction angle in (-pi, pi]. *)
Theorem retained_anchors_on_logged_pixels (c : Character.Character) :
  Character.IsEmpty c = false ->
  Forall (fun a => Character.Point_ a ∈ Character.Draws c
                   /\ Character.Type_ a ∈ anchorTypes
                   /\ (- PI < Character.Angle a <= PI)%R)
    (Character.AnchorPoints (CharacterHelper.CharacterDetectAnchors c)).
Proof.
  intros Hne. apply Forall_forall. intros a Ha.
  apply (retained_is_candidate c a Hne) in Ha.
  assert (forall p : Point, mkPoint (X p) (Y p) = p) as Heta by (by intros []).
  apply candidates_inv in Ha as [(i & p & Hp & Ha)|[(_ & p & Hp & Ha)|(p & Hp & Ha)]].
  - apply curvatureAnchorsAt_inv in Ha as (-> & -> & _ & _ & _ & Hty).
    cbn [fst snd]. rewrite Heta.
    split; [by eapply extractContourPoints_log, list_elem_of_lookup_2|].
    split; [|apply computeDirectionAngle_range].
    unfold anchorTypes. destruct Hty as [[-> _]|[-> _]];
      repeat first [apply list_elem_of_here | apply list_elem_of_further].
  - apply junctionAnchorsAt_inv in Ha as (-> & -> & -> & _). rewrite Heta.
    split; [done|]. split; [|apply computeDirectionAngle_range].
    repeat first [apply list_elem_of_here | apply list_elem_of_further].
  - apply extremumAnchorsAt_inv in Ha as (-> & -> & _ & Hty). rewrite Heta.
    split; [done|]. split; [|apply computeDirectionAngle_range].
    destruct Hty as [[-> _]|[[-> _]|[[-> _]|[-> _]]]];
      repeat first [apply list_elem_of_here | apply list_elem_of_further].
Qed.

Lemma retained_anchors_on_logged_pixels_witness :
  Character.IsEmpty three_pixels = false
  /\ Forall (fun a => Character.Point_ a ∈ Character.Draws three_pixels
                      /\ Character.Type_ a ∈ anchorTypes
                      /\ (- PI < Character.Angle a <= PI)%R)
       (Character.AnchorPoints (CharacterHelper.CharacterDetectAnchors three_pixels)).
Proof.
  split; [vm_compute; reflexivity|].
  apply (retained_anchors_on_logged_pixels three_pixels).
  vm_compute; reflexivity.
Defined.

(** A positive junction strength is that of at least three components. *)
Lemma junction_strength_positive (c : Character.Character) (x y : Z) :
  (0 < CharacterHelper.analyzeJunctionPattern c x y)%R ->
  CharacterHelper.junctionComponents c x y >= 3.
Proof.
  unfold CharacterHelper.analyzeJunctionPattern.
  generalize (CharacterHelper.junctionComponents c x y). intros n. cbv zeta.
  case_bool_decide; [done|lra].
Qed.

(** The predicate of [retained_anchors_by_type]: what the type of an anchor
    says about its other fields. *)
Definition typed (c : Character.Character) (a : Character.AnchorPoint) : Prop :=
  let x := X (Character.Point_ a) in
  let y := Y (Character.Point_ a) in
  let threshold := Character.CurvatureThreshold (Character.Config c) in
  let corner :=
    Character.Strength a = Rmin (Character.Curvature a / PI) 1
    /\ (0 <= Character.Strength a <= 1)%R
    /\ (0 <= Character.Curvature a <= PI)%R
    /\ (Character.Curvature a > threshold)%R in
  (Character.Type_ a = "sharp_corner" ->
     corner /\ (Character.Curvature a > threshold * 2)%R)
  /\ (Character.Type_ a = "corner" ->
        corner /\ (Character.Curvature a <= threshold * 2)%R)
  /\ (Character.Type_ a = "junction" ->
        Character.EnableJunctionDetection (Character.Config c) = true
        /\ Character.Strength a = CharacterHelper.analyzeJunctionPattern c x y
        /\ (Character.Strength a
            > Character.AnchorDetectionThreshold (Character.Config c))%R
        /\ ((0 <= Character.AnchorDetectionThreshold (Character.Config c))%R ->
            CharacterHelper.junctionComponents c x y >= 3))
  /\ (Character.Type_ a = "extremum_left" ->
        Character.Strength a = 0.8%R /\ x = Character.bb c "minX")
  /\ (Character.Type_ a = "extremum_right" ->
        Character.Strength a = 0.8%R /\ x = Character.bb c "maxX")
  /\ (Character.Type_ a = "extremum_top" ->
        Character.Strength a = 0.8%R /\ y = Character.bb c "minY")
  /\ (Character.Type_ a = "extremum_bottom" ->
        Character.Strength a = 0.8%R /\ y = Character.bb c "maxY").

Lemma corner_strength (curvature : R) :
  (0 <= curvature <= PI)%R -> (0 <= Rmin (curvature / PI) 1 <= 1)%R.
Proof.
  intros Hk. pose proof PI_RGT_0 as Hpi.
  assert (0 <= curvature / PI)%R.
  { apply Rmult_le_pos; [lra|]. left. by apply Rinv_0_lt_compat. }
  unfold Rmin. destruct (Rle_dec _ _); lra.
Qed.

(** What the type of a retained anchor says.  A corner anchor has a
    curvature in [0, pi] above the curvature threshold and the strength
    min(curvature / pi, 1), in [0, 1]; it is sharp exactly when the curvature
    exceeds twice the threshold.  A junction anchor was made with junction
    detection enabled, and its strength is the junction strength of its
    pixel, above the detection threshold; with a threshold that is not
    negative the 3x3 window of the pixel holds at least three components.
    An extremum anchor has strength 0.8 and lies on the side of the bounding
    box its type names. *)
Theorem retained_anchors_by_type (c : Character.Character) :
  Character.IsEmpty c = false ->
  Forall (typed c)
    (Character.AnchorPoints (CharacterHelper.CharacterDetectAnchors c)).
Proof.
  intros Hne. apply Forall_forall. intros a Ha. unfold typed. cbv zeta.
  apply (retained_is_candidate c a Hne) in Ha.
  apply candidates_inv in Ha as [(i & p & Hp & Ha)|[(Hen & p & Hp & Ha)|(p & Hp & Ha)]].
  - apply curvatureAnchorsAt_inv in Ha as (_ & _ & Hk & Hgt & Hst & Hty).
    cbv zeta in Hgt, Hty. cbn [fst] in Hk.
    pose proof (computeCurvatures_range (CharacterHelper.extractContourPoints c)
      (Character.MedialAxisEpsilon (Character.Config c)) (Z.of_nat i)) as Hrange.
    rewrite <- Hk in Hrange.
    pose proof (corner_strength _ Hrange) as Hs. rewrite <- Hst in Hs.
    repeat apply conj; intros Heq;
      destruct Hty as [[Hty Hcmp]|[Hty Hcmp]]; rewrite Heq in Hty; done.
  - apply junctionAnchorsAt_inv in Ha as (HP & _ & Hty & Hst & Hgt).
    rewrite HP. cbn [X Y].
    apply conj; [intros Heq; by rewrite Heq in Hty|].
    apply conj; [intros Heq; by rewrite Heq in Hty|].
    apply conj; [|repeat apply conj; intros Heq; by rewrite Heq in Hty].
    intros _. split; [done|]. split; [done|]. split; [done|].
    intros Hthr. rewrite Hst in Hgt.
    apply junction_strength_positive. lra.
  - apply extremumAnchorsAt_inv in Ha as (HP & _ & Hst & Hty).
    rewrite HP. cbn [X Y].
    repeat apply conj; intros Heq; try (split; [done|]);
      destruct Hty as [[H1 H2]|[[H1 H2]|[[H1 H2]|[H1 H2]]]];
      rewrite Heq in H1; done.
Qed.

Lemma retained_anchors_by_type_witness :
  Character.IsEmpty three_pixels = false
  /\ Forall (typed three_pixels)
       (Character.AnchorPoints (CharacterHelper.CharacterDetectAnchors three_pixels)).
Proof.
  split; [vm_compute; reflexivity|].
  apply (retained_anchors_by_type three_pixels).
  vm_compute; reflexivity.
Defined.

(** On a raster below the surrogate range, with a detection threshold that is
    not negative, a character whose log entries are all foreground pixels of
    the raster gets no junction anchor: the window scan counts the centre
    pixel itself, so all the foreground of the window is one component. *)
Theorem no_junction_anchor_on_foreground (c : Character.Character) :
  Character.IsEmpty c = false ->
  Character.SizeX c <= 55296 -> Character.SizeY c <= 55296 ->
  (0 <= Character.AnchorDetectionThreshold (Character.Config c))%R ->
  Forall (fun p => 0 <= X p < Character.SizeX c /\ 0 <= Y p < Character.SizeY c
                   /\ Character.IsDrew c (X p) (Y p) = true) (Character.Draws c) ->
  Forall (fun a => Character.Type_ a <> "junction")
    (Character.AnchorPoints (CharacterHelper.CharacterDetectAnchors c)).
Proof.
  intros Hne HsX HsY Hthr Hlog.
  rewrite Forall_forall in Hlog. apply Forall_forall.
  intros a Ha Hj. apply (retained_is_candidate c a Hne) in Ha.
  apply candidates_inv in Ha as [(i & p & Hp & Ha)|[(_ & p & Hp & Ha)|(p & Hp & Ha)]].
  - apply curvatureAnchorsAt_inv in Ha as (_ & _ & _ & _ & _ & Hty).
    rewrite Hj in Hty. by destruct Hty as [[? _]|[? _]].
  - apply junctionAnchorsAt_inv in Ha as (_ & _ & _ & Hst & Hgt).
    destruct (Hlog p Hp) as (Hx & Hy & Hdrew).
    assert (CharacterHelper.junctionComponents c (X p) (Y p) >= 3) as Hcount.
    { apply junction_strength_positive. rewrite <- Hst. lra. }
    rewrite (drawn_pixel_one_component c _ _ HsX HsY Hx Hy Hdrew) in Hcount. lia.
  - apply extremumAnchorsAt_inv in Ha as (_ & _ & _ & Hty).
    rewrite Hj in Hty. by destruct Hty as [[? _]|[[? _]|[[? _]|[? _]]]].
Qed.

Lemma no_junction_anchor_witness :
  Character.IsEmpty three_pixels = false
  /\ Character.SizeX three_pixels <= 55296 /\ Character.SizeY three_pixels <= 55296
  /\ (0 <= Character.AnchorDetectionThreshold (Character.Config three_pixels))%R
  /\ Forall (fun p => 0 <= X p < Character.SizeX three_pixels
                      /\ 0 <= Y p < Character.SizeY three_pixels
                      /\ Character.IsDrew three_pixels (X p) (Y p) = true)
       (Character.Draws three_pixels)
  /\ Forall (fun a => Character.Type_ a <> "junction")
       (Character.AnchorPoints (CharacterHelper.CharacterDetectAnchors three_pixels)).
Proof.
  assert (Character.IsEmpty three_pixels = false) as H1 by (vm_compute; reflexivity).
  assert (Character.SizeX three_pixels <= 55296) as H2 by (vm_compute; discriminate).
  assert (Character.SizeY three_pixels <= 55296) as H3 by (vm_compute; discriminate).
  assert (0 <= Character.AnchorDetectionThreshold (Character.Config three_pixels))%R
    as H4 by (change (0 <= 0.7)%R; lra).
  assert (Forall (fun p => 0 <= X p < Character.SizeX three_pixels
                           /\ 0 <= Y p < Character.SizeY three_pixels
                           /\ Character.IsDrew three_pixels (X p) (Y p) = true)
            (Character.Draws three_pixels)) as H5.
  { change (Character.Draws three_pixels) with [mkPoint 0 0; mkPoint 3 0; mkPoint 1 1].
    repeat (apply Forall_cons_2;
            [repeat split; vm_compute; first [reflexivity | discriminate]|]).
    by apply Forall_nil. }
  repeat split; try assumption.
  exact (no_junction_anchor_on_foreground three_pixels H1 H2 H3 H4 H5).
Defined.

(** On a raster below the surrogate range the junction test of a foreground
    pixel finds one component and the strength 0: it counts the pixel
    itself, which joins everything in its window. *)
Theorem junction_strength_zero_on_foreground (c : Character.Character) (x y : Z) :
  Character.SizeX c <= 55296 -> Character.SizeY c <= 55296 ->
  0 <= x < Character.SizeX c -> 0 <= y < Character.SizeY c ->
  Character.IsDrew c x y = true ->
  CharacterHelper.junctionComponents c x y = 1
  /\ CharacterHelper.analyzeJunctionPattern c x y = 0%R.
Proof.
  intros HsX HsY Hx Hy Hdrew.
  pose proof (drawn_pixel_one_component c x y HsX HsY Hx Hy Hdrew) as Hone.
  split; [done|].
  unfold CharacterHelper.analyzeJunctionPattern. rewrite Hone. cbv zeta.
  by rewrite bool_decide_eq_false_2 by lia.
Qed.

Lemma junction_strength_zero_witness :
  Character.SizeX three_pixels <= 55296 /\ Character.SizeY three_pixels <= 55296
  /\ 0 <= 1 < Character.SizeX three_pixels /\ 0 <= 1 < Character.SizeY three_pixels
  /\ Character.IsDrew three_pixels 1 1 = true
  /\ CharacterHelper.junctionComponents three_pixels 1 1 = 1
  /\ CharacterHelper.analyzeJunctionPattern three_pixels 1 1 = 0%R.
Proof.
  assert (Character.SizeX three_pixels <= 55296) as H1 by (vm_compute; discriminate).
  assert (Character.SizeY three_pixels <= 55296) as H2 by (vm_compute; discriminate).
  assert (0 <= 1 < Character.SizeX three_pixels) as H3
    by (split; vm_compute; first [reflexivity | discriminate]).
  assert (0 <= 1 < Character.SizeY three_pixels) as H4
    by (split; vm_compute; first [reflexivity | discriminate]).
  assert (Character.IsDrew three_pixels 1 1 = true) as H5 by (vm_compute; reflexivity).
  split; [done|]. split; [done|]. split; [done|]. split; [done|]. split; [done|].
  exact (junction_strength_zero_on_foreground three_pixels 1 1 H1 H2 H3 H4 H5).
Defined.

(** **** What anchor detection does to the other analysis results *)

(** [c'] has the regions, medial axis, skeleton branches and moments of [c]. *)
Definition same_analysis (c c' : Character.Character) : Prop :=
  Character.Regions c' = Character.Regions c
  /\ Character.MedialAxis c' = Character.MedialAxis c
  /\ Character.SkeletonBranches c' = Character.SkeletonBranches c
  /\ Character.Moments c' = Character.Moments c.

Lemma same_analysis_refl c : same_analysis c c.
Proof. by repeat split. Qed.

Lemma same_analysis_trans c1 c2 c3 :
  same_analysis c1 c2 -> same_analysis c2 c3 -> same_analysis c1 c3.
Proof.
  intros (A1 & A2 & A3 & A4) (B1 & B2 & B3 & B4). repeat split; congruence.
Qed.

Lemma same_analysis_fold {A} (f : Character.Character -> A -> Character.Character)
    (l : list A) (c : Character.Character) :
  (forall c a, same_analysis c (f c a)) -> same_analysis c (fold_left f l c).
Proof.
  intros Hf. revert c. induction l as [|a l IH]; intros c; simpl.
  - apply same_analysis_refl.
  - eapply same_analysis_trans; [apply Hf|apply IH].
Qed.

Lemma same_analysis_setAnchorPoints c anchors :
  same_analysis c (Character.setAnchorPoints c anchors).
Proof. by repeat split. Qed.

Lemma same_analysis_addIf cond anchorType point c :
  same_analysis c (CharacterHelper.addIf cond anchorType point c).
Proof.
  unfold CharacterHelper.addIf.
  destruct cond; [apply same_analysis_setAnchorPoints|apply same_analysis_refl].
Qed.

Lemma same_analysis_detectCurvatureAnchors c contour curvatures :
  same_analysis c (CharacterHelper.detectCurvatureAnchors c contour curvatures).
Proof.
  unfold CharacterHelper.detectCurvatureAnchors.
  generalize (Character.CurvatureThreshold (Character.Config c)). intros threshold.
  apply same_analysis_fold. intros c' ip.
  destruct (_ && _); [apply same_analysis_setAnchorPoints|apply same_analysis_refl].
Qed.

Lemma same_analysis_detectJunctionAnchors c :
  same_analysis c (CharacterHelper.detectJunctionAnchors c).
Proof.
  unfold CharacterHelper.detectJunctionAnchors.
  apply same_analysis_fold. intros c' p.
  destruct (Rgtb _ _); [apply same_analysis_setAnchorPoints|apply same_analysis_refl].
Qed.

Lemma same_analysis_detectExtremumAnchors c :
  same_analysis c (CharacterHelper.detectExtremumAnchors c).
Proof.
  unfold CharacterHelper.detectExtremumAnchors.
  case_bool_decide; [apply same_analysis_refl|].
  apply same_analysis_fold. intros c' p.
  repeat (eapply same_analysis_trans; [|apply same_analysis_addIf]).
  apply same_analysis_refl.
Qed.

Lemma same_analysis_filterAnchors c :
  same_analysis c (CharacterHelper.filterAnchors c).
Proof.
  unfold CharacterHelper.filterAnchors.
  destruct (_ =? _)%nat; [apply same_analysis_refl|apply same_analysis_setAnchorPoints].
Qed.

(** The steps after [ClearAnalysisResults] write anchors only. *)
Lemma same_analysis_detection (c : Character.Character) (contour : list Point)
    (curvatures : list R) :
  same_analysis c
    (CharacterHelper.filterAnchors
       (CharacterHelper.detectExtremumAnchors
          (let c1 := CharacterHelper.detectCurvatureAnchors c contour curvatures in
           if Character.EnableJunctionDetection (Character.Config c1)
           then CharacterHelper.detectJunctionAnchors c1 else c1))).
Proof.
  cbv zeta.
  eapply same_analysis_trans; [|apply same_analysis_filterAnchors].
  eapply same_analysis_trans; [|apply same_analysis_detectExtremumAnchors].
  eapply same_analysis_trans; [apply same_analysis_detectCurvatureAnchors|].
  destruct (Character.EnableJunctionDetection _);
    [apply same_analysis_detectJunctionAnchors|apply same_analysis_refl].
Qed.

(** [CharacterDetectAnchors] never touches the pixels, the log, the size, the
    configuration or the bounding box.  A character without log entries is
    returned as it is, stale anchors included; on any other character the
    regions, the medial axis, the skeleton branches and the moments computed
    before are discarded, and with fewer than three contour points no anchor
    is left either. *)
Theorem CharacterDetectAnchors_frame (c : Character.Character) :
  let c' := CharacterHelper.CharacterDetectAnchors c in
  (Character.Draws c' = Character.Draws c
   /\ Character.Bitmap c' = Character.Bitmap c
   /\ Character.SizeX c' = Character.SizeX c
   /\ Character.SizeY c' = Character.SizeY c
   /\ Character.Config c' = Character.Config c
   /\ Character.BoundingBox c' = Character.BoundingBox c)
  /\ if Character.IsEmpty c then c' = c
     else Character.Regions c' = [] /\ Character.MedialAxis c' = []
          /\ Character.SkeletonBranches c' = ∅ /\ Character.Moments c' = ∅
          /\ ((length (CharacterHelper.extractContourPoints c) < 3)%nat ->
              Character.AnchorPoints c' = []).
Proof.
  cbv zeta. split; [apply same_pixels_CharacterDetectAnchors|].
  destruct (Character.IsEmpty c) eqn:Hne.
  { unfold CharacterHelper.CharacterDetectAnchors. by rewrite Hne. }
  assert ((length (CharacterHelper.extractContourPoints c) < 3)%nat ->
          Character.AnchorPoints (CharacterHelper.CharacterDetectAnchors c) = []) as Hfew.
  { intros Hlt. rewrite (CharacterDetectAnchors_anchors c Hne).
    by rewrite (proj2 (Nat.ltb_lt _ _) Hlt). }
  unfold CharacterHelper.CharacterDetectAnchors in *. rewrite Hne in *.
  cbv zeta in *.
  set (c0 := Character.ClearAnalysisResults c) in *.
  destruct (_ <? _)%nat; [by repeat split|].
  pose proof (same_analysis_detection c0 (CharacterHelper.extractContourPoints c0)
    (CharacterHelper.computeCurvatures (CharacterHelper.extractContourPoints c0)
       (Character.MedialAxisEpsilon (Character.Config c0)))) as (H1 & H2 & H3 & H4).
  cbv zeta in H1, H2, H3, H4. by repeat split.
Qed.

(** *** Adjacency of regions *)

Lemma ring8_opposite (d : Z * Z) :
  d ∈ CharacterHelper.ring8 -> (- d.1, - d.2) ∈ CharacterHelper.ring8.
Proof.
  intros [Hw Hne]%ring8_elem. apply ring8_elem.
  apply window9_bounds in Hw. split; [apply window9_bounds; simpl; lia|].
  destruct d as [dx dy]. simpl in *. intros [= ? ?]. apply Hne. f_equal; lia.
Qed.

Lemma regionsAreAdjacent_spec (reg1 reg2 : Region.Region) :
  CharacterCalculate.regionsAreAdjacent reg1 reg2 = true
  <-> exists p d, p ∈ Region.Draws reg1 /\ d ∈ CharacterHelper.ring8
        /\ Region.IsDrew reg2 (offset16 (X p) d.1) (offset16 (Y p) d.2) = true.
Proof.
  unfold CharacterCalculate.regionsAreAdjacent. rewrite existsb_exists. split.
  - intros (p & Hp & Hd). apply existsb_exists in Hd as (d & Hd & Hdrew).
    exists p, d. by rewrite <- !list_elem_of_In in *.
  - intros (p & d & Hp & Hd & Hdrew). exists p. split; [by apply list_elem_of_In|].
    apply existsb_exists. exists d. split; [by apply list_elem_of_In|done].
Qed.

Lemma adjacent_back (reg1 reg2 : Region.Region) :
  log_is_foreground reg1 -> log_is_foreground reg2 ->
  Forall inRange (Region.Draws reg1) ->
  CharacterCalculate.regionsAreAdjacent reg1 reg2 = true ->
  CharacterCalculate.regionsAreAdjacent reg2 reg1 = true.
Proof.
  intros Hlog1 Hlog2 Hrange (p & d & Hp & Hd & Hdrew)%regionsAreAdjacent_spec.
  apply regionsAreAdjacent_spec.
  exists (mkPoint (offset16 (X p) d.1) (offset16 (Y p) d.2)), (- d.1, - d.2).
  split; [by apply Hlog2|]. split; [by apply ring8_opposite|].
  rewrite Forall_forall in Hrange. destruct (Hrange p Hp) as [HX HY].
  cbn [X Y fst snd]. rewrite !offset16_back by done.
  apply Hlog1. by destruct p.
Qed.

(** Between two regions built with [Draw] alone, with [uint16] coordinates,
    adjacency does not depend on the order of the two: the one has a log
    entry with a neighbour in the other exactly when the other has one with a
    neighbour in the first. *)
Theorem regionsAreAdjacent_symmetric (reg1 reg2 : Region.Region) :
  log_is_foreground reg1 -> log_is_foreground reg2 ->
  Forall inRange (Region.Draws reg1) -> Forall inRange (Region.Draws reg2) ->
  CharacterCalculate.regionsAreAdjacent reg1 reg2
  = CharacterCalculate.regionsAreAdjacent reg2 reg1.
Proof.
  intros Hlog1 Hlog2 Hr1 Hr2.
  destruct (CharacterCalculate.regionsAreAdjacent reg1 reg2) eqn:E12;
    destruct (CharacterCalculate.regionsAreAdjacent reg2 reg1) eqn:E21; try done.
  - apply adjacent_back in E12; [congruence|done..].
  - apply adjacent_back in E21; [congruence|done..].
Qed.

Lemma regionsAreAdjacent_witness :
  CharacterCalculate.regionsAreAdjacent
    (Region.Draw (Region.NewRegion 5 5) 1 1) (Region.Draw (Region.NewRegion 5 5) 2 2)
  = CharacterCalculate.regionsAreAdjacent
      (Region.Draw (Region.NewRegion 5 5) 2 2) (Region.Draw (Region.NewRegion 5 5) 1 1).
Proof.
  apply regionsAreAdjacent_symmetric.
  - apply (drawAll_log_is_foreground (Region.NewRegion 5 5) [mkPoint 1 1]).
    apply NewRegion_log_is_foreground.
  - apply (drawAll_log_is_foreground (Region.NewRegion 5 5) [mkPoint 2 2]).
    apply NewRegion_log_is_foreground.
  - apply Forall_cons_2; [|by apply Forall_nil]. unfold inRange. simpl. lia.
  - apply Forall_cons_2; [|by apply Forall_nil]. unfold inRange. simpl. lia.
Defined.

(** *** The breakdown hands every log entry to one region *)

(** The log entries of a list of regions, region after region. *)
Definition logs (regions : list Region.Region) : list Point :=
  regions ≫= Region.Draws.

(** A region of the raster of the character that has log entries. *)
Definition piece (char : Character.Character) (reg : Region.Region) : Prop :=
  Region.Draws reg <> []
  /\ Region.SizeX reg = Character.SizeX char
  /\ Region.SizeY reg = Character.SizeY char.

Lemma drawAll_Size (reg : Region.Region) (points : list Point) :
  Region.SizeX (CharacterCalculate.drawAll reg points) = Region.SizeX reg
  /\ Region.SizeY (CharacterCalculate.drawAll reg points) = Region.SizeY reg.
Proof.
  revert reg. induction points as [|p points IH]; intros reg; [done|].
  simpl. by destruct (IH (Region.Draw reg (X p) (Y p))) as [-> ->].
Qed.

Lemma logs_cons (reg : Region.Region) (regions : list Region.Region) :
  logs (reg :: regions) = Region.Draws reg ++ logs regions.
Proof. done. Qed.

Lemma logs_app (l1 l2 : list Region.Region) : logs (l1 ++ l2) = logs l1 ++ logs l2.
Proof. apply bind_app. Qed.

Lemma splitRegionByLine_logs (char : Character.Character) (reg : Region.Region)
    (line : CharacterCalculate.SegmentationLine) :
  piece char reg ->
  Forall (piece char) (CharacterCalculate.splitRegionByLine reg line)
  /\ logs (CharacterCalculate.splitRegionByLine reg line) ≡ₚ Region.Draws reg.
Proof.
  intros (Hne & HX & HY). unfold CharacterCalculate.splitRegionByLine.
  rewrite splitSides_filter. cbv zeta.
  set (P := fun point => Rgeb (CharacterCalculate.getPointSideOfLine point line) 0 = true).
  pose proof (filter_app_complement P (Region.Draws reg)) as Hperm.
  set (r1 := CharacterCalculate.drawAll _ (filter P _)).
  set (r2 := CharacterCalculate.drawAll _ (filter _ (Region.Draws reg))).
  assert (Region.Draws r1 = filter P (Region.Draws reg)) as H1
    by (subst r1; by rewrite drawAll_Draws).
  assert (Region.Draws r2 = filter (fun point => ~ P point) (Region.Draws reg)) as H2
    by (subst r2; by rewrite drawAll_Draws).
  assert (Region.Draws r1 <> [] -> piece char r1) as Hp1.
  { intros ?. split; [done|]. subst r1.
    split; (etrans; [apply drawAll_Size|done]). }
  assert (Region.Draws r2 <> [] -> piece char r2) as Hp2.
  { intros ?. split; [done|]. subst r2.
    split; (etrans; [apply drawAll_Size|done]). }
  rewrite <- H1, <- H2 in Hperm. clearbody r1 r2.
  destruct (Region.Draws r1) as [|p1 l1] eqn:E1;
    destruct (Region.Draws r2) as [|p2 l2] eqn:E2; cbn [length Nat.ltb Nat.leb app Nat.eqb].
  - split; [apply Forall_cons_2;
              [exact (conj Hne (conj HX HY))|by apply Forall_nil]|].
    unfold logs. csimpl. rewrite app_nil_r. reflexivity.
  - split; [apply Forall_cons_2; [by apply Hp2|by apply Forall_nil]|].
    unfold logs. csimpl. rewrite app_nil_r, E2. exact Hperm.
  - split; [apply Forall_cons_2; [by apply Hp1|by apply Forall_nil]|].
    unfold logs. csimpl. rewrite app_nil_r, E1. by rewrite app_nil_r in Hperm.
  - split; [apply Forall_cons_2; [by apply Hp1|];
            apply Forall_cons_2; [by apply Hp2|by apply Forall_nil]|].
    unfold logs. csimpl. rewrite app_nil_r, E1, E2. exact Hperm.
Qed.

Lemma applySemgentationLine_logs (char : Character.Character)
    (regions : list Region.Region) (line : CharacterCalculate.SegmentationLine) :
  Forall (piece char) regions ->
  Forall (piece char) (CharacterCalculate.applySemgentationLine char regions line)
  /\ logs (CharacterCalculate.applySemgentationLine char regions line) ≡ₚ logs regions.
Proof.
  unfold CharacterCalculate.applySemgentationLine.
  induction 1 as [|reg regions Hreg _ [IH1 IH2]]; [done|].
  rewrite bind_cons. destruct (splitRegionByLine_logs char reg line Hreg) as [H1 H2].
  split; [by apply Forall_app|].
  rewrite logs_app, logs_cons. by rewrite H2, IH2.
Qed.

Lemma segmentCharacter_logs (char : Character.Character)
    (lines : list CharacterCalculate.SegmentationLine) :
  Character.Draws char <> [] ->
  Forall (piece char) (CharacterCalculate.segmentCharacter char lines)
  /\ logs (CharacterCalculate.segmentCharacter char lines) ≡ₚ Character.Draws char.
Proof.
  intros Hne. unfold CharacterCalculate.segmentCharacter.
  assert (forall regions, Forall (piece char) regions ->
    Forall (piece char)
      (fold_left (CharacterCalculate.applySemgentationLine char) lines regions)
    /\ logs (fold_left (CharacterCalculate.applySemgentationLine char) lines regions)
       ≡ₚ logs regions) as Hfold.
  { induction lines as [|line lines IH]; intros regions Hregions; [done|].
    cbn [fold_left].
    destruct (applySemgentationLine_logs char regions line Hregions) as [H1 H2].
    destruct (IH _ H1) as [H3 H4]. split; [done|]. by rewrite H4. }
  destruct (Hfold [CharacterCalculate.createRegionFromCharacter char]) as [H1 H2].
  - apply Forall_cons_2; [|by apply Forall_nil].
    unfold piece, CharacterCalculate.createRegionFromCharacter.
    rewrite drawAll_Draws. split; [done|]. apply drawAll_Size.
  - split; [done|]. rewrite H2. unfold logs, CharacterCalculate.createRegionFromCharacter.
    csimpl. by rewrite drawAll_Draws, app_nil_r.
Qed.

Lemma mergeIntoFirst_logs (char : Character.Character) (reg : Region.Region)
    (refined merged : list Region.Region) :
  Forall (piece char) refined ->
  CharacterCalculate.mergeIntoFirst reg refined = Some merged ->
  Forall (piece char) merged /\ logs merged ≡ₚ logs refined ++ Region.Draws reg
  /\ length merged = length refined.
Proof.
  intros Hrefined. revert merged.
  induction Hrefined as [|other rest Hother Hrest IH]; intros merged; [done|].
  cbn [CharacterCalculate.mergeIntoFirst].
  destruct (CharacterCalculate.regionsAreAdjacent reg other).
  - intros [= <-]. split; [|split; [|done]].
    + apply Forall_cons_2; [|done]. destruct Hother as (Hne & HX & HY).
      unfold piece, CharacterCalculate.mergeRegions. rewrite drawAll_Draws.
      destruct (drawAll_Size other (Region.Draws reg)) as [-> ->].
      split; [|done]. by destruct (Region.Draws other).
    + rewrite !logs_cons. unfold CharacterCalculate.mergeRegions.
      rewrite drawAll_Draws, <- !app_assoc.
      apply Permutation_app_head, Permutation_app_comm.
  - destruct (CharacterCalculate.mergeIntoFirst reg rest) as [merged'|]; [|done].
    intros [= <-]. destruct (IH merged' eq_refl) as (H1 & H2 & H3).
    split; [by apply Forall_cons_2|]. split; [|simpl; lia].
    rewrite !logs_cons, H2. by rewrite app_assoc.
Qed.

Lemma refineRegions_logs (char : Character.Character) (regions : list Region.Region) :
  Forall (piece char) regions ->
  Forall (piece char) (CharacterCalculate.refineRegions char regions)
  /\ logs (CharacterCalculate.refineRegions char regions) ≡ₚ logs regions
  /\ (length (CharacterCalculate.refineRegions char regions) <= length regions)%nat.
Proof.
  unfold CharacterCalculate.refineRegions. cbv zeta.
  generalize (Character.MinRegionSize (Character.Config char)). intros minSize Hregions.
  assert (forall refined, Forall (piece char) refined ->
    let out :=
      fold_left (fun refined reg =>
        if bool_decide (uint16 (Z.of_nat (length (Region.Draws reg))) >= minSize)
        then refined ++ [reg]
        else
          match CharacterCalculate.mergeIntoFirst reg refined with
          | Some merged => merged
          | None => refined ++ [reg]
          end) regions refined in
    Forall (piece char) out /\ logs out ≡ₚ logs refined ++ logs regions
    /\ (length out <= length refined + length regions)%nat) as Hfold.
  { induction Hregions as [|reg regions Hreg _ IH]; intros refined Hrefined out.
    { subst out. cbn [fold_left length]. split; [done|]. split; [|lia].
      change (logs []) with (@nil Point). by rewrite app_nil_r. }
    subst out. cbn [fold_left].
    assert (Forall (piece char) (refined ++ [reg])) as Hsnoc.
    { apply Forall_app. split; [done|]. by apply Forall_cons_2. }
    assert (logs (refined ++ [reg]) ++ logs regions
            ≡ₚ logs refined ++ logs (reg :: regions)) as Hlogs.
    { rewrite logs_app, !logs_cons. change (logs []) with (@nil Point).
      by rewrite app_nil_r, <- app_assoc. }
    assert (length (refined ++ [reg]) + length regions
            = length refined + length (reg :: regions))%nat as Hlen.
    { rewrite length_app. simpl. lia. }
    case_bool_decide.
    - destruct (IH _ Hsnoc) as (H1 & H2 & H3). cbv zeta in H1, H2, H3.
      split; [done|]. split; [by rewrite H2|lia].
    - destruct (CharacterCalculate.mergeIntoFirst reg refined) as [merged|] eqn:Em.
      + destruct (mergeIntoFirst_logs char reg refined merged Hrefined Em)
          as (Hm1 & Hm2 & Hm3).
        destruct (IH _ Hm1) as (H1 & H2 & H3). cbv zeta in H1, H2, H3.
        split; [done|]. split; [|simpl; lia].
        rewrite H2, Hm2, logs_cons. by rewrite <- app_assoc.
      + destruct (IH _ Hsnoc) as (H1 & H2 & H3). cbv zeta in H1, H2, H3.
        split; [done|]. split; [by rewrite H2|lia]. }
  destruct (Hfold [] (Forall_nil_2 _)) as (H1 & H2 & H3). cbv zeta in H1, H2, H3.
  split; [done|]. split; [by rewrite H2|]. simpl in H3. lia.
Qed.

(** The breakdown deals out the draw log: the log entries of the returned
    regions, taken together, are the entries of the character's log, each as
    often as it occurs there.  Every returned region has the size of the
    character and at least one log entry, and there is no region at all
    exactly when the character has no log entry. *)
Theorem breakdown_deals_out_the_log
    (medialAxisPoints : Character.Character -> list Point)
    (skeletonBranches : Character.Character -> gmap string (list Point))
    (identifySegmentationLines :
       Character.Character -> list CharacterCalculate.SegmentationLine)
    (char : Character.Character) :
  let regions :=
    CharacterCalculate.CharacterBreakdownToRegions
      medialAxisPoints skeletonBranches identifySegmentationLines char in
  logs regions ≡ₚ Character.Draws char
  /\ Forall (fun reg => Region.Draws reg <> []
                        /\ Region.GetSizeX reg = Character.GetSizeX char
                        /\ Region.GetSizeY reg = Character.GetSizeY char) regions
  /\ (regions = [] <-> Character.IsEmpty char = true).
Proof.
  cbv zeta.
  unfold CharacterCalculate.CharacterBreakdownToRegions, CharacterCalculate.analyzeRegions.
  destruct (Character.IsEmpty char) eqn:Hempty.
  { unfold Character.IsEmpty in Hempty. apply Nat.eqb_eq in Hempty.
    destruct (Character.Draws char); [|done]. by repeat split. }
  assert (Character.Draws char <> []) as Hne.
  { unfold Character.IsEmpty in Hempty. apply Nat.eqb_neq in Hempty.
    by destruct (Character.Draws char). }
  set (c1 := if (length (Character.AnchorPoints char) =? 0)%nat then _ else char).
  assert (same_pixels char c1) as H1.
  { subst c1. destruct (_ =? _)%nat; [|apply same_pixels_refl].
    apply same_pixels_CharacterDetectAnchors. }
  clearbody c1.
  set (c2 := if (length (Character.MedialAxis c1) =? 0)%nat then _ else c1).
  assert (same_pixels char c2) as H2.
  { subst c2. destruct (_ =? _)%nat; [|exact H1].
    unfold CharacterCalculate.CharacterComputeMedialAxis.
    destruct (Character.IsEmpty c1); [exact H1|].
    eapply same_pixels_trans; [exact H1|]. by repeat split. }
  clearbody c2. destruct H2 as (HD & _ & HX & HY & _).
  destruct (segmentCharacter_logs c2 (identifySegmentationLines c2)) as [Hp Hl];
    [by rewrite HD|].
  destruct (refineRegions_logs c2 _ Hp) as (Hp' & Hl' & _).
  split; [by rewrite Hl', Hl, HD|]. split.
  - eapply Forall_impl; [exact Hp'|]. intros reg (? & ? & ?).
    unfold Region.GetSizeX, Region.GetSizeY, Character.GetSizeX, Character.GetSizeY.
    split; [done|]. split; congruence.
  - split; [|done]. intros Hnil. rewrite Hnil in Hl'.
    change (logs []) with (@nil Point) in Hl'.
    rewrite Hl, HD in Hl'. apply Permutation_nil_l in Hl'. done.
Qed.

(** * Part III: further properties of the packages *)

(** ** A region after any sequence of calls *)

(** The kind of the last call of the sequence that names the pixel:
    [Some true] for a [Draw], [Some false] for an [Erase], [None] when no
    call names it. *)
Definition lastCall (ops : list Region.Op) (x y : Z) : option bool :=
  fold_left (fun last o =>
    match o with
    | Region.OpDraw a b => if decide (a = x /\ b = y) then Some true else last
    | Region.OpErase a b => if decide (a = x /\ b = y) then Some false else last
    end) ops None.

(** The pixels of the [Draw] calls of the sequence, in order. *)
Definition drawCalls (ops : list Region.Op) : list Point :=
  ops ≫= fun o =>
    match o with
    | Region.OpDraw a b => [mkPoint a b]
    | Region.OpErase _ _ => []
    end.

(** After any sequence of [Draw] and [Erase] calls a pixel is foreground
    exactly when the last call that named it was a [Draw] (a pixel no call
    named is as before); the log is the log before followed by the pixels of
    the [Draw] calls in order, repetitions included, whatever was erased; the
    size is unchanged. *)
Theorem Region_after_calls (r : Region.Region) (ops : list Region.Op) :
  (forall x y,
     Region.IsDrew (Region.run r ops) x y
     = default (Region.IsDrew r x y) (lastCall ops x y))
  /\ Region.Draws (Region.run r ops) = Region.Draws r ++ drawCalls ops
  /\ Region.GetSizeX (Region.run r ops) = Region.GetSizeX r
  /\ Region.GetSizeY (Region.run r ops) = Region.GetSizeY r.
Proof.
  split; [|split; [|apply Size_run]].
  - intros x y. induction ops as [|o ops IH] using rev_ind; [done|].
    unfold Region.run, lastCall in *. rewrite !fold_left_app. cbn [fold_left].
    destruct o as [a b|a b]; cbn [Region.step].
    + rewrite IsDrew_Draw. case_decide; [done|exact IH].
    + rewrite IsDrew_Erase. case_decide; [done|exact IH].
  - induction ops as [|o ops IH] using rev_ind; [by rewrite app_nil_r|].
    unfold Region.run, drawCalls in *. rewrite fold_left_app, bind_app. cbn [fold_left].
    destruct o as [a b|a b]; cbn [Region.step].
    + cbn [Region.Draw Region.Draws]. rewrite IH. csimpl. by rewrite app_assoc.
    + rewrite Draws_Erase, IH. csimpl. by rewrite !app_nil_r.
Qed.

(** ** The log, the foreground and the box of a reachable character *)

Lemma removeFirst_other (x y : Z) (l : list Point) (p : Point) :
  p ∈ l -> p <> mkPoint x y -> p ∈ Character.removeFirst x y l.
Proof.
  intros Hp Hne. induction l as [|q l IH]; [done|]. simpl.
  apply elem_of_cons in Hp as [<-|Hp].
  - rewrite bool_decide_eq_false_2; [apply list_elem_of_here|].
    intros [Hx Hy]. apply Hne. destruct p. simpl in *. by subst.
  - case_bool_decide; [done|]. apply list_elem_of_further. by apply IH.
Qed.

Lemma Character_IsDrew_Erase_at c x y a b :
  Character.IsDrew (Character.Erase c x y) a b =
  if decide (x = a /\ y = b) then false else Character.IsDrew c a b.
Proof.
  unfold Character.Erase.
  destruct (Character.Bitmap c !! x) as [row|] eqn:Hrow.
  - unfold Character.IsDrew. rewrite (proj2 (recalculate_frame _)). simpl.
    destruct (decide (x = a)) as [->|Hx].
    + rewrite lookup_insert_eq, Hrow.
      destruct (decide (y = b)) as [->|Hy].
      * rewrite lookup_insert_eq. by rewrite decide_True.
      * rewrite lookup_insert_ne by done.
        rewrite decide_False; [done|by intros [_ ?]].
    + rewrite lookup_insert_ne by done.
      rewrite decide_False; [done|by intros [? _]].
  - case_decide as H; [|done].
    destruct H as [<- _]. unfold Character.IsDrew. by rewrite Hrow.
Qed.

Lemma Character_Draws_Draw c x y :
  Character.Draws (Character.Draw c x y) = Character.Draws c ++ [mkPoint x y].
Proof. unfold Character.Draw. by rewrite (proj1 (update_frame _ x y)). Qed.

Lemma Character_Draws_Erase c x y :
  Character.Draws (Character.Erase c x y)
  = match Character.Bitmap c !! x with
    | Some _ => Character.removeFirst x y (Character.Draws c)
    | None => Character.Draws c
    end.
Proof.
  unfold Character.Erase. destruct (Character.Bitmap c !! x); [|done].
  by rewrite (proj1 (recalculate_frame _)).
Qed.

Lemma Reachable_foreground_logged (c : Character.Character) :
  Character.Reachable c ->
  forall x y, Character.IsDrew c x y = true -> mkPoint x y ∈ Character.Draws c.
Proof.
  induction 1 as [sizeX sizeY config|c a b Hc IH|c a b Hc IH]; intros x y.
  - unfold Character.IsDrew. simpl. by rewrite lookup_empty.
  - rewrite Character_IsDrew_Draw, Character_Draws_Draw.
    case_decide as Heq.
    + destruct Heq as [-> ->]. intros _. apply elem_of_app. right.
      apply list_elem_of_here.
    + intros Hd. apply elem_of_app. left. by apply IH.
  - rewrite Character_IsDrew_Erase_at, Character_Draws_Erase.
    case_decide as Heq; [done|]. intros Hd.
    destruct (Character.Bitmap c !! a); [|by apply IH].
    apply removeFirst_other; [by apply IH|].
    intros [= -> ->]. by apply Heq.
Qed.

Lemma minimum_le_maximum (first : Z) (l : list Z) :
  Character.minimum first l <= first <= Character.maximum first l.
Proof.
  unfold Character.minimum, Character.maximum.
  induction l as [|z l IH]; simpl; lia.
Qed.

(** For every character built with [NewCharacter], [Draw] and [Erase]: a
    foreground pixel has an entry in the log (the converse fails after an
    [Erase] of a pixel drawn twice); the bounding box is empty when the log
    is, and holds the extreme coordinates of the log otherwise; and the two
    extents are 0 for an empty log and otherwise the [uint16] value of the
    span of the logged coordinates plus one, which is at least 1 unless it
    wraps. *)
Theorem Reachable_character_box (c : Character.Character) :
  Character.Reachable c ->
  (forall x y, Character.IsDrew c x y = true -> mkPoint x y ∈ Character.Draws c)
  /\ Character.BoundingBox c = Character.boxOfLog (Character.Draws c)
  /\ match Character.Draws c with
     | [] => Character.GetBoundingBoxWidth c = 0 /\ Character.GetBoundingBoxHeight c = 0
     | first :: _ =>
         let spanX := Character.maximum (X first) (X <$> Character.Draws c)
                      - Character.minimum (X first) (X <$> Character.Draws c) in
         let spanY := Character.maximum (Y first) (Y <$> Character.Draws c)
                      - Character.minimum (Y first) (Y <$> Character.Draws c) in
         0 <= spanX /\ 0 <= spanY
         /\ Character.GetBoundingBoxWidth c = uint16 (spanX + 1)
         /\ Character.GetBoundingBoxHeight c = uint16 (spanY + 1)
     end.
Proof.
  intros Hreach. split; [by apply Reachable_foreground_logged|].
  destruct (Reachable_log_invariant c Hreach) as [_ Hbox]. split; [done|].
  unfold Character.GetBoundingBoxWidth, Character.GetBoundingBoxHeight.
  destruct (Character.Draws c) as [|first rest] eqn:Hlog.
  - simpl in Hbox. rewrite Hbox. by rewrite map_size_empty.
  - cbv zeta. unfold Character.boxOfLog in Hbox.
    pose proof (minimum_le_maximum (X first) (X <$> first :: rest)).
    pose proof (minimum_le_maximum (Y first) (Y <$> first :: rest)).
    split; [lia|]. split; [lia|].
    destruct (bb_setBox c _ _ _ _ _ Hbox) as (-> & -> & -> & ->).
    rewrite !bool_decide_eq_false_2; [done|..];
      rewrite Hbox; unfold Character.setBox;
      intros Hsize%map_size_empty_iff;
      by apply insert_non_empty in Hsize.
Qed.

Lemma Reachable_character_box_witness :
  Character.Reachable twice_drawn
  /\ Character.GetBoundingBoxWidth twice_drawn = 7
  /\ Character.GetBoundingBoxHeight twice_drawn = 7.
Proof.
  assert (Character.Reachable twice_drawn) as Hr by (repeat constructor).
  split; [exact Hr|].
  destruct (Reachable_character_box twice_drawn Hr) as (_ & _ & H).
  change (Character.Draws twice_drawn) with [mkPoint 1 1; mkPoint 7 7; mkPoint 7 7] in H.
  cbv zeta in H. destruct H as (_ & _ & Hw & Hh). rewrite Hw, Hh.
  vm_compute. split; reflexivity.
Defined.

(** ** The configuration check *)



(** ** The moments of a region: pixel count and centroid *)

Lemma Rsum_const_one {A} (l : list A) : Rsum ((fun _ => 1%R) <$> l) = INR (length l).
Proof.
  induction l as [|a l IH]; [done|].
  rewrite Rsum_fmap_cons, IH. cbn [length]. rewrite S_INR. lra.
Qed.

(** A sum of terms between two bounds lies between the bounds times the
    number of terms. *)
Lemma Rsum_between {A} (g : A -> R) (lo hi : R) (l : list A) :
  Forall (fun a => (lo <= g a <= hi)%R) l ->
  (lo * INR (length l) <= Rsum (g <$> l) <= hi * INR (length l))%R.
Proof.
  induction 1 as [|a l Ha Hl IH]; [unfold Rsum; simpl; lra|].
  rewrite Rsum_fmap_cons. cbn [length]. rewrite S_INR. lra.
Qed.

Lemma scanPixels_bounds (reg : Region.Region) :
  Forall (fun p : Z * Z =>
            (0 <= IZR p.1 <= IZR (Region.SizeX reg - 1)
             /\ 0 <= IZR p.2 <= IZR (Region.SizeY reg - 1))%R)
         (RegionHelper.scanPixels reg).
Proof.
  apply Forall_forall. intros [x y] (Hx & Hy & _)%scanPixels_spec. cbn [fst snd].
  split; split; apply IZR_le; lia.
Qed.

Lemma mean_between (lo hi total count : R) :
  (0 < count)%R -> (lo * count <= total <= hi * count)%R ->
  (lo <= total / count <= hi)%R.
Proof.
  intros Hc [H1 H2].
  assert (total / count * count = total)%R as Hm by (field; lra).
  split.
  - apply (Rmult_le_reg_r count); [done|]. lra.
  - apply (Rmult_le_reg_r count); [done|]. lra.
Qed.

(** [RegionComputeMoments] counts in [m00] the foreground pixels inside the
    raster (a pixel drawn outside it is not met by the scan).  With at least
    one such pixel the centroid is stored and lies within the raster; with
    none there is no centroid and no central moment, and the seven invariants
    computed from the moments are all 0. *)
Theorem RegionComputeMoments_count_and_centroid (reg : Region.Region) :
  let moments := RegionHelper.RegionComputeMoments reg in
  let pixels := RegionHelper.scanPixels reg in
  RegionHelper.get moments "m00" = INR (length pixels)
  /\ match pixels with
     | [] =>
         moments !! "cx" = None /\ moments !! "cy" = None
         /\ moments !! "mu20" = None
         /\ RegionHelper.RegionComputeHuInvariants moments = replicate 7 0%R
     | _ :: _ =>
         exists cx cy,
           moments !! "cx" = Some cx /\ moments !! "cy" = Some cy
           /\ (0 <= cx <= IZR (Region.SizeX reg - 1))%R
           /\ (0 <= cy <= IZR (Region.SizeY reg - 1))%R
     end.
Proof.
  cbv zeta.
  assert (RegionHelper.get (RegionHelper.RegionComputeMoments reg) "m00"
          = INR (length (RegionHelper.scanPixels reg))) as H00.
  { rewrite moments_m00, accumulate_sum. apply Rsum_const_one. }
  split; [exact H00|].
  pose proof (scanPixels_bounds reg) as Hb.
  unfold RegionHelper.RegionComputeHuInvariants. rewrite H00.
  unfold RegionHelper.RegionComputeMoments.
  set (px := RegionHelper.scanPixels reg) in *.
  assert (RegionHelper.accumulate (fun _ _ => 1%R) px = INR (length px)) as Hcount.
  { rewrite accumulate_sum. apply Rsum_const_one. }
  rewrite Hcount.
  destruct px as [|p px'] eqn:Hpx.
  - cbn [length INR]. rewrite (proj2 (Rltb_false _ _)) by lra.
    unfold Reqb. destruct (Req_dec_T 0 0) as [_|Hne]; [|by destruct Hne].
    repeat split; by repeat (rewrite lookup_insert_ne by done).
  - assert (0 < INR (length (p :: px')))%R as Hpos.
    { cbn [length]. rewrite S_INR. pose proof (pos_INR (length px')). lra. }
    rewrite (proj2 (Rltb_true _ _)) by done.
    eexists _, _.
    split; [by repeat (rewrite lookup_insert_ne by done); rewrite lookup_insert_eq|].
    split; [by repeat (rewrite lookup_insert_ne by done); rewrite lookup_insert_eq|].
    rewrite !accumulate_sum. split.
    + apply mean_between; [done|].
      apply (Rsum_between (fun p : Z * Z => IZR p.1)).
      eapply Forall_impl; [exact Hb|]. by intros q [? _].
    + apply mean_between; [done|].
      apply (Rsum_between (fun p : Z * Z => IZR p.2)).
      eapply Forall_impl; [exact Hb|]. by intros q [_ ?].
Qed.

(** ** The three descriptors lie in the unit interval *)

Lemma sumAbs_from (l : list R) (a : R) :
  (0 <= a)%R -> (0 <= fold_left (fun acc c => acc + Rabs c) l a)%R.
Proof.
  revert a. induction l as [|c l IH]; intros a Ha; [done|].
  cbn [fold_left]. apply IH. pose proof (Rabs_pos c). lra.
Qed.

Lemma sumAbs_nonneg (l : list R) : (0 <= RegionHelper.sumAbs l)%R.
Proof. apply sumAbs_from. lra. Qed.

Lemma unit_fraction (t : R) : (0 <= t)%R -> (0 < 1 / (1 + t) <= 1)%R.
Proof.
  intros Ht. split.
  - apply Rdiv_lt_0_compat; lra.
  - apply (Rmult_le_reg_r (1 + t)); [lra|]. field_simplify; lra.
Qed.

(** For the Hu invariants of any region: the circularity is 0 or in (0, 1],
    the linearity is in (0, 1], and the rectangularity is in (0, 1]. *)
Theorem descriptors_in_unit_interval (reg : Region.Region) :
  let hu := RegionHelper.RegionComputeHuInvariants (RegionHelper.RegionComputeMoments reg) in
  (0 <= RegionHelper.RegionComputeCircularity hu <= 1)%R
  /\ (0 < RegionHelper.RegionComputeLinearity hu <= 1)%R
  /\ (0 < RegionHelper.RegionComputeRectangularity hu <= 1)%R.
Proof.
  cbv zeta.
  set (hu := RegionHelper.RegionComputeHuInvariants _).
  assert (length hu = 7%nat) as Hlen.
  { subst hu. unfold RegionHelper.RegionComputeHuInvariants.
    destruct (Reqb _ _); [by rewrite length_replicate|done]. }
  clearbody hu. split; [|split].
  - unfold RegionHelper.RegionComputeCircularity. rewrite Hlen. cbn [Nat.ltb Nat.leb].
    destruct (Rgtb _ _) eqn:E; [|lra].
    unfold Rgtb in E. apply Rltb_true in E.
    assert (0 <= sqrt (RegionHelper.at_ hu 1) / RegionHelper.at_ hu 0)%R as Hq.
    { apply Rmult_le_pos; [apply sqrt_pos|]. left. by apply Rinv_0_lt_compat. }
    pose proof (unit_fraction _ Hq). lra.
  - unfold RegionHelper.RegionComputeLinearity. rewrite Hlen. cbn [Nat.ltb Nat.leb].
    destruct (Rltb _ _); [lra|].
    assert (0 <= RegionHelper.sumAbs (drop 2 hu) * 100)%R as Hq.
    { pose proof (sumAbs_nonneg (drop 2 hu)). lra. }
    apply (unit_fraction _ Hq).
  - unfold RegionHelper.RegionComputeRectangularity. rewrite Hlen. cbn [Nat.ltb Nat.leb].
    set (diff := fold_left _ _ _).
    assert (0 <= diff)%R as Hd.
    { subst diff. generalize (seq 0 7). intros l.
      assert (forall a, (0 <= a)%R ->
        (0 <= fold_left (fun acc i =>
                 acc + Rabs (RegionHelper.at_ hu i
                             - RegionHelper.at_ RegionHelper.rectangleHu i)) l a)%R) as H.
      { induction l as [|i l IH]; intros a Ha; [done|].
        cbn [fold_left]. apply IH.
        pose proof (Rabs_pos (RegionHelper.at_ hu i
                              - RegionHelper.at_ RegionHelper.rectangleHu i)). lra. }
      apply H. lra. }
    clearbody diff. split; [apply exp_pos|].
    rewrite <- exp_0. destruct (Req_dec diff 0) as [->|Hne].
    + right. f_equal. lra.
    + left. apply exp_increasing. lra.
Qed.

(** ** The edge points of a region *)

(** The edge points are distinct foreground pixels strictly inside the scan
    range, each with a background neighbour inside the raster, and each
    carries its gradient angle, which lies in (-pi, pi].  On a raster of
    positive size the scan range is [1, size - 2], so a pixel on the border
    of the raster is never an edge point. *)
Theorem extractEdges_points (r : Region.Region) :
  NoDup ((fun e => (Region.EX e, Region.EY e)) <$> Canvas.extractEdges r)
  /\ Forall (fun e =>
       Region.EX e ∈ Canvas.interior (Region.SizeX r)
       /\ Region.EY e ∈ Canvas.interior (Region.SizeY r)
       /\ (0 < Region.SizeX r < 65536 -> 1 <= Region.EX e <= Region.SizeX r - 2)
       /\ (0 < Region.SizeY r < 65536 -> 1 <= Region.EY e <= Region.SizeY r - 2)
       /\ Region.IsDrew r (Region.EX e) (Region.EY e) = true
       /\ Canvas.isEdge r (Region.EX e) (Region.EY e) = true
       /\ Region.Angle e = Canvas.computeGradientAngle r (Region.EX e) (Region.EY e)
       /\ (- PI < Region.Angle e <= PI)%R)
     (Canvas.extractEdges r).
Proof.
  split; [apply extractEdges_pixels|].
  assert (forall size z, z ∈ Canvas.interior size -> 0 < size < 65536 ->
                         1 <= z <= size - 2) as Hint.
  { intros size z Hz%elem_of_seqZ Hsize. unfold uint16 in Hz.
    rewrite Z.mod_small in Hz by lia. lia. }
  apply Forall_forall. intros e He. unfold Canvas.extractEdges in He.
  apply list_elem_of_bind in He as (x & He & Hx).
  apply list_elem_of_bind in He as (y & He & Hy).
  destruct (Region.IsDrew r x y) eqn:Hd; cbn [andb] in He; [|by apply elem_of_nil in He].
  destruct (Canvas.isEdge r x y) eqn:Hedge; [|by apply elem_of_nil in He].
  apply list_elem_of_singleton in He as ->. cbn [Region.EX Region.EY Region.Angle].
  split; [done|]. split; [done|]. split; [by apply Hint|]. split; [by apply Hint|].
  split; [done|]. split; [done|]. split; [done|].
  unfold Canvas.computeGradientAngle. apply atan2_range.
Qed.


(** ** The parameters of an arc *)

Lemma computeEllipseRatio_range (moments : gmap string R) :
  (0 < Canvas.computeEllipseRatio moments <= 1)%R.
Proof.
  unfold Canvas.computeEllipseRatio. cbv zeta.
  destruct (Reqb _ _); [lra|].
  set (lambda1 := ((_ + _ + sqrt _) / 2)%R).
  set (lambda2 := ((_ + _ - sqrt _) / 2)%R).
  clearbody lambda1 lambda2.
  destruct (Rgtb lambda1 0) eqn:E1; cbn [andb]; [|lra].
  destruct (Rgtb lambda2 0) eqn:E2; [|lra].
  apply Rgtb_true in E1, E2.
  unfold Rmin, Rmax. destruct (Rle_dec lambda1 lambda2) as [Hle|Hgt].
  - split; [by apply Rdiv_lt_0_compat|].
    apply (Rmult_le_reg_r lambda2); [lra|]. field_simplify; lra.
  - split; [by apply Rdiv_lt_0_compat|].
    apply (Rmult_le_reg_r lambda1); [lra|]. field_simplify; lra.
Qed.

Lemma closer_target (diff target : R) (st : option R * R) :
  (Canvas.closer diff target st).2 = target \/ (Canvas.closer diff target st).2 = st.2.
Proof.
  unfold Canvas.closer. destruct st as [[minDiff|] best]; cbn [fst snd].
  - destruct (Rltb _ _); [by left|by right].
  - by left.
Qed.

Lemma snapped_target (lineDegree : R) (targets : list R) (st : option R * R) :
  (fold_left (fun st target =>
     Canvas.closer (Rabs (lineDegree - (target - 180))) target
       (Canvas.closer (Rabs (lineDegree - (target + 180))) target
         (Canvas.closer (Rabs (lineDegree - target)) target st)))
     targets st).2 ∈ st.2 :: targets.
Proof.
  revert st. induction targets as [|t targets IH]; intros st; [apply list_elem_of_here|].
  cbn [fold_left]. specialize (IH
    (Canvas.closer (Rabs (lineDegree - (t - 180))) t
       (Canvas.closer (Rabs (lineDegree - (t + 180))) t
         (Canvas.closer (Rabs (lineDegree - t)) t st)))).
  apply elem_of_cons in IH as [IH|IH]; [|by do 2 apply list_elem_of_further].
  rewrite IH.
  destruct (closer_target (Rabs (lineDegree - (t - 180))) t
    (Canvas.closer (Rabs (lineDegree - (t + 180))) t
       (Canvas.closer (Rabs (lineDegree - t)) t st))) as [-> | ->];
    [apply list_elem_of_further, list_elem_of_here|].
  destruct (closer_target (Rabs (lineDegree - (t + 180))) t
       (Canvas.closer (Rabs (lineDegree - t)) t st)) as [-> | ->];
    [apply list_elem_of_further, list_elem_of_here|].
  destruct (closer_target (Rabs (lineDegree - t)) t st) as [-> | ->];
    [apply list_elem_of_further, list_elem_of_here|apply list_elem_of_here].
Qed.

Lemma computeLineDegree_values (lines : list Region.HoughAccumulator) :
  Canvas.computeLineDegree lines ∈ [0; 45; 90; 135; 180]%R.
Proof.
  unfold Canvas.computeLineDegree. destruct lines as [|top _]; [apply list_elem_of_here|].
  cbv zeta.
  set (lineDegree := if Rleb 180 _ then _ else _). clearbody lineDegree.
  destruct (_ && _); [by do 4 apply list_elem_of_further; apply list_elem_of_here|].
  pose proof (snapped_target lineDegree [0; 45; 90; 135]%R (None, 0%R)) as H.
  cbn [snd] in H. apply elem_of_cons in H as [->|H]; [apply list_elem_of_here|].
  repeat (apply elem_of_cons in H as [->|H];
          [repeat first [apply list_elem_of_here | apply list_elem_of_further]|]).
  by apply elem_of_nil in H.
Qed.

Lemma computeCurveStrength_range (curvatures : list R) (edges : list Region.EdgePoint) :
  (-1 <= Canvas.computeCurveStrength curvatures edges <= 1)%R.
Proof.
  unfold Canvas.computeCurveStrength. destruct (_ =? _)%nat; [lra|]. cbv zeta.
  set (s2 := (_ * _)%R). clearbody s2.
  unfold Rmax, Rmin. destruct (Rle_dec 1 s2); destruct (Rle_dec _ _); lra.
Qed.

(** Whatever the two Hough transforms return, an arc carries only the
    parameter of its type, and that parameter is in range: the axis ratio of
    a circle in (0, 1], the degree of a straight line one of 0, 45, 90, 135
    and 180, the strength of a curve in [-1, 1]; the other parameters are
    0. *)
Theorem Arc_parameters_in_range
    (detectLinesHough detectCirclesHough :
       Region.Region -> list Region.EdgePoint -> list Region.HoughAccumulator)
    (r : Region.Region) :
  match Canvas.Arc detectLinesHough detectCirclesHough r with
  | None => True
  | Some arc =>
      match Region.Type_ arc with
      | Region.ArcTypeCircle =>
          (0 < Region.CircleEllipseRatio arc <= 1)%R
          /\ Region.LineDegree arc = 0%R /\ Region.ArcLineTheta arc = 0%R
      | Region.ArcTypeStrengthLine =>
          Region.CircleEllipseRatio arc = 0%R
          /\ Region.LineDegree arc ∈ [0; 45; 90; 135; 180]%R
          /\ Region.ArcLineTheta arc = 0%R
      | Region.ArcTypeCurveLine =>
          Region.CircleEllipseRatio arc = 0%R /\ Region.LineDegree arc = 0%R
          /\ (-1 <= Region.ArcLineTheta arc <= 1)%R
      | Region.ArcTypeTriangle | Region.ArcTypeRectangle =>
          Region.CircleEllipseRatio arc = 0%R /\ Region.LineDegree arc = 0%R
          /\ Region.ArcLineTheta arc = 0%R
      end
  end.
Proof.
  unfold Canvas.Arc.
  destruct (_ <? _)%nat; [done|]. cbv zeta. destruct (_ <? _)%nat; [done|].
  destruct (Canvas.classifyShape _ _ _ _ _) as [arcType fillType].
  destruct arcType; cbn [Region.Type_ Region.CircleEllipseRatio Region.LineDegree
                          Region.ArcLineTheta].
  - split; [apply computeEllipseRatio_range|done].
  - split; [done|]. split; [apply computeLineDegree_values|done].
  - split; [done|]. split; [done|apply computeCurveStrength_range].
  - done.
  - done.
Qed.

(** ** Chain codes and the curvatures computed from them *)

Lemma stepCode_range (dx dy : Z) : 0 <= Canvas.stepCode dx dy <= 7.
Proof. unfold Canvas.stepCode. repeat case_bool_decide; lia. Qed.

Lemma chainSteps_range (prev : Region.EdgePoint) (rest : list Region.EdgePoint) :
  Forall (fun code => 0 <= code <= 7) (Canvas.chainSteps prev rest).
Proof.
  revert prev. induction rest as [|e rest IH]; intros prev; [by apply Forall_nil|].
  cbn [Canvas.chainSteps]. apply Forall_cons_2; [apply stepCode_range|apply IH].
Qed.

Lemma computeChainCode_range (edges : list Region.EdgePoint) :
  Forall (fun code => 0 <= code <= 7) (Canvas.computeChainCode edges).
Proof.
  unfold Canvas.computeChainCode. destruct (_ <? _)%nat; [by apply Forall_nil|].
  destruct (Canvas.sortEdgesForContour edges); [by apply Forall_nil|].
  apply chainSteps_range.
Qed.

Lemma wrapAngle_range (k : Z) :
  -7 <= k <= 7 -> (- PI <= Canvas.wrapAngle (IZR k * PI / 4) <= PI)%R.
Proof.
  intros Hk. pose proof PI_RGT_0 as Hpi.
  assert (-7 <= IZR k <= 7)%R as Hr by (split; apply IZR_le; lia).
  unfold Canvas.wrapAngle.
  destruct (Rgtb _ _) eqn:E1.
  - apply Rgtb_true in E1. nra.
  - destruct (Rltb _ _) eqn:E2.
    + apply Rltb_true in E2. nra.
    + unfold Rgtb in E1. apply Rltb_false in E1, E2. lra.
Qed.

Lemma nth_range (codes : list Z) (i : nat) :
  Forall (fun code => 0 <= code <= 7) codes -> 0 <= nth i codes 0 <= 7.
Proof.
  intros H. destruct (nth_in_or_default i codes 0) as [Hin| ->]; [|lia].
  rewrite Forall_forall in H. apply H. by apply list_elem_of_In.
Qed.

(** The curvatures of a contour are means of two turning angles, each
    wrapped into [-pi, pi]: every curvature [Region.Arc] works with lies in
    that interval, and there is one for each chain code. *)
Theorem contour_curvatures_bounded (edges : list Region.EdgePoint) :
  let chainCode := Canvas.computeChainCode edges in
  Forall (fun code => 0 <= code <= 7) chainCode
  /\ length (Canvas.computeCurvatures chainCode) = length chainCode
  /\ Forall (fun k => (- PI <= k <= PI)%R) (Canvas.computeCurvatures chainCode).
Proof.
  cbv zeta. pose proof (computeChainCode_range edges) as Hcodes.
  split; [done|]. unfold Canvas.computeCurvatures. cbv zeta.
  split.
  { rewrite length_map, length_seqZ. lia. }
  apply Forall_forall. intros k Hk. apply list_elem_of_In in Hk.
  apply in_map_iff in Hk as (i & <- & _). cbv beta.
  set (n := Z.of_nat (length (Canvas.computeChainCode edges))).
  pose proof (nth_range _ (Z.to_nat (Z.rem (i - 1 + n) n)) Hcodes).
  pose proof (nth_range _ (Z.to_nat i) Hcodes).
  pose proof (nth_range _ (Z.to_nat (Z.rem (i + 1) n)) Hcodes).
  set (prev := nth (Z.to_nat (Z.rem (i - 1 + n) n)) _ 0) in *.
  set (curr := nth (Z.to_nat i) _ 0) in *.
  set (next := nth (Z.to_nat (Z.rem (i + 1) n)) _ 0) in *.
  pose proof (wrapAngle_range (curr - prev) ltac:(lia)).
  pose proof (wrapAngle_range (next - curr) ltac:(lia)).
  lra.
Qed.

(** ** The contour order is a rearrangement of the edge points *)

Lemma nearest_fold (l : list (nat * Region.EdgePoint)) (visited : gset nat)
    (current : Region.EdgePoint) (best : option (R * nat)) :
  match
    fold_left (fun best (ie : nat * Region.EdgePoint) =>
      if bool_decide (ie.1 ∈ visited) then best
      else
        let d := Canvas.edgeDist ie.2 current in
        match best with
        | None => Some (d, ie.1)
        | Some (md, _) => if Rltb d md then Some (d, ie.1) else best
        end) l best
  with
  | Some (_, idx) =>
      (exists d, best = Some (d, idx)) \/ (exists e, (idx, e) ∈ l /\ idx ∉ visited)
  | None => best = None /\ forall ie, ie ∈ l -> ie.1 ∈ visited
  end.
Proof.
  revert best. induction l as [|[i e] l IH]; intros best.
  { cbn [fold_left]. destruct best as [[d idx]|]; [left; by exists d|].
    split; [done|]. by intros ie ?%elem_of_nil. }
  cbn [fold_left fst snd]. case_bool_decide as Hseen.
  - specialize (IH best). destruct (fold_left _ l best) as [[d idx]|].
    + destruct IH as [?|(e' & ? & ?)]; [by left|right].
      exists e'. split; [by apply list_elem_of_further|done].
    + destruct IH as [? Hall]. split; [done|].
      intros ie [->|?]%elem_of_cons; [done|by apply Hall].
  - cbv zeta.
    set (best' := match best with
                  | None => Some (Canvas.edgeDist e current, i)
                  | Some (md, _) =>
                      if Rltb (Canvas.edgeDist e current) md
                      then Some (Canvas.edgeDist e current, i) else best
                  end).
    assert ((exists d, best' = Some (d, i))
            \/ (best' = best /\ best <> None)) as Hbest'.
    { subst best'. destruct best as [[md j]|]; [|left; by eexists].
      destruct (Rltb _ _); [left; by eexists|by right]. }
    specialize (IH best'). destruct (fold_left _ l best') as [[d idx]|].
    + destruct IH as [[d' Hd']|(e' & ? & ?)].
      * destruct Hbest' as [[d'' Hd'']|[Heq _]].
        -- right. exists e. rewrite Hd' in Hd''. injection Hd'' as _ ->.
           split; [apply list_elem_of_here|done].
        -- left. exists d'. by rewrite <- Heq.
      * right. exists e'. split; [by apply list_elem_of_further|done].
    + destruct IH as [Hnone _].
      destruct Hbest' as [[d'' Hd'']|[Heq Hne]]; congruence.
Qed.

(** What the inner scan finds: an index of the slice that has not been
    visited, if there is one. *)
Lemma nearest_spec (edges : list Region.EdgePoint) (visited : gset nat)
    (current : Region.EdgePoint) :
  match Canvas.nearest edges visited current with
  | Some (_, idx) => (idx < length edges)%nat /\ idx ∉ visited
  | None => forall i, (i < length edges)%nat -> i ∈ visited
  end.
Proof.
  unfold Canvas.nearest.
  pose proof (nearest_fold (imap pair edges) visited current None) as H.
  destruct (fold_left _ _ _) as [[d idx]|].
  - destruct H as [[? [=]]|(e & Hin & Hnew)]. split; [|done].
    apply elem_of_lookup_imap_1 in Hin as (i & e' & [= -> ->] & Hi).
    by apply lookup_lt_Some in Hi.
  - destruct H as [_ Hall]. intros i Hi.
    destruct (lookup_lt_is_Some_2 edges i Hi) as [e He].
    apply (Hall (i, e)). by apply (elem_of_lookup_imap_2 pair).
Qed.

(** The points collected so far are those at a list of distinct indices,
    the visited ones. *)
Definition collected (edges : list Region.EdgePoint) (visited : gset nat)
    (sorted : list Region.EdgePoint) (idxs : list nat) : Prop :=
  NoDup idxs
  /\ (forall i, i ∈ idxs <-> i ∈ visited)
  /\ Forall2 (fun i e => edges !! i = Some e) idxs sorted.

Lemma picked_in_range (edges : list Region.EdgePoint) (idxs : list nat)
    (sorted : list Region.EdgePoint) :
  Forall2 (fun i e => edges !! i = Some e) idxs sorted ->
  Forall (fun i => (i < length edges)%nat) idxs.
Proof.
  induction 1 as [|i e idxs sorted Hi _ IH]; [by apply Forall_nil|].
  apply Forall_cons_2; [by apply lookup_lt_Some in Hi|done].
Qed.

Lemma sortLoop_collects (edges : list Region.EdgePoint) (turns : nat) :
  forall visited current sorted idxs,
    collected edges visited sorted idxs ->
    (length sorted <= length edges)%nat ->
    (length edges <= length sorted + turns)%nat ->
    exists idxs',
      NoDup idxs'
      /\ Forall2 (fun i e => edges !! i = Some e) idxs'
           (Canvas.sortLoop turns edges visited current sorted)
      /\ length (Canvas.sortLoop turns edges visited current sorted) = length edges
      /\ forall e0, head sorted = Some e0 ->
           head (Canvas.sortLoop turns edges visited current sorted) = Some e0.
Proof.
  induction turns as [|t IH]; intros visited current sorted idxs Hcol Hle Hfuel.
  { cbn [Canvas.sortLoop]. exists idxs. destruct Hcol as (? & _ & ?).
    split; [done|]. split; [done|]. split; [lia|done]. }
  cbn [Canvas.sortLoop].
  destruct (Nat.ltb_spec (length sorted) (length edges)) as [Hlt|Hge].
  2:{ exists idxs. destruct Hcol as (? & _ & ?).
      split; [done|]. split; [done|]. split; [lia|done]. }
  pose proof (nearest_spec edges visited current) as Hnear.
  destruct (Canvas.nearest edges visited current) as [[d idx]|].
  - destruct Hnear as [Hidx Hnew].
    destruct (lookup_lt_is_Some_2 edges idx Hidx) as [e He].
    rewrite (nth_lookup_Some _ _ _ _ He). cbv zeta.
    destruct (IH ({[idx]} ∪ visited) e (sorted ++ [e]) (idxs ++ [idx]))
      as (idxs' & H1 & H2 & H3 & H4).
    + destruct Hcol as (Hnd & Hvis & Hpts). split; [|split].
      * apply NoDup_app. split; [done|]. split; [|apply NoDup_singleton].
        intros i Hi ->%list_elem_of_singleton. by apply Hnew, Hvis.
      * intros i. rewrite elem_of_app, elem_of_union, list_elem_of_singleton,
          elem_of_singleton, Hvis. tauto.
      * apply Forall2_app; [done|]. by repeat constructor.
    + rewrite length_app. simpl. lia.
    + rewrite length_app. simpl. lia.
    + exists idxs'. split; [done|]. split; [done|]. split; [done|].
      intros e0 He0. apply H4. by destruct sorted.
  - exfalso. destruct Hcol as (Hnd & Hvis & Hpts).
    pose proof (Forall2_length _ _ _ Hpts) as Hlen.
    assert (seq 0 (length edges) ⊆+ idxs) as Hsub.
    { apply NoDup_submseteq; [apply NoDup_seq|].
      intros i Hi. apply Hvis, Hnear. apply elem_of_seq in Hi. lia. }
    apply submseteq_length in Hsub. rewrite length_seq in Hsub. lia.
Qed.

Lemma pick_all (edges : list Region.EdgePoint) (idxs : list nat)
    (sorted : list Region.EdgePoint) :
  Forall2 (fun i e => edges !! i = Some e) idxs sorted ->
  idxs ≡ₚ seq 0 (length edges) -> sorted ≡ₚ edges.
Proof.
  intros Hpts.
  assert (forall d, sorted = (fun i => nth i edges d) <$> idxs) as Hmap.
  { intros d. induction Hpts as [|i e idxs sorted Hi _ IH]; [done|].
    csimpl. by rewrite (nth_lookup_Some _ _ _ _ Hi), <- IH. }
  intros Hperm. destruct edges as [|e0 edges'].
  { apply Permutation_nil_r in Hperm. subst idxs.
    by apply Forall2_nil_inv_l in Hpts as ->. }
  rewrite (Hmap e0), Hperm.
  assert (forall l : list Region.EdgePoint,
            (fun i => nth i l e0) <$> seq 0 (length l) = l) as Hid.
  { intros l. apply list_eq. intros i. rewrite list_lookup_fmap.
    destruct (decide (i < length l)%nat) as [Hi|Hi].
    - rewrite lookup_seq_lt by done. simpl.
      destruct (lookup_lt_is_Some_2 l i Hi) as [e He].
      by rewrite He, (nth_lookup_Some _ _ _ _ He).
    - rewrite lookup_seq_ge by lia. simpl. symmetry. apply lookup_ge_None. lia. }
  by rewrite Hid.
Qed.

(** The greedy nearest-neighbour walk returns a rearrangement of the edge
    points it is given, beginning with the first of them; so there is one
    chain code fewer than edge points (none below two points), each code in
    0..7. *)
Theorem sortEdgesForContour_permutation (edges : list Region.EdgePoint) :
  Canvas.sortEdgesForContour edges ≡ₚ edges
  /\ head (Canvas.sortEdgesForContour edges) = head edges
  /\ length (Canvas.computeChainCode edges) = (length edges - 1)%nat.
Proof.
  assert (Canvas.sortEdgesForContour edges ≡ₚ edges
          /\ head (Canvas.sortEdgesForContour edges) = head edges) as [Hperm Hhead].
  { unfold Canvas.sortEdgesForContour. destruct edges as [|e0 edges']; [done|].
    destruct (sortLoop_collects (e0 :: edges') (length (e0 :: edges'))
                {[0%nat]} e0 [e0] [0%nat]) as (idxs & Hnd & Hpts & Hlen & Hhead).
    - split; [apply NoDup_singleton|]. split.
      + intros i. by rewrite list_elem_of_singleton, elem_of_singleton.
      + by repeat constructor.
    - simpl. lia.
    - simpl. lia.
    - split; [|by apply Hhead]. apply (pick_all _ idxs); [done|].
      apply submseteq_length_Permutation.
      + apply NoDup_submseteq; [done|]. intros i Hi. apply elem_of_seq.
        pose proof (picked_in_range _ _ _ Hpts) as Hrange.
        rewrite Forall_forall in Hrange. specialize (Hrange i Hi). lia.
      + rewrite length_seq. apply Forall2_length in Hpts. lia. }
  split; [done|]. split; [done|].
  unfold Canvas.computeChainCode.
  destruct (Nat.ltb_spec (length edges) 2) as [Hlt|Hge].
  - destruct edges as [|? [|? ?]]; simpl in *; [done|done|lia].
  - apply Permutation_length in Hperm.
    destruct (Canvas.sortEdgesForContour edges) as [|e0 rest]; [simpl in *; lia|].
    assert (forall prev l, length (Canvas.chainSteps prev l) = length l) as Hsteps.
    { intros prev l. revert prev. induction l as [|e l IH]; intros prev; [done|].
      simpl. by rewrite IH. }
    rewrite Hsteps. simpl in Hperm. lia.
Qed.

(** ** Corners *)

Lemma seqZ_sorted (len : nat) (m : Z) : StronglySorted Z.lt (seqZ m (Z.of_nat len)).
Proof.
  revert m. induction len as [|len IH]; intros m; [constructor|].
  rewrite seqZ_cons by lia.
  replace (Z.pred (Z.of_nat (S len))) with (Z.of_nat len) by lia.
  constructor; [apply IH|].
  apply Forall_forall. intros i Hi%elem_of_seqZ. lia.
Qed.

(** An index is reported as a corner exactly when it lies in the slice, its
    absolute curvature exceeds pi/6, and no index at most two places away
    inside the slice has a larger absolute curvature (equal ones do not
    prevent it).  The corners come in increasing order, and the edge points
    passed along are not read. *)
Theorem RegionDetectCorners_spec (curvatures : list R) (edges : list Region.EdgePoint) :
  let kappa (i : Z) := Rabs (RegionHelper.at_ curvatures (Z.to_nat i)) in
  let n := Z.of_nat (length curvatures) in
  (forall i,
     i ∈ RegionHelper.RegionDetectCorners curvatures edges
     <-> 0 <= i < n /\ (kappa i > PI / 6)%R
         /\ forall j, i - 2 <= j <= i + 2 -> 0 <= j < n -> (kappa j <= kappa i)%R)
  /\ StronglySorted Z.lt (RegionHelper.RegionDetectCorners curvatures edges)
  /\ RegionHelper.RegionDetectCorners curvatures edges
     = RegionHelper.RegionDetectCorners curvatures [].
Proof.
  cbv zeta. split; [|split; [|done]].
  - intros i. unfold RegionHelper.RegionDetectCorners.
    rewrite list_elem_of_filter, elem_of_seqZ, andb_true_iff, Rgtb_true.
    unfold RegionHelper.isLocalMax. rewrite forallb_forall.
    split.
    + intros [[Hgt Hmax] Hi]. split; [lia|]. split; [done|].
      intros j Hj Hjn. destruct (decide (j = i)) as [->|Hne]; [lra|].
      specialize (Hmax j). rewrite bool_decide_eq_false_2 in Hmax by lia.
      assert (In j (seqZ (i - 2) 5)) as Hin.
      { apply list_elem_of_In, elem_of_seqZ. lia. }
      specialize (Hmax Hin). apply negb_true_iff in Hmax.
      unfold Rgtb in Hmax. apply Rltb_false in Hmax. lra.
    + intros (Hi & Hgt & Hmax). split; [|lia]. split; [done|].
      intros j Hj%list_elem_of_In%elem_of_seqZ.
      case_bool_decide as Hcase; [done|].
      apply negb_true_iff. unfold Rgtb. apply Rltb_false. apply Hmax; lia.
  - unfold RegionHelper.RegionDetectCorners.
    eapply StronglySorted_sublist; [apply sublist_filter|apply seqZ_sorted].
Qed.

(** ** The fill type *)

(** The foreground pixels met by the scan of the fill test: those strictly
    inside the raster. *)
Definition interiorForeground (r : Region.Region) : list (Z * Z) :=
  x ← Canvas.interior (Region.SizeX r); y ← Canvas.interior (Region.SizeY r);
  if Region.IsDrew r x y then [(x, y)] else [].

(** The region is a stroke exactly when more than three tenths of its
    foreground pixels strictly inside the raster have a background neighbour
    inside the raster; the comparison of the quotient with 0.3 is decided by
    the integers.  Pixels on the border of the raster are not counted, and a
    region without interior foreground is a fill. *)
Theorem determineFillType_stroke_iff (r : Region.Region) :
  let cells := interiorForeground r in
  let edgeCells := filter (fun c : Z * Z => Canvas.hasEmpty r c.1 c.2 = true) cells in
  (Canvas.determineFillType r = Region.ArcFillTypeStroke
   <-> (3 * length cells < 10 * length edgeCells)%nat)
  /\ (length edgeCells <= length cells)%nat.
Proof.
  cbv zeta. split; [|apply length_filter].
  unfold Canvas.determineFillType. cbv zeta. fold (interiorForeground r).
  set (cells := interiorForeground r).
  set (edgeCells := filter _ cells).
  destruct (Nat.ltb_spec 0 (length cells)) as [Hpos|Hzero]; cbn [andb].
  - assert (0 < INR (length cells))%R as Ht by (by apply lt_0_INR).
    assert ((INR (length edgeCells) / INR (length cells) > 0.3)%R
            <-> (3 * length cells < 10 * length edgeCells)%nat) as Hiff.
    { split.
      - intros Hgt. apply INR_lt. rewrite !mult_INR. simpl.
        assert (INR (length edgeCells)
                = INR (length edgeCells) / INR (length cells) * INR (length cells))%R
          as -> by (field; lra).
        nra.
      - intros Hlt. apply lt_INR in Hlt. rewrite !mult_INR in Hlt. simpl in Hlt.
        apply Rlt_gt. apply (Rmult_lt_reg_r (INR (length cells))); [done|].
        assert (INR (length edgeCells) / INR (length cells) * INR (length cells)
                = INR (length edgeCells))%R as -> by (field; lra).
        lra. }
    destruct (Rgtb _ _) eqn:E.
    + apply Rgtb_true in E. split; [intros _; by apply Hiff|done].
    + split; [done|]. intros Hlt. apply Hiff in Hlt.
      apply (proj2 (Rgtb_true _ _)) in Hlt. congruence.
  - split; [done|]. intros Hlt.
    pose proof (length_filter (fun c : Z * Z => Canvas.hasEmpty r c.1 c.2 = true) cells).
    fold edgeCells in H. lia.
Qed.

(** ** The filter of the segmentation lines *)

Lemma int16_cases (z : Z) :
  -65536 < z < 65536 ->
  (-32768 <= z < 32768 /\ int16 z = z)
  \/ (32768 <= z /\ int16 z = z - 65536)
  \/ (z < -32768 /\ int16 z = z + 65536).
Proof. intros Hz. unfold int16. Z.div_mod_to_equations. lia. Qed.

Lemma int16_range (z : Z) : -32768 <= int16 z < 32768.
Proof. unfold int16. Z.div_mod_to_equations. lia. Qed.

(** The wrapped difference has the same square in both directions. *)
Lemma diff16_square (a b : Z) : diff16 a b * diff16 a b = diff16 b a * diff16 b a.
Proof.
  unfold diff16.
  pose proof (int16_range a) as Ha. pose proof (int16_range b) as Hb.
  destruct (int16_cases (int16 a - int16 b)) as [[H1 ->]|[[H1 ->]|[H1 ->]]]; [lia|..];
    destruct (int16_cases (int16 b - int16 a)) as [[H2 ->]|[[H2 ->]|[H2 ->]]];
    try lia; nia.
Qed.

Lemma computeDistance_sym (p q : Point) :
  CharacterCalculate.computeDistance p q = CharacterCalculate.computeDistance q p.
Proof.
  unfold CharacterCalculate.computeDistance. cbv zeta. f_equal.
  rewrite <- !mult_IZR, <- !plus_IZR. f_equal.
  f_equal; apply diff16_square.
Qed.

Lemma computeDistance_self (p : Point) : CharacterCalculate.computeDistance p p = 0%R.
Proof.
  unfold CharacterCalculate.computeDistance. cbv zeta.
  rewrite !diff16_diag. rewrite Rmult_0_l, Rplus_0_l. apply sqrt_0.
Qed.

Lemma linesOverlap_sym (a b : CharacterCalculate.SegmentationLine) (threshold : R) :
  CharacterCalculate.linesOverlap a b threshold
  = CharacterCalculate.linesOverlap b a threshold.
Proof.
  unfold CharacterCalculate.linesOverlap. cbv zeta.
  rewrite (computeDistance_sym (CharacterCalculate.StartPoint b)
             (CharacterCalculate.StartPoint a)),
          (computeDistance_sym (CharacterCalculate.EndPoint b)
             (CharacterCalculate.EndPoint a)),
          (computeDistance_sym (CharacterCalculate.StartPoint b)
             (CharacterCalculate.EndPoint a)),
          (computeDistance_sym (CharacterCalculate.EndPoint b)
             (CharacterCalculate.StartPoint a)).
  f_equal. f_equal. apply Rplus_comm.
Qed.

Lemma linesOverlap_self (a : CharacterCalculate.SegmentationLine) :
  CharacterCalculate.linesOverlap a a 3 = true.
Proof.
  unfold CharacterCalculate.linesOverlap. cbv zeta.
  rewrite !computeDistance_self. apply Rltb_true.
  pose proof (Rmin_l (0 + 0)
    (CharacterCalculate.computeDistance (CharacterCalculate.StartPoint a)
       (CharacterCalculate.EndPoint a)
     + CharacterCalculate.computeDistance (CharacterCalculate.EndPoint a)
         (CharacterCalculate.StartPoint a))). lra.
Qed.

(** **** The sort of the lines *)

Lemma moveLineLeft_perm (line : CharacterCalculate.SegmentationLine)
    (prefix : list CharacterCalculate.SegmentationLine) :
  CharacterCalculate.moveLineLeft line prefix ≡ₚ line :: prefix.
Proof.
  induction prefix as [|before rest IH]; [done|]. simpl.
  destruct (Rgtb _ _); [|done]. rewrite IH. apply perm_swap.
Qed.

Lemma sortLinesByStrength_perm (lines : list CharacterCalculate.SegmentationLine) :
  CharacterCalculate.sortLinesByStrength lines ≡ₚ lines.
Proof.
  unfold CharacterCalculate.sortLinesByStrength. rewrite <- Permutation_rev.
  assert (forall prefix,
    fold_left (fun prefix line => CharacterCalculate.moveLineLeft line prefix) lines prefix
    ≡ₚ prefix ++ lines) as H.
  { induction lines as [|a l IH]; intros prefix; [by rewrite app_nil_r|].
    cbn [fold_left]. rewrite IH, moveLineLeft_perm. simpl. apply Permutation_middle. }
  by rewrite H.
Qed.

Definition weaker_line_first : relation CharacterCalculate.SegmentationLine :=
  fun a b => (CharacterCalculate.Strength a <= CharacterCalculate.Strength b)%R.

Definition stronger_line_first : relation CharacterCalculate.SegmentationLine :=
  fun a b => (CharacterCalculate.Strength b <= CharacterCalculate.Strength a)%R.

Lemma moveLineLeft_sorted (line : CharacterCalculate.SegmentationLine)
    (prefix : list CharacterCalculate.SegmentationLine) :
  StronglySorted weaker_line_first prefix ->
  StronglySorted weaker_line_first (CharacterCalculate.moveLineLeft line prefix).
Proof.
  induction prefix as [|before rest IH]; intros Hs.
  - repeat constructor.
  - apply StronglySorted_inv in Hs as [Hrest Hall]. simpl.
    destruct (Rgtb _ _) eqn:E.
    + constructor; [by apply IH|].
      apply Forall_forall. intros b Hb.
      rewrite moveLineLeft_perm in Hb.
      apply elem_of_cons in Hb as [-> | Hb].
      * unfold weaker_line_first. unfold Rgtb in E. apply Rltb_true in E. lra.
      * rewrite Forall_forall in Hall. by apply Hall.
    + constructor; [by constructor|].
      assert (weaker_line_first line before) as Hab.
      { unfold weaker_line_first. unfold Rgtb in E. apply Rltb_false in E. lra. }
      constructor; [done|].
      apply Forall_forall. intros b Hb. rewrite Forall_forall in Hall.
      specialize (Hall b Hb). unfold weaker_line_first in *. lra.
Qed.

Lemma sortLinesByStrength_sorted (lines : list CharacterCalculate.SegmentationLine) :
  StronglySorted stronger_line_first (CharacterCalculate.sortLinesByStrength lines).
Proof.
  unfold CharacterCalculate.sortLinesByStrength.
  apply (StronglySorted_rev weaker_line_first).
  assert (forall prefix, StronglySorted weaker_line_first prefix ->
    StronglySorted weaker_line_first
      (fold_left (fun prefix line => CharacterCalculate.moveLineLeft line prefix)
         lines prefix)) as H.
  { induction lines as [|a l IH]; intros prefix Hp; [done|].
    cbn [fold_left]. by apply IH, moveLineLeft_sorted. }
  apply H. constructor.
Qed.

(** **** The loop *)

(** What one turn of the loop leaves in [filtered]. *)
Definition filterTurn (line : CharacterCalculate.SegmentationLine)
    (filtered : list CharacterCalculate.SegmentationLine)
    : list CharacterCalculate.SegmentationLine :=
  if existsb (fun existing => CharacterCalculate.linesOverlap line existing 3) filtered
  then filtered else filtered ++ [line].

Lemma filterLoop_cons (limit : Z) (line : CharacterCalculate.SegmentationLine)
    (rest filtered : list CharacterCalculate.SegmentationLine) :
  CharacterCalculate.filterLoop limit (line :: rest) filtered
  = if bool_decide (Z.of_nat (length (filterTurn line filtered)) >= limit)
    then filterTurn line filtered
    else CharacterCalculate.filterLoop limit rest (filterTurn line filtered).
Proof. done. Qed.

Lemma filterLoop_sublist (limit : Z)
    (lines filtered : list CharacterCalculate.SegmentationLine) :
  exists kept,
    CharacterCalculate.filterLoop limit lines filtered = filtered ++ kept
    /\ kept `sublist_of` lines.
Proof.
  revert filtered. induction lines as [|line rest IH]; intros filtered.
  - exists []. by rewrite app_nil_r.
  - rewrite filterLoop_cons. unfold filterTurn.
    destruct (existsb _ filtered).
    + case_bool_decide.
      * exists []. rewrite app_nil_r. split; [done|]. apply sublist_nil_l.
      * destruct (IH filtered) as (kept & -> & Hsub).
        exists kept. split; [done|]. by apply sublist_cons.
    + case_bool_decide.
      * exists [line]. split; [done|]. apply sublist_skip, sublist_nil_l.
      * destruct (IH (filtered ++ [line])) as (kept & -> & Hsub).
        exists (line :: kept). split; [by rewrite <- app_assoc|]. by apply sublist_skip.
Qed.

(** No line overlaps one that stands before it. *)
Definition apart (lines : list CharacterCalculate.SegmentationLine) : Prop :=
  forall i j a b, (i < j)%nat -> lines !! i = Some a -> lines !! j = Some b ->
                  CharacterCalculate.linesOverlap b a 3 = false.

Lemma filterTurn_apart (line : CharacterCalculate.SegmentationLine)
    (filtered : list CharacterCalculate.SegmentationLine) :
  apart filtered -> apart (filterTurn line filtered).
Proof.
  intros Hap. unfold filterTurn.
  destruct (existsb _ filtered) eqn:E; [done|].
  intros i j a b Hlt Hi Hj.
  destruct (decide (j < length filtered)%nat) as [Hj'|Hj'].
  - rewrite lookup_app_l in Hi by lia. rewrite lookup_app_l in Hj by lia.
    by apply (Hap i j).
  - assert (j = length filtered) as ->.
    { apply lookup_lt_Some in Hj. rewrite length_app in Hj. simpl in Hj. lia. }
    rewrite lookup_app_l in Hi by lia.
    rewrite lookup_app_r, Nat.sub_diag in Hj by lia. simpl in Hj.
    injection Hj as <-.
    destruct (CharacterCalculate.linesOverlap line a 3) eqn:Eo; [|done].
    assert (existsb (fun existing => CharacterCalculate.linesOverlap line existing 3)
              filtered = true) as Hex.
    { apply existsb_exists. exists a. split; [|done].
      apply list_elem_of_In. by eapply list_elem_of_lookup_2. }
    congruence.
Qed.

Lemma filterLoop_apart (limit : Z)
    (lines filtered : list CharacterCalculate.SegmentationLine) :
  apart filtered -> apart (CharacterCalculate.filterLoop limit lines filtered).
Proof.
  revert filtered. induction lines as [|line rest IH]; intros filtered Hap; [done|].
  rewrite filterLoop_cons. case_bool_decide.
  - by apply filterTurn_apart.
  - by apply IH, filterTurn_apart.
Qed.

Lemma filterTurn_length (line : CharacterCalculate.SegmentationLine)
    (filtered : list CharacterCalculate.SegmentationLine) :
  (length (filterTurn line filtered) <= length filtered + 1)%nat.
Proof.
  unfold filterTurn. destruct (existsb _ _); [lia|].
  rewrite length_app. simpl. lia.
Qed.

Lemma filterLoop_length (limit : Z)
    (lines filtered : list CharacterCalculate.SegmentationLine) :
  Z.of_nat (length filtered) < Z.max 1 limit ->
  Z.of_nat (length (CharacterCalculate.filterLoop limit lines filtered))
  <= Z.max 1 limit.
Proof.
  revert filtered. induction lines as [|line rest IH]; intros filtered Hlen.
  - simpl. lia.
  - rewrite filterLoop_cons. pose proof (filterTurn_length line filtered).
    case_bool_decide; [lia|]. apply IH. lia.
Qed.

Lemma filterTurn_covers (line : CharacterCalculate.SegmentationLine)
    (filtered : list CharacterCalculate.SegmentationLine) :
  exists k, k ∈ filterTurn line filtered
            /\ CharacterCalculate.linesOverlap line k 3 = true.
Proof.
  unfold filterTurn. destruct (existsb _ filtered) eqn:E.
  - apply existsb_exists in E as (k & Hk & Ho). exists k.
    split; [by apply list_elem_of_In|done].
  - exists line. split; [|apply linesOverlap_self].
    apply elem_of_app. right. apply list_elem_of_here.
Qed.

Lemma filterLoop_covers (limit : Z)
    (lines filtered : list CharacterCalculate.SegmentationLine) :
  Z.of_nat (length (CharacterCalculate.filterLoop limit lines filtered)) < limit ->
  forall line, line ∈ lines ->
    exists k, k ∈ CharacterCalculate.filterLoop limit lines filtered
              /\ CharacterCalculate.linesOverlap line k 3 = true.
Proof.
  revert filtered. induction lines as [|first rest IH]; intros filtered Hlen line Hin.
  { by apply elem_of_nil in Hin. }
  rewrite filterLoop_cons in Hlen |- *.
  case_bool_decide as Hstop; [lia|].
  apply elem_of_cons in Hin as [-> | Hin]; [|by apply IH].
  destruct (filterTurn_covers first filtered) as (k & Hk & Ho).
  exists k. split; [|done].
  destruct (filterLoop_sublist limit rest (filterTurn first filtered)) as (kept & -> & _).
  apply elem_of_app. by left.
Qed.

Lemma filterLoop_first (limit : Z) (first : CharacterCalculate.SegmentationLine)
    (rest : list CharacterCalculate.SegmentationLine) :
  exists kept, CharacterCalculate.filterLoop limit (first :: rest) [] = first :: kept.
Proof.
  rewrite filterLoop_cons. unfold filterTurn. simpl.
  case_bool_decide; [by exists []|].
  destruct (filterLoop_sublist limit rest [first]) as (kept & -> & _). by exists kept.
Qed.

(** The lines [filterSegmentationLines] returns are taken from the lines it
    is given, each as often at most as it is given; no returned line is
    stronger than one returned before it; no two of them overlap at the
    threshold 3 of the source; there are at most [MaxRegions - 1] of them,
    but one when that number is below 1; a strongest line is always
    returned, as the first; and when fewer than [MaxRegions - 1] lines are
    returned, every given line overlaps a returned one. *)
Theorem filterSegmentationLines_spec (char : Character.Character)
    (lines : list CharacterCalculate.SegmentationLine) :
  let kept := CharacterCalculate.filterSegmentationLines char lines in
  let limit := Character.MaxRegions (Character.Config char) - 1 in
  kept ⊆+ lines
  /\ StronglySorted stronger_line_first kept
  /\ (forall i j a b, i <> j -> kept !! i = Some a -> kept !! j = Some b ->
        CharacterCalculate.linesOverlap a b 3 = false)
  /\ Z.of_nat (length kept) <= Z.max 1 limit
  /\ (lines <> [] ->
      exists first, head kept = Some first /\ first ∈ lines
        /\ forall line, line ∈ lines ->
             (CharacterCalculate.Strength line <= CharacterCalculate.Strength first)%R)
  /\ (Z.of_nat (length kept) < limit ->
      forall line, line ∈ lines ->
        exists k, k ∈ kept /\ CharacterCalculate.linesOverlap line k 3 = true).
Proof.
  cbv zeta. unfold CharacterCalculate.filterSegmentationLines.
  set (limit := Character.MaxRegions (Character.Config char) - 1).
  pose proof (sortLinesByStrength_perm lines) as Hperm.
  pose proof (sortLinesByStrength_sorted lines) as Hsorted.
  set (sorted := CharacterCalculate.sortLinesByStrength lines) in *. clearbody sorted.
  destruct (filterLoop_sublist limit sorted []) as (kept & Hkept & Hsub).
  simpl in Hkept.
  split; [|split; [|split; [|split; [|split]]]].
  - rewrite Hkept, <- Hperm. by apply sublist_submseteq.
  - rewrite Hkept. by eapply StronglySorted_sublist.
  - intros i j a b Hne Hi Hj.
    assert (apart (CharacterCalculate.filterLoop limit sorted [])) as Hap.
    { apply filterLoop_apart. intros i' j' a' b' _ Hi'. by rewrite lookup_nil in Hi'. }
    destruct (decide (i < j)%nat) as [Hlt|Hge].
    + rewrite linesOverlap_sym. by apply (Hap i j).
    + apply (Hap j i); [lia|done..].
  - apply filterLoop_length. simpl. lia.
  - intros Hne. destruct sorted as [|first rest].
    { apply Permutation_nil in Hperm. done. }
    destruct (filterLoop_first limit first rest) as (kept' & ->).
    exists first. split; [done|]. split.
    { rewrite <- Hperm. apply list_elem_of_here. }
    intros line Hin. rewrite <- Hperm in Hin.
    apply elem_of_cons in Hin as [-> | Hin]; [lra|].
    apply StronglySorted_inv in Hsorted as [_ Hall].
    rewrite Forall_forall in Hall. by apply Hall.
  - intros Hlen line Hin. rewrite <- Hperm in Hin.
    by apply filterLoop_covers.
Qed.

(** ** The two centres of a character *)










(** ** The Hu invariants of a character and of its region *)





(** ** The edit distance *)













(** **** The recurrence gives a metric *)










(** ** The direction histogram *)



(** **** The counting loops *)







(** **** A neighbour and its opposite *)





